(** * colmap/src/mvs/model.cc: the sparse scene model of the MVS stage

    A shallow embedding of [colmap::mvs::Model] (the two format readers,
    the name/index lookups, [ComputeDepthRanges] and
    [ComputeSharedPoints]) together with the properties its
    specification states about it.

    Conventions of the embedding:
    - [float] is IEEE-754 binary32, through the Standard Library's
      executable specification [SpecFloat] at precision 24 and maximal
      exponent 128, rounding to nearest even;
    - [int] and [size_t] values are integers of [Z]; a negative [int]
      used where a [size_t] is expected converts to a value of at least
      2^64 - 2^31, which is beyond the size of any vector, so such a
      use is written directly as "out of range";
    - [std::vector] is a list, [std::map] and [std::unordered_map] are
      finite maps;
    - a call that does not return (a failed glog [CHECK], [LOG(FATAL)],
      an exception that leaves the function) is a value of [outcome]. *)

From Stdlib Require Import ZArith Lia QArith.
From Stdlib Require Import Floats.SpecFloat Sorting.Sorted.
From Stdlib Require Import Numbers.DecimalString Numbers.DecimalN Numbers.DecimalFacts.
From stdpp Require Import gmap strings list fin_maps.

Local Open Scope Z_scope.

(** ** binary32 arithmetic *)

Module F32.

Definition prec : Z := 24.
Definition emax : Z := 128.

Definition add (x y : spec_float) : spec_float := SFadd prec emax x y.
Definition sub (x y : spec_float) : spec_float := SFsub prec emax x y.
Definition mul (x y : spec_float) : spec_float := SFmul prec emax x y.
Definition div (x y : spec_float) : spec_float := SFdiv prec emax x y.
Definition opp (x : spec_float) : spec_float := SFopp x.
Definition eqb (x y : spec_float) : bool := SFeqb x y.
Definition ltb (x y : spec_float) : bool := SFltb x y.
Definition leb (x y : spec_float) : bool := SFleb x y.

(** Conversion of an integer to [float] (round to nearest even). *)
Definition of_Z (z : Z) : spec_float := binary_normalize prec emax z 0 false.

(** Conversion of a [float] to [size_t]: the fractional part is
    discarded.  Only finite non-negative values below 2^64 have a
    defined result in C++; the others are mapped to 0 here. *)
Definition to_size_t (x : spec_float) : Z :=
  match x with
  | S754_finite false m e =>
      match e with
      | Zneg p => Z.shiftr (Zpos m) (Zpos p)
      | _ => Z.shiftl (Zpos m) e
      end
  | _ => 0
  end.

Definition zero : spec_float := S754_zero false.
Definition one : spec_float := Eval vm_compute in of_Z 1.
Definition two : spec_float := Eval vm_compute in of_Z 2.

(** A decimal literal denotes the binary32 number nearest to it; for
    a literal p/q with p and q exactly representable that is the
    correctly rounded quotient. *)
Definition lit (p q : Z) : spec_float := div (of_Z p) (of_Z q).

(** The exact rational value of a finite number (0 otherwise). *)
Definition to_Q (x : spec_float) : Q :=
  match x with
  | S754_finite s m e =>
      (inject_Z (if s then Zneg m else Zpos m) * Qpower (2 # 1) e)%Q
  | _ => 0%Q
  end.

Definition is_finite (x : spec_float) : bool :=
  match x with
  | S754_finite _ _ _ | S754_zero _ => true
  | _ => false
  end.

Definition valid (x : spec_float) : bool := valid_binary prec emax x.

End F32.

Abbreviation float := spec_float.

Global Instance float_inhabited : Inhabited float := populate F32.zero.

(** ** Calls that may not return *)

Inductive outcome (A : Type) : Type :=
  | Ok (a : A)
      (** the call returns *)
  | Fatal
      (** a [CHECK] fails or [LOG(FATAL)] runs: the process aborts *)
  | Thrown
      (** an exception ([std::out_of_range] of [at], [std::length_error]
          of [reserve]/[resize]) leaves the function *)
  | StreamFailure.
      (** a [file >> x] extraction finds no token of the expected kind.
          The source never tests the stream state; what the run does
          with the variables that were not assigned is not modelled. *)
Arguments Ok {A} a.
Arguments Fatal {A}.
Arguments Thrown {A}.
Arguments StreamFailure {A}.

Global Instance outcome_ret : MRet outcome := λ A a, Ok a.
Global Instance outcome_bind : MBind outcome := λ A B f o,
  match o with
  | Ok a => f a
  | Fatal => Fatal
  | Thrown => Thrown
  | StreamFailure => StreamFailure
  end.

(** A loop [for (x : l) body] over a state that may stop early. *)
Fixpoint for_each {S A : Type} (body : A → S → outcome S) (l : list A) (s : S)
  : outcome S :=
  match l with
  | [] => Ok s
  | x :: l' => s' ← body x s; for_each body l' s'
  end.

(** [v.at(i)] for an [int] index [i]. *)
Definition vector_at {A : Type} (v : list A) (i : Z) : outcome A :=
  if 0 <=? i then
    match v !! Z.to_nat i with
    | Some a => Ok a
    | None => Thrown
    end
  else Thrown.

(** The comparison [i < v.size()] of an [int] with a [size_t]. *)
Definition int_lt_size (i : Z) (size : nat) : bool :=
  (0 <=? i) && (i <? Z.of_nat size).

(** [v.resize(n)] on a vector whose new elements are value-initialised. *)
Definition resize {A : Type} (n : nat) (d : A) (v : list A) : list A :=
  take n v ++ replicate (n - length v) d.

Definition int_min : Z := - 2 ^ 31.
Definition int_max : Z := 2 ^ 31 - 1.
Definition in_int_range (z : Z) : bool := (int_min <=? z) && (z <=? int_max).

(** Conversion of a [size_t] to [int] (two's complement wrap-around). *)
Definition int_of_size_t (n : Z) : Z := (n + 2 ^ 31) mod 2 ^ 32 - 2 ^ 31.

(** The [int] that an arithmetic operation on [int] leaves when its
    mathematical result is [z].  A result outside the range of [int] is
    a signed overflow, which is undefined behaviour in C++; the
    embedding then takes the two's-complement result that the compiled
    code produces. *)
Definition int_wrap (z : Z) : Z := (z + 2 ^ 31) mod 2 ^ 32 - 2 ^ 31.

(** ** The data of [mvs/model.h] and [mvs/image.h] *)

(** [mvs::Image]: the constructor copies 9, 9 and 3 floats. *)
Record Image : Type := {
  image_path : string;
  image_K : list float;
  image_R : list float;
  image_T : list float
}.

(** [Model::Point]. *)
Record Point : Type := {
  point_x : float;
  point_y : float;
  point_z : float;
  point_track : list Z
}.

(** The depth maps, normal maps and consistency graphs are filled by the
    dense stage; here only the number of slots matters. *)
Inductive slot : Type := EmptySlot.

Record Model : Type := {
  images : list Image;
  points : list Point;
  depth_maps : list slot;
  normal_maps : list slot;
  consistency_graph : list slot;
  image_names_ : list string;
  image_name_to_id_ : gmap string Z
}.

(** A default-constructed [Model]. *)
Definition empty_Model : Model :=
  {| images := []; points := []; depth_maps := []; normal_maps := [];
     consistency_graph := []; image_names_ := []; image_name_to_id_ := ∅ |}.

(** [m.emplace(k, v)]: inserts only when the key is absent. *)
Definition emplace `{Countable K} {V : Type} (k : K) (v : V) (m : gmap K V)
  : gmap K V :=
  match m !! k with
  | Some _ => m
  | None => <[k := v]> m
  end.

(** The three statements
    [images.emplace_back(..); image_names_.push_back(name);
     image_name_to_id_.emplace(name, id)]. *)
Definition push_image (im : Image) (name : string) (id : Z) (m : Model) : Model :=
  {| images := images m ++ [im];
     points := points m;
     depth_maps := depth_maps m;
     normal_maps := normal_maps m;
     consistency_graph := consistency_graph m;
     image_names_ := image_names_ m ++ [name];
     image_name_to_id_ := emplace name id (image_name_to_id_ m) |}.

(** The end of both readers: the point list, then the three [resize]. *)
Definition finish_load (pts : list Point) (m : Model) : Model :=
  {| images := images m;
     points := pts;
     depth_maps := resize (length (images m)) EmptySlot (depth_maps m);
     normal_maps := resize (length (images m)) EmptySlot (normal_maps m);
     consistency_graph :=
       resize (length (images m)) EmptySlot (consistency_graph m);
     image_names_ := image_names_ m;
     image_name_to_id_ := image_name_to_id_ m |}.

(** ** What the readers see of the outside *)

(** The body of [bundle.rd.out] after its header line, cut into the
    tokens the extractions consume: [TInt] where an [int] is extracted,
    [TReal] where a [float] is (carrying the extracted value). *)
Inductive token : Type :=
  | TInt (z : Z)
  | TReal (x : float).

(** [base/reconstruction.h], as far as [ReadFromCOLMAP] looks at it.  The
    numeric fields hold what the accessor chains of the source evaluate
    to: [camera.CalibrationMatrix().cast<float>()],
    [QuaternionToRotationMatrix(image.Qvec()).cast<float>()],
    [image.Tvec().cast<float>()] and the coordinates narrowed to float. *)
Record Camera : Type := {
  camera_ModelId : Z;
  camera_K : list float
}.

Record RecImage : Type := {
  rimage_Name : string;
  rimage_CameraId : Z;
  rimage_R : list float;
  rimage_T : list float
}.

Record Point3D : Type := {
  point3D_X : float;
  point3D_Y : float;
  point3D_Z : float;
  point3D_Track : list Z
}.

Record Reconstruction : Type := {
  RegImageIds : list Z;
  rec_Images : gmap Z RecImage;
  rec_Cameras : gmap Z Camera;
  Points3D : list Point3D
}.

(** [PinholeCameraModel::model_id] of [base/camera_models.h]. *)
Definition PinholeCameraModel_model_id : Z := 1.

Record Env : Type := {
  (** [std::ifstream file(p)]: the header line and the tokens after it,
      or nothing when the file cannot be opened *)
  open_bundle : string → option (string * list token);
  (** [Bitmap::Read(p)] followed by [Width()] and [Height()] *)
  read_bitmap : string → option (Z * Z);
  (** [Reconstruction::Read(p)] *)
  read_reconstruction : string → outcome Reconstruction
}.

(** [JoinPaths] of [util/misc.h]. *)
Definition JoinPaths (a b : string) : string := a +:+ "/" +:+ b.

(** [StringPrintf("%08d.jpg", image_id)]: the decimal digits, padded with
    zeros on the left to a width of eight, the sign counting as one. *)
Definition pad_zeros (width : nat) (d : Decimal.uint) : Decimal.uint :=
  Nat.iter (width - Decimal.nb_digits d) Decimal.D0 d.

Definition format_08d (image_id : Z) : string :=
  if image_id <? 0
  then "-" +:+ NilEmpty.string_of_uint (pad_zeros 7 (N.to_uint (Z.to_N (- image_id))))
  else NilEmpty.string_of_uint (pad_zeros 8 (N.to_uint (Z.to_N image_id))).

Definition image_name_of_id (image_id : Z) : string :=
  format_08d image_id +:+ ".jpg".

(** ** The legacy reader, [Model::ReadFromPMVS] *)

(** Extractions thread the rest of the stream. *)
Definition reader (A : Type) : Type := list token → outcome (A * list token).

Global Instance reader_ret : MRet reader := λ A a s, Ok (a, s).
Global Instance reader_bind : MBind reader := λ A B f r s,
  match r s with
  | Ok (a, s') => f a s'
  | Fatal => Fatal
  | Thrown => Thrown
  | StreamFailure => StreamFailure
  end.

(** Leaving the reader through a failed check or through an exception. *)
Definition abort {A : Type} : reader A := λ _, Fatal.
Definition throw {A : Type} : reader A := λ _, Thrown.

(** [file >> x] for an [int x]. *)
Definition read_int : reader Z := λ s,
  match s with
  | TInt z :: s' => if in_int_range z then Ok (z, s') else StreamFailure
  | _ => StreamFailure
  end.

(** [file >> x] for a [float x]. *)
Definition read_float : reader float := λ s,
  match s with
  | TReal x :: s' => Ok (x, s')
  | _ => StreamFailure
  end.

(** [for (size_t i = 0; i < n; ++i) file >> R[i];] *)
Fixpoint read_floats (n : nat) : reader (list float) :=
  match n with
  | O => mret []
  | S n' => x ← read_float; xs ← read_floats n'; mret (x :: xs)
  end.

(** [for (size_t i = lo; i < hi; ++i) R[i] = -R[i];] *)
Definition negate_range (lo hi : nat) (R : list float) : list float :=
  foldl (λ R i, <[i := F32.opp (R !!! i)]> R) R (seq lo (hi - lo)).

(** One round of the image loop. *)
Definition read_image (env : Env) (path : string) (image_id : Z) (m : Model)
  : reader Model :=
  let image_name := image_name_of_id image_id in
  let image_path := JoinPaths (JoinPaths path "visualize") image_name in
  let K := [F32.one; F32.zero; F32.zero;
            F32.zero; F32.one; F32.zero;
            F32.zero; F32.zero; F32.one] in
  f ← read_float;
  let K := <[0%nat := f]> K in
  let K := <[4%nat := K !!! 0%nat]> K in
  match read_bitmap env image_path with
  | None => abort
  | Some (width, height) =>
      let K := <[2%nat := F32.div (F32.of_Z width) F32.two]> K in
      let K := <[5%nat := F32.div (F32.of_Z height) F32.two]> K in
      k1 ← read_float;
      k2 ← read_float;
      if negb (F32.eqb k1 F32.zero) then abort
      else if negb (F32.eqb k2 F32.zero) then abort
      else
        R ← read_floats 9;
        let R := negate_range 3 9 R in
        T ← read_floats 3;
        let T := <[1%nat := F32.opp (T !!! 1%nat)]> T in
        let T := <[2%nat := F32.opp (T !!! 2%nat)]> T in
        mret (push_image
                {| image_path := image_path; image_K := K;
                   image_R := R; image_T := T |}
                image_name image_id m)
  end.

(** [for (int image_id = 0; image_id < num_images; ++image_id)], with
    [count] rounds left. *)
Fixpoint read_images (env : Env) (path : string) (count : nat) (image_id : Z)
    (m : Model) : reader Model :=
  match count with
  | O => mret m
  | S count' =>
      m' ← read_image env path image_id m;
      read_images env path count' (image_id + 1) m'
  end.

(** One round of the track loop: the four extractions and the check
    [CHECK_LT(point.track[i], images.size())]. *)
Definition read_track_entry (num_frames : nat) : reader Z :=
  image_idx ← read_int;
  feature_idx ← read_int;
  imx ← read_float;
  imy ← read_float;
  if int_lt_size image_idx num_frames then mret image_idx else abort.

Fixpoint read_track (num_frames : nat) (track_len : nat) : reader (list Z) :=
  match track_len with
  | O => mret []
  | S n' =>
      t ← read_track_entry num_frames;
      ts ← read_track num_frames n';
      mret (t :: ts)
  end.

(** One round of the point loop.  [point.track.resize(track_len)] with a
    negative [track_len] throws [std::length_error]. *)
Definition read_point (num_frames : nat) : reader Point :=
  x ← read_float;
  y ← read_float;
  z ← read_float;
  red ← read_int;
  green ← read_int;
  blue ← read_int;
  track_len ← read_int;
  if track_len <? 0 then throw
  else
    track ← read_track num_frames (Z.to_nat track_len);
    mret {| point_x := x; point_y := y; point_z := z; point_track := track |}.

Fixpoint read_points (num_frames : nat) (count : nat) : reader (list Point) :=
  match count with
  | O => mret []
  | S count' =>
      p ← read_point num_frames;
      ps ← read_points num_frames count';
      mret (p :: ps)
  end.

(** The body of [ReadFromPMVS] once the file is open.  [images.reserve]
    and [points.resize] throw [std::length_error] on a negative count.
    Every element of the resized point vector is overwritten (its three
    coordinates and, after [track.resize], every track entry), so the
    points of the result are exactly the points read. *)
Definition read_bundle (env : Env) (path : string) (m : Model) : reader Model :=
  num_images ← read_int;
  num_points ← read_int;
  if num_images <? 0 then throw
  else
    m' ← read_images env path (Z.to_nat num_images) 0 m;
    if num_points <? 0 then throw
    else
      pts ← read_points (length (images m')) (Z.to_nat num_points);
      mret (finish_load pts m').

Definition ReadFromPMVS (env : Env) (path : string) (m : Model) : outcome Model :=
  let bundle_file_path := JoinPaths path "bundle.rd.out" in
  match open_bundle env bundle_file_path with
  | None => Fatal
  | Some (header, body) => r ← read_bundle env path m body; mret (fst r)
  end.

(** ** The canonical reader, [Model::ReadFromCOLMAP] *)

(** One round of the image loop; [i] is the loop counter and
    [image_id_map] the local [unordered_map<image_t, size_t>]. *)
Definition load_reg_image (path : string) (rec : Reconstruction)
    (st : Model * gmap Z Z) (i : nat) (image_id : Z)
  : outcome (Model * gmap Z Z) :=
  let '(m, image_id_map) := st in
  match rec_Images rec !! image_id with
  | None => Thrown
  | Some image =>
      match rec_Cameras rec !! rimage_CameraId image with
      | None => Thrown
      | Some camera =>
          if negb (camera_ModelId camera =? PinholeCameraModel_model_id)
          then Fatal
          else
            let image_path :=
              JoinPaths (JoinPaths path "images") (rimage_Name image) in
            Ok (push_image
                  {| image_path := image_path; image_K := camera_K camera;
                     image_R := rimage_R image; image_T := rimage_T image |}
                  (rimage_Name image) (int_of_size_t (Z.of_nat i)) m,
                emplace image_id (Z.of_nat i) image_id_map)
      end
  end.

(** [for (size_t i = 0; i < reconstruction.NumRegImages(); ++i)], over
    the registered ids that are left, [i] being the index of the first. *)
Fixpoint load_reg_images (path : string) (rec : Reconstruction)
    (ids : list Z) (i : nat) (st : Model * gmap Z Z)
  : outcome (Model * gmap Z Z) :=
  match ids with
  | [] => Ok st
  | image_id :: ids' =>
      st' ← load_reg_image path rec st i image_id;
      load_reg_images path rec ids' (S i) st'
  end.

(** [point.track.push_back(image_id_map.at(track_el.image_id))] for every
    element of a track. *)
Fixpoint map_track (image_id_map : gmap Z Z) (track : list Z) : outcome (list Z) :=
  match track with
  | [] => Ok []
  | image_id :: track' =>
      match image_id_map !! image_id with
      | None => Thrown
      | Some i =>
          rest ← map_track image_id_map track';
          Ok (int_of_size_t i :: rest)
      end
  end.

Definition load_point3D (image_id_map : gmap Z Z) (p : Point3D) : outcome Point :=
  track ← map_track image_id_map (point3D_Track p);
  Ok {| point_x := point3D_X p; point_y := point3D_Y p;
        point_z := point3D_Z p; point_track := track |}.

(** [for (const auto& point3D : reconstruction.Points3D())], with
    [points.push_back(point)] at the end of each round. *)
Fixpoint load_points3D (image_id_map : gmap Z Z) (ps : list Point3D)
    (acc : list Point) : outcome (list Point) :=
  match ps with
  | [] => Ok acc
  | p :: ps' =>
      point ← load_point3D image_id_map p;
      load_points3D image_id_map ps' (acc ++ [point])
  end.

Definition ReadFromCOLMAP (env : Env) (path : string) (m : Model) : outcome Model :=
  rec ← read_reconstruction env (JoinPaths path "sparse");
  st ← load_reg_images path rec (RegImageIds rec) 0%nat (m, ∅);
  pts ← load_points3D st.2 (Points3D rec) (points st.1);
  Ok (finish_load pts st.1).

(** ** [Model::Read] *)

Definition Read (env : Env) (path format : string) (m : Model) : outcome Model :=
  if decide (format = "COLMAP") then ReadFromCOLMAP env path m
  else if decide (format = "PMVS") then ReadFromPMVS env path m
  else Fatal.

(** ** The lookups *)

Definition GetImageId (m : Model) (name : string) : outcome Z :=
  match image_name_to_id_ m !! name with
  | None => Fatal
  | Some id => Ok id
  end.

Definition GetImageName (m : Model) (image_id : Z) : outcome string :=
  if negb (0 <=? image_id) then Fatal
  else if negb (int_lt_size image_id (length (image_names_ m))) then Fatal
  else vector_at (image_names_ m) image_id.

(** ** [Model::ComputeDepthRanges] *)

(** [Eigen::Map<const Eigen::Vector3f>(&image.GetR()[6]).dot(X) +
    image.GetT()[2]].  Eigen unrolls the reduction of a fixed-size
    3-vector by halving, which sums the three products as
    [p0 + (p1 + p2)]. *)
Definition dot3 (a0 a1 a2 b0 b1 b2 : float) : float :=
  F32.add (F32.mul a0 b0) (F32.add (F32.mul a1 b1) (F32.mul a2 b2)).

Definition depth_of (image : Image) (point : Point) : float :=
  F32.add
    (dot3 (image_R image !!! 6%nat) (image_R image !!! 7%nat)
          (image_R image !!! 8%nat)
          (point_x point) (point_y point) (point_z point))
    (image_T image !!! 2%nat).

(** The body of the inner loop of the first pass. *)
Definition add_depth (imgs : list Image) (point : Point) (image_id : Z)
    (depths : list (list float)) : outcome (list (list float)) :=
  image ← vector_at imgs image_id;
  let depth := depth_of image point in
  if F32.ltb F32.zero depth
  then Ok (alter (λ ds, ds ++ [depth]) (Z.to_nat image_id) depths)
  else Ok depths.

(** The first pass: [depths[image_id]] collects the positive depths. *)
Definition collect_depths (m : Model) : outcome (list (list float)) :=
  for_each
    (λ point depths, for_each (add_depth (images m) point) (point_track point) depths)
    (points m)
    (replicate (length (images m)) []).

(** [std::sort] with [operator<].  On numbers that are neither NaN nor
    zero the order is total and antisymmetric, so the sorted sequence
    does not depend on the algorithm ([sort_unique] below); insertion
    sort stands for it. *)
Fixpoint insert_sorted (x : float) (l : list float) : list float :=
  match l with
  | [] => [x]
  | y :: l' => if F32.ltb y x then y :: insert_sorted x l' else x :: l
  end.

Definition sort (l : list float) : list float := foldr insert_sorted [] l.

Definition kMinPercentile : float := Eval vm_compute in F32.lit 1 100.
Definition kMaxPercentile : float := Eval vm_compute in F32.lit 99 100.
Definition kStretchRatio : float := Eval vm_compute in F32.lit 1 4.

(** The index [image_depths.size() * p]: the size is converted to float,
    multiplied in binary32, and the product converted back to [size_t]. *)
Definition percentile_index (size : nat) (p : float) : nat :=
  Z.to_nat (F32.to_size_t (F32.mul (F32.of_Z (Z.of_nat size)) p)).

(** The body of the second pass. *)
Definition depth_range_of (image_depths : list float) : float * float :=
  match image_depths with
  | [] => (F32.opp F32.one, F32.opp F32.one)
  | _ :: _ =>
      let image_depths := sort image_depths in
      let first := image_depths !!! percentile_index (length image_depths) kMinPercentile in
      let second := image_depths !!! percentile_index (length image_depths) kMaxPercentile in
      (F32.mul first (F32.sub F32.one kStretchRatio),
       F32.mul second (F32.add F32.one kStretchRatio))
  end.

Definition ComputeDepthRanges (m : Model) : outcome (list (float * float)) :=
  depths ← collect_depths m;
  Ok (map depth_range_of depths).

(** ** [Model::ComputeSharedPoints] *)

(** [shared_points.at(a)[b] += 1]: [operator[]] of [std::map] inserts a
    zero count for a key that is absent, and the count is an [int], so
    the sum is taken in [int] arithmetic. *)
Definition increment (a b : Z) (shared_points : list (gmap Z Z))
  : outcome (list (gmap Z Z)) :=
  counts ← vector_at shared_points a;
  Ok (<[Z.to_nat a := <[b := int_wrap (default 0 (counts !! b) + 1)]> counts]>
        shared_points).

(** The body of the innermost loop. *)
Definition share_pair (image_id1 image_id2 : Z) (shared_points : list (gmap Z Z))
  : outcome (list (gmap Z Z)) :=
  if decide (image_id1 ≠ image_id2) then
    shared_points' ← increment image_id1 image_id2 shared_points;
    increment image_id2 image_id1 shared_points'
  else Ok shared_points.

(** The two loops over the positions [j < i] of one track. *)
Definition share_track (track : list Z) (shared_points : list (gmap Z Z))
  : outcome (list (gmap Z Z)) :=
  for_each
    (λ i shared_points,
       let image_id1 := track !!! i in
       for_each
         (λ j shared_points,
            let image_id2 := track !!! j in
            share_pair image_id1 image_id2 shared_points)
         (seq 0 i) shared_points)
    (seq 0 (length track)) shared_points.

Definition ComputeSharedPoints (m : Model) : outcome (list (gmap Z Z)) :=
  for_each (λ point, share_track (point_track point)) (points m)
    (replicate (length (images m)) ∅).

(** ** Notions the properties are stated with *)

(** The depths the first pass appends to [depths[f]] for one track
    entry [image_id] of [point]. *)
Definition entry_depths (imgs : list Image) (f : nat) (point : Point)
    (image_id : Z) : list float :=
  if decide (image_id = Z.of_nat f) then
    match imgs !! f with
    | Some image =>
        if F32.ltb F32.zero (depth_of image point)
        then [depth_of image point] else []
    | None => []
    end
  else [].

(** The sample list of frame [f]: for every point, in order, and every
    entry of its track that is [f], the depth of the point for [f] when
    it is positive. *)
Definition frame_depths (m : Model) (f : nat) : list float :=
  point ← points m;
  image_id ← point_track point;
  entry_depths (images m) f point image_id.

(** Every track entry is a frame index. *)
Definition valid_tracks (m : Model) : Prop :=
  Forall (λ point,
            Forall (λ image_id, 0 ≤ image_id < Z.of_nat (length (images m)))
                   (point_track point))
         (points m).

(** Ascending order of a sample list. *)
Fixpoint ascending (l : list float) : bool :=
  match l with
  | [] => true
  | x :: l' =>
      match l' with
      | [] => true
      | y :: _ => F32.leb x y && ascending l'
      end
  end.

(** The percentile index in exact integer arithmetic, ⌊n·num/den⌋. *)
Definition floor_index (n : nat) (num den : Z) : nat :=
  Z.to_nat (Z.of_nat n * num / den).

(** The number of entries of a track that are frame [a]. *)
Definition occurrences (a : Z) (track : list Z) : Z :=
  Z.of_nat (length (filter (λ x, x = a) track)).

(** The number of pairs of positions of the tracks of [pts] of which one
    holds frame [a] and the other frame [b]. *)
Definition pair_count (pts : list Point) (a b : Z) : Z :=
  foldr (λ point acc,
           occurrences a (point_track point) * occurrences b (point_track point)
           + acc)
        0 pts.

(** A count as [std::map] stores it: no entry for zero. *)
Definition stored (c : Z) : option Z := if decide (c = 0) then None else Some c.

(** The entry [shared_points[a][b]]. *)
Definition shared_entry (shared_points : list (gmap Z Z)) (a b : Z) : option Z :=
  counts ← shared_points !! Z.to_nat a; counts !! b.

(** A row-major 3×3 matrix with the rows of the given (0-based) indices
    negated, and a vector with the components of the given indices
    negated. *)
Definition negate_rows (rows : list nat) (R : list float) : list float :=
  imap (λ i x, if decide ((i / 3)%nat ∈ rows) then F32.opp x else x) R.

Definition negate_components (ks : list nat) (T : list float) : list float :=
  imap (λ i x, if decide (i ∈ ks) then F32.opp x else x) T.

(** *** The grammar of [bundle.rd.out] *)

Record BundleCamera : Type := {
  cam_focal : float;
  cam_k1 : float;
  cam_k2 : float;
  cam_R : list float;
  cam_T : list float
}.

Record BundleView : Type := {
  view_image : Z;
  view_feature : Z;
  view_x : float;
  view_y : float
}.

Record BundlePoint : Type := {
  bp_x : float;
  bp_y : float;
  bp_z : float;
  bp_red : Z;
  bp_green : Z;
  bp_blue : Z;
  bp_views : list BundleView
}.

Record Bundle : Type := {
  bundle_cameras : list BundleCamera;
  bundle_points : list BundlePoint
}.

Definition camera_tokens (c : BundleCamera) : list token :=
  TReal (cam_focal c) :: TReal (cam_k1 c) :: TReal (cam_k2 c)
  :: (TReal <$> cam_R c) ++ (TReal <$> cam_T c).

Definition view_tokens (v : BundleView) : list token :=
  [TInt (view_image v); TInt (view_feature v); TReal (view_x v); TReal (view_y v)].

Definition point_tokens (p : BundlePoint) : list token :=
  [TReal (bp_x p); TReal (bp_y p); TReal (bp_z p);
   TInt (bp_red p); TInt (bp_green p); TInt (bp_blue p);
   TInt (Z.of_nat (length (bp_views p)))]
  ++ (bp_views p ≫= view_tokens).

Definition bundle_tokens (b : Bundle) : list token :=
  TInt (Z.of_nat (length (bundle_cameras b)))
  :: TInt (Z.of_nat (length (bundle_points b)))
  :: (bundle_cameras b ≫= camera_tokens) ++ (bundle_points b ≫= point_tokens).

(** The file follows the grammar: nine and three numbers for every
    rotation and translation, and every integer fits an [int]. *)
Definition camera_wf (c : BundleCamera) : bool :=
  bool_decide (length (cam_R c) = 9%nat) && bool_decide (length (cam_T c) = 3%nat).

Definition view_wf (v : BundleView) : bool :=
  in_int_range (view_image v) && in_int_range (view_feature v).

Definition point_wf (p : BundlePoint) : bool :=
  in_int_range (bp_red p) && in_int_range (bp_green p)
  && in_int_range (bp_blue p)
  && in_int_range (Z.of_nat (length (bp_views p)))
  && forallb view_wf (bp_views p).

Definition bundle_wf (b : Bundle) : bool :=
  in_int_range (Z.of_nat (length (bundle_cameras b)))
  && in_int_range (Z.of_nat (length (bundle_points b)))
  && forallb camera_wf (bundle_cameras b)
  && forallb point_wf (bundle_points b).

(** The environment in which [path]/bundle.rd.out holds bundle [b]. *)
Definition holds_bundle (env : Env) (path : string) (b : Bundle) : Prop :=
  ∃ header, open_bundle env (JoinPaths path "bundle.rd.out")
            = Some (header, bundle_tokens b).

(** What one round of the image loop makes of a camera block: the image
    it pushes, unless a check fails. *)
Definition image_of_camera (env : Env) (path : string) (image_id : Z)
    (c : BundleCamera) : option Image :=
  let image_path :=
    JoinPaths (JoinPaths path "visualize") (image_name_of_id image_id) in
  match read_bitmap env image_path with
  | None => None
  | Some (width, height) =>
      if F32.eqb (cam_k1 c) F32.zero && F32.eqb (cam_k2 c) F32.zero then
        Some {| image_path := image_path;
                image_K := [cam_focal c; F32.zero;
                            F32.div (F32.of_Z width) F32.two;
                            F32.zero; cam_focal c;
                            F32.div (F32.of_Z height) F32.two;
                            F32.zero; F32.zero; F32.one];
                image_R := negate_rows [1; 2]%nat (cam_R c);
                image_T := negate_components [1; 2]%nat (cam_T c) |}
      else None
  end.

Fixpoint images_of_cameras (env : Env) (path : string) (image_id : Z)
    (cs : list BundleCamera) (m : Model) : option Model :=
  match cs with
  | [] => Some m
  | c :: cs' =>
      match image_of_camera env path image_id c with
      | None => None
      | Some im =>
          images_of_cameras env path (image_id + 1) cs'
            (push_image im (image_name_of_id image_id) image_id m)
      end
  end.

Definition track_of_views (num_frames : nat) (vs : list BundleView) : option (list Z) :=
  if forallb (λ v, int_lt_size (view_image v) num_frames) vs
  then Some (view_image <$> vs) else None.

Definition point_of_bundle (num_frames : nat) (p : BundlePoint) : option Point :=
  track ← track_of_views num_frames (bp_views p);
  Some {| point_x := bp_x p; point_y := bp_y p; point_z := bp_z p;
          point_track := track |}.

(** The count [shared_points[a][b]] holds, zero when there is no entry. *)
Definition shared_count (shared_points : list (gmap Z Z)) (a b : Z) : Z :=
  default 0 (shared_entry shared_points a b).

(** The table has one map per frame and stores positive counts only. *)
Definition counts_ok (n : nat) (shared_points : list (gmap Z Z)) : Prop :=
  length shared_points = n
  ∧ ∀ i counts b v,
      shared_points !! i = Some counts → counts !! b = Some v → 0 < v.

(** *** The pass over counts that are not bounded

    The same loops with the counts taken in [Z]: what the pass computes
    as long as no count leaves the range of [int]. *)
Definition increment_exact (a b : Z) (shared_points : list (gmap Z Z))
  : outcome (list (gmap Z Z)) :=
  counts ← vector_at shared_points a;
  Ok (<[Z.to_nat a := <[b := default 0 (counts !! b) + 1]> counts]> shared_points).

Definition share_pair_exact (image_id1 image_id2 : Z)
    (shared_points : list (gmap Z Z)) : outcome (list (gmap Z Z)) :=
  if decide (image_id1 ≠ image_id2) then
    shared_points' ← increment_exact image_id1 image_id2 shared_points;
    increment_exact image_id2 image_id1 shared_points'
  else Ok shared_points.

Definition share_track_exact (track : list Z) (shared_points : list (gmap Z Z))
  : outcome (list (gmap Z Z)) :=
  for_each
    (λ i shared_points,
       let image_id1 := track !!! i in
       for_each
         (λ j shared_points,
            let image_id2 := track !!! j in
            share_pair_exact image_id1 image_id2 shared_points)
         (seq 0 i) shared_points)
    (seq 0 (length track)) shared_points.

Definition shared_points_exact (n : nat) (pts : list Point)
  : outcome (list (gmap Z Z)) :=
  for_each (λ point, share_track_exact (point_track point)) pts (replicate n ∅).

(** A table of unbounded counts as the [int] table holds it. *)
Definition wrap_table (shared_points : list (gmap Z Z)) : list (gmap Z Z) :=
  (λ counts : gmap Z Z, int_wrap <$> counts) <$> shared_points.

(** No count of the table of the model exceeds [INT_MAX]: the pass over
    the model makes no signed overflow. *)
Definition counts_fit_int (m : Model) : Prop :=
  ∀ a b, a ≠ b → pair_count (points m) a b ≤ int_max.

(** The model with one more point at the end of its point list. *)
Definition add_point (p : Point) (m : Model) : Model :=
  {| images := images m;
     points := points m ++ [p];
     depth_maps := depth_maps m;
     normal_maps := normal_maps m;
     consistency_graph := consistency_graph m;
     image_names_ := image_names_ m;
     image_name_to_id_ := image_name_to_id_ m |}.

(** What one round of the innermost loop adds to the count of [(x, y)]. *)
Definition pair_delta (image_id1 image_id2 x y : Z) : Z :=
  if decide (image_id1 ≠ image_id2) then
    (if decide (x = image_id1 ∧ y = image_id2) then 1 else 0)
    + (if decide (x = image_id2 ∧ y = image_id1) then 1 else 0)
  else 0.

(** The number of pairs of positions [j < i] of a track of which one
    holds frame [a] and the other frame [b]. *)
Definition position_pairs (a b : Z) (track : list Z) : Z :=
  Z.of_nat (length (filter
    (λ ij : nat * nat,
       (track !! ij.1 = Some a ∧ track !! ij.2 = Some b)
       ∨ (track !! ij.1 = Some b ∧ track !! ij.2 = Some a))
    (i ← seq 0 (length track); j ← seq 0 i; [(i, j)]))).

(** Small models for the examples: a frame looking down the z axis from
    the origin, and a model of [n] such frames without points. *)
Definition identity3 : list float :=
  [F32.one; F32.zero; F32.zero;
   F32.zero; F32.one; F32.zero;
   F32.zero; F32.zero; F32.one].

Definition axis_frame : Image :=
  {| image_path := ""; image_K := identity3; image_R := identity3;
     image_T := [F32.zero; F32.zero; F32.zero] |}.

Definition frames_only (n : nat) : Model :=
  {| images := replicate n axis_frame; points := []; depth_maps := [];
     normal_maps := []; consistency_graph := []; image_names_ := [];
     image_name_to_id_ := ∅ |}.

(** A point on the z axis at height [z], observed by the frames of [track]. *)
Definition axis_point (z : float) (track : list Z) : Point :=
  {| point_x := F32.zero; point_y := F32.zero; point_z := z;
     point_track := track |}.

(** *** Small inputs for the examples *)

Definition example_camera (k1 : float) : BundleCamera :=
  {| cam_focal := F32.of_Z 500; cam_k1 := k1; cam_k2 := F32.zero;
     cam_R := identity3;
     cam_T := [F32.of_Z 1; F32.of_Z 2; F32.of_Z 3] |}.

Definition example_view (image_idx : Z) : BundleView :=
  {| view_image := image_idx; view_feature := 7;
     view_x := F32.zero; view_y := F32.zero |}.

Definition example_bundle_point (image_idx : Z) : BundlePoint :=
  {| bp_x := F32.zero; bp_y := F32.zero; bp_z := F32.of_Z 5;
     bp_red := 255; bp_green := 255; bp_blue := 255;
     bp_views := [example_view 0; example_view image_idx] |}.

(** Two cameras, the second with distortion coefficient [k1], and one
    point seen by camera 0 and by camera [image_idx]. *)
Definition example_bundle (k1 : float) (image_idx : Z) : Bundle :=
  {| bundle_cameras := [example_camera F32.zero; example_camera k1];
     bundle_points := [example_bundle_point image_idx] |}.

Definition example_rec_image (name : string) : RecImage :=
  {| rimage_Name := name; rimage_CameraId := 1; rimage_R := identity3;
     rimage_T := [F32.zero; F32.zero; F32.zero] |}.

(** Two registered images, with ids 10 and 20 and the given names, and
    one point seen by image 10 and by the image of id [track_id]. *)
Definition example_reconstruction (name0 name1 : string) (track_id : Z)
  : Reconstruction :=
  {| RegImageIds := [10; 20];
     rec_Images := {[ 10 := example_rec_image name0; 20 := example_rec_image name1 ]};
     rec_Cameras := {[ 1 := {| camera_ModelId := 1; camera_K := identity3 |} ]};
     Points3D := [ {| point3D_X := F32.zero; point3D_Y := F32.zero;
                      point3D_Z := F32.of_Z 5;
                      point3D_Track := [10; track_id] |} ] |}.

(** Every path opens as the bundle [b], every bitmap is 640 by 480 and
    every sparse directory holds [rec]. *)
Definition example_env (b : Bundle) (rec : Reconstruction) : Env :=
  {| open_bundle := λ _, Some ("# Bundle file v0.3", bundle_tokens b);
     read_bitmap := λ _, Some (640, 480);
     read_reconstruction := λ _, Ok rec |}.

(** The model a call returns, or the empty model when it does not. *)
Definition loaded (o : outcome Model) : Model :=
  match o with
  | Ok m => m
  | _ => empty_Model
  end.

(** The name table is the inverse of the name list, which has no
    repetition and one entry per frame. *)
Definition names_ok (m : Model) : Prop :=
  length (image_names_ m) = length (images m)
  ∧ NoDup (image_names_ m)
  ∧ ∀ name id,
      image_name_to_id_ m !! name = Some id
      ↔ ∃ i, id = Z.of_nat i ∧ image_names_ m !! i = Some name.

(** The names of the images of the given ids in a reconstruction. *)
Definition names_of_ids (rec : Reconstruction) (ids : list Z) : list string :=
  omap (λ image_id, rimage_Name <$> rec_Images rec !! image_id) ids.

(** *** Bookkeeping for the rounding proofs *)

(** The binary32 number of sign [s], mantissa [q] at most 2^24 and
    exponent [e], as the rounding functions return it: a mantissa of
    2^24 is renormalised, an exponent above 104 overflows. *)
Definition pack (s : bool) (q e : Z) : float :=
  if q =? 0 then S754_zero s
  else if q =? 2 ^ 24 then
    (if e + 1 <=? 104 then S754_finite s (Z.to_pos (2 ^ 23)) (e + 1)
     else S754_infinity s)
  else if e <=? 104 then S754_finite s (Z.to_pos q) e
  else S754_infinity s.

(** The value m·2^e, scaled by 2^1000 to stay among the integers. *)
Definition sval (m e : Z) : Z := m * 2 ^ (e + 1000).

(** The scaled value of a number that is not negative: plus infinity is
    above every finite value; NaN and the negative numbers are -1. *)
Definition xval (x : float) : Z :=
  match x with
  | S754_zero _ => 0
  | S754_finite false m e => sval (Zpos m) e
  | S754_infinity false => 2 ^ 2000
  | _ => -1
  end.

(** A valid number that is not negative and not NaN. *)
Definition nonneg_float (x : float) : bool :=
  match x with
  | S754_zero _ => true
  | S754_finite false m e => bounded 24 128 m e
  | S754_infinity false => true
  | _ => false
  end.

(** *** Notions for the depth properties *)

(** Every number the model stores for poses and points is a binary32
    number (its mantissa and exponent are in canonical form). *)
Definition image_valid (image : Image) : Prop :=
  Forall (λ x, F32.valid x = true) (image_R image)
  ∧ Forall (λ x, F32.valid x = true) (image_T image).

Definition point_valid (point : Point) : Prop :=
  F32.valid (point_x point) = true
  ∧ F32.valid (point_y point) = true
  ∧ F32.valid (point_z point) = true.

Definition model_valid (m : Model) : Prop :=
  Forall image_valid (images m) ∧ Forall point_valid (points m).

Definition is_zero (x : float) : bool :=
  match x with
  | S754_zero _ => true
  | _ => false
  end.

(** A frame whose optical axis is the world z axis: the third row of its
    rotation is (0, 0, 1). *)
Definition looks_down_z (image : Image) : Prop :=
  is_zero (image_R image !!! 6%nat) = true
  ∧ is_zero (image_R image !!! 7%nat) = true
  ∧ image_R image !!! 8%nat = F32.one.

(** The coordinate [row] of a point in the camera frame, R·X + T, in
    exact rational arithmetic. *)
Definition camera_coordinate (image : Image) (point : Point) (row : nat) : Q :=
  (F32.to_Q (image_R image !!! (3 * row)%nat) * F32.to_Q (point_x point)
   + F32.to_Q (image_R image !!! (3 * row + 1)%nat) * F32.to_Q (point_y point)
   + F32.to_Q (image_R image !!! (3 * row + 2)%nat) * F32.to_Q (point_z point)
   + F32.to_Q (image_T image !!! row))%Q.

(** The point lies on the optical axis of the frame, ahead of it, at
    distance [d]. *)
Definition directly_ahead (image : Image) (point : Point) (d : Q) : Prop :=
  (camera_coordinate image point 0 == 0)%Q
  ∧ (camera_coordinate image point 1 == 0)%Q
  ∧ (camera_coordinate image point 2 == d)%Q
  ∧ (0 < d)%Q.

(** One frame looking down the z axis from the origin, and one point on
    the axis for every height of the list, each observed by the frame. *)
Definition axis_model (heights : list float) : Model :=
  {| images := [axis_frame];
     points := (λ z, axis_point z [0]) <$> heights;
     depth_maps := []; normal_maps := []; consistency_graph := [];
     image_names_ := []; image_name_to_id_ := ∅ |}.

(** The pair that stands for "no range". *)
Definition no_range : float * float := (F32.of_Z (-1), F32.of_Z (-1)).

(** The smallest positive numbers and plus infinity. *)
Definition tiny1 : float := S754_finite false 1 (-149).
Definition tiny2 : float := S754_finite false 2 (-149).
Definition plus_infinity : float := S754_infinity false.

(** A frame looking down the z axis from just behind the origin: its
    translation is (0, 0, 2^-30). *)
Definition offset_frame : Image :=
  {| image_path := image_path axis_frame; image_K := identity3;
     image_R := identity3;
     image_T := [F32.zero; F32.zero; S754_finite false 8388608 (-53)] |}.

(** The index the code computes for a list of [n] samples and the
    percentile [p], on integers. *)
Definition float_index (n : Z) (p : float) : Z :=
  F32.to_size_t (F32.mul (F32.of_Z n) p).

(** For a list of [n] samples the two computed indices are those of the
    exact integer divisions. *)
Definition indices_agree (n : Z) : bool :=
  (float_index n kMinPercentile =? n / 100)
  && (float_index n kMaxPercentile =? n * 99 / 100).

Definition agree_step (st : Z * bool) : Z * bool :=
  (st.1 + 1, st.2 && indices_agree st.1).

(** [indices_agree] for every size from 1 to [bound]. *)
Definition indices_agree_upto (bound : positive) : bool :=
  (Pos.iter agree_step (1, true) bound).2.

(** Samples that tell the computed upper index from the exact one:
    227107 at depth 1 followed by 2294 at depth 2, 229401 in all. *)
Definition staircase : list float :=
  replicate (Z.to_nat 227107) F32.one ++ replicate (Z.to_nat 2294) F32.two.

(** *** Notions for the behaviour on tracks that are not valid *)

(** Two entries of a track that the innermost loop of
    [ComputeSharedPoints] gets through: they are equal, so that no map
    is looked up, or both are frame indices. *)
Definition pair_ok (n : nat) (a b : Z) : Prop :=
  a = b ∨ (0 ≤ a < Z.of_nat n ∧ 0 ≤ b < Z.of_nat n).

(** Every pair of positions [j < i] of the track is such a pair. *)
Definition positions_ok (n : nat) (track : list Z) : Prop :=
  Forall (λ i, Forall (λ j, pair_ok n (track !!! i) (track !!! j)) (seq 0 i))
         (seq 0 (length track)).

(** A track all of whose entries are frame indices, or all of whose
    entries are the same number. *)
Definition track_tolerated (n : nat) (track : list Z) : Prop :=
  Forall (λ id, 0 ≤ id < Z.of_nat n) track ∨ ∃ a, Forall (λ id, id = a) track.

(** The number of points whose track holds both [a] and [b]. *)
Definition common_points (pts : list Point) (a b : Z) : Z :=
  Z.of_nat (length (filter (λ point, a ∈ point_track point ∧ b ∈ point_track point) pts)).

(** *** Notions for the loaded model *)

(** [i] is the first position of [x] in [l]. *)
Definition first_index {A : Type} (l : list A) (x : A) (i : nat) : Prop :=
  l !! i = Some x ∧ ∀ j, (j < i)%nat → l !! j ≠ Some x.

(** The name table maps a name to the first frame that bears it. *)
Definition names_first (m : Model) : Prop :=
  length (image_names_ m) = length (images m)
  ∧ ∀ name id,
      image_name_to_id_ m !! name = Some id
      ↔ ∃ i, id = Z.of_nat i ∧ first_index (image_names_ m) name i.

(** The image the canonical reader makes of the registered image of id
    [image_id]: its camera is a pinhole camera, and the path, the
    calibration and the pose are those of the reconstruction. *)
Definition registered_image (path : string) (rec : Reconstruction)
    (image_id : Z) (im : Image) : Prop :=
  ∃ image camera,
    rec_Images rec !! image_id = Some image
    ∧ rec_Cameras rec !! rimage_CameraId image = Some camera
    ∧ camera_ModelId camera = PinholeCameraModel_model_id
    ∧ im = {| image_path := JoinPaths (JoinPaths path "images") (rimage_Name image);
              image_K := camera_K camera;
              image_R := rimage_R image; image_T := rimage_T image |}.

(** The bundle [b] in a directory without any bitmap. *)
Definition example_env_no_bitmap (b : Bundle) : Env :=
  {| open_bundle := λ _, Some ("# Bundle file v0.3", bundle_tokens b);
     read_bitmap := λ _, None;
     read_reconstruction := λ _, Fatal |}.

(** A reconstruction whose second registered image has a camera of
    another model than the pinhole model. *)
Definition example_reconstruction_radial : Reconstruction :=
  {| RegImageIds := [10; 20];
     rec_Images :=
       {[ 10 := example_rec_image "a.jpg";
          20 := {| rimage_Name := "b.jpg"; rimage_CameraId := 2;
                   rimage_R := identity3;
                   rimage_T := [F32.zero; F32.zero; F32.zero] |} ]};
     rec_Cameras := {[ 1 := {| camera_ModelId := 1; camera_K := identity3 |};
                       2 := {| camera_ModelId := 2; camera_K := identity3 |} ]};
     Points3D := [] |}.

(** A directory that holds the example bundle, bitmaps of 640 by 480 and
    the example reconstruction, and the models the two readers make of
    it. *)
Definition example_dir : Env :=
  example_env (example_bundle F32.zero 1)
    (example_reconstruction "a.jpg" "b.jpg" 20).

Definition example_pmvs_model : Model :=
  loaded (ReadFromPMVS example_dir "root" empty_Model).

Definition example_colmap_model : Model :=
  loaded (ReadFromCOLMAP example_dir "root" empty_Model).

(** Two numbers that are the same but for the sign of a zero. *)
Definition same_but_zero_sign (x y : float) : Prop :=
  x = y ∨ (is_zero x = true ∧ is_zero y = true).

(** * Properties *)

(** ** Loops *)

Section for_each_facts.
Context {S A : Type}.
Implicit Types (body : A → S → outcome S) (l : list A) (s : S).

Lemma for_each_app body l1 l2 s :
  for_each body (l1 ++ l2) s = (s' ← for_each body l1 s; for_each body l2 s').
Proof.
  revert s. induction l1 as [|x l1 IH]; intros s; simpl; [done|].
  destruct (body x s); simpl; auto.
Qed.

Lemma for_each_ext body1 body2 l s :
  (∀ x s', x ∈ l → body1 x s' = body2 x s') →
  for_each body1 l s = for_each body2 l s.
Proof.
  revert s. induction l as [|x l IH]; intros s Hext; simpl; [done|].
  rewrite (Hext x s) by constructor.
  destruct (body2 x s); simpl; auto.
  apply IH. intros y s' Hy. apply Hext. by constructor.
Qed.

End for_each_facts.

Lemma for_each_seq_lookup {S A : Type} `{Inhabited A}
    (body : A → S → outcome S) (l1 l2 l3 : list A) (s : S) :
  for_each (λ j, body ((l1 ++ l2 ++ l3) !!! j)) (seq (length l1) (length l2)) s
  = for_each body l2 s.
Proof.
  revert l1 s. induction l2 as [|x l2 IH]; intros l1 s; simpl; [done|].
  rewrite lookup_total_app_r by lia.
  replace (length l1 - length l1)%nat with 0%nat by lia. simpl.
  destruct (body x s) as [s'| | |]; simpl; try done.
  specialize (IH (l1 ++ [x]) s').
  rewrite length_app in IH. simpl in IH.
  replace (length l1 + 1)%nat with (Datatypes.S (length l1)) in IH by lia.
  rewrite <- IH. apply for_each_ext. intros j s'' _.
  by rewrite <- app_assoc.
Qed.


Lemma for_each_take_lookup {S : Type} (body : Z → S → outcome S)
    (track : list Z) (i : nat) (s : S) :
  (i ≤ length track)%nat →
  for_each (λ j, body (track !!! j)) (seq 0 i) s = for_each body (take i track) s.
Proof.
  intros Hi.
  pose proof (for_each_seq_lookup body [] (take i track) (drop i track) s) as E.
  simpl in E. rewrite take_drop in E. rewrite length_take in E.
  by replace (i `min` length track)%nat with i in E by lia.
Qed.

(** ** [ComputeSharedPoints] *)

Lemma vector_at_Ok {A : Type} (v : list A) (i : Z) :
  0 ≤ i < Z.of_nat (length v) →
  ∃ a, v !! Z.to_nat i = Some a ∧ vector_at v i = Ok a.
Proof.
  intros Hi. unfold vector_at.
  destruct (Z.leb_spec 0 i); [|lia].
  destruct (lookup_lt_is_Some_2 v (Z.to_nat i)) as [a Ha]; [lia|].
  exists a. by rewrite Ha.
Qed.

Lemma shared_count_stored n sp a b :
  counts_ok n sp → shared_entry sp a b = stored (shared_count sp a b).
Proof.
  intros [_ Hpos]. unfold shared_count, shared_entry, stored.
  destruct (sp !! Z.to_nat a) as [counts|] eqn:Ea; simpl; [|done].
  destruct (counts !! b) as [v|] eqn:Eb; simpl; [|done].
  specialize (Hpos _ _ _ _ Ea Eb). case_decide; [lia|done].
Qed.

Lemma increment_spec n sp a b :
  counts_ok n sp → 0 ≤ a < Z.of_nat n →
  ∃ sp', increment_exact a b sp = Ok sp' ∧ counts_ok n sp'
    ∧ ∀ x y, 0 ≤ x →
        shared_count sp' x y
        = shared_count sp x y + (if decide (x = a ∧ y = b) then 1 else 0).
Proof.
  intros [Hlen Hpos] Ha. unfold increment_exact.
  destruct (vector_at_Ok sp a) as (counts & Hc & ->); [lia|]. simpl.
  eexists; split; [done|]. split; [split|].
  - by rewrite length_insert.
  - intros i counts' b' v Hi Hv.
    destruct (decide (i = Z.to_nat a)) as [->|Hne].
    + rewrite list_lookup_insert_eq in Hi by (apply lookup_lt_Some in Hc; lia).
      injection Hi as <-.
      destruct (decide (b' = b)) as [->|Hb].
      * rewrite lookup_insert_eq in Hv. injection Hv as <-.
        destruct (counts !! b) as [w|] eqn:Ew; simpl; [|lia].
        specialize (Hpos _ _ _ _ Hc Ew). lia.
      * rewrite lookup_insert_ne in Hv by done. eauto.
    + rewrite list_lookup_insert_ne in Hi by done. eauto.
  - intros x y Hx. unfold shared_count, shared_entry.
    destruct (decide (Z.to_nat x = Z.to_nat a)) as [E|Hne].
    + assert (x = a) as -> by lia.
      rewrite list_lookup_insert_eq by (apply lookup_lt_Some in Hc; lia).
      rewrite Hc. simpl.
      destruct (decide (y = b)) as [->|Hb].
      * rewrite lookup_insert_eq. simpl. rewrite decide_True by done. done.
      * rewrite lookup_insert_ne by done.
        rewrite decide_False by (intros [_ ?]; done). lia.
    + rewrite list_lookup_insert_ne by done.
      rewrite decide_False by (intros [-> _]; done). lia.
Qed.

Lemma share_pair_spec n sp id1 id2 :
  counts_ok n sp → 0 ≤ id1 < Z.of_nat n → 0 ≤ id2 < Z.of_nat n →
  ∃ sp', share_pair_exact id1 id2 sp = Ok sp' ∧ counts_ok n sp'
    ∧ ∀ x y, 0 ≤ x →
        shared_count sp' x y = shared_count sp x y + pair_delta id1 id2 x y.
Proof.
  intros Hok H1 H2. unfold share_pair_exact, pair_delta.
  destruct (decide (id1 ≠ id2)) as [Hne|Heq].
  - destruct (increment_spec n sp id1 id2 Hok H1) as (sp1 & -> & Hok1 & Hc1).
    destruct (increment_spec n sp1 id2 id1 Hok1 H2) as (sp2 & E2 & Hok2 & Hc2).
    exists sp2. simpl. split; [done|]. split; [done|].
    intros x y Hx. rewrite Hc2, Hc1 by done. lia.
  - exists sp. split; [done|]. split; [done|]. intros; lia.
Qed.

Lemma occurrences_nil a : occurrences a [] = 0.
Proof. done. Qed.

Lemma occurrences_cons a x t :
  occurrences a (x :: t) = (if decide (x = a) then 1 else 0) + occurrences a t.
Proof.
  unfold occurrences. rewrite filter_cons.
  destruct (decide (x = a)); simpl; lia.
Qed.

Lemma occurrences_snoc a t x :
  occurrences a (t ++ [x]) = occurrences a t + (if decide (x = a) then 1 else 0).
Proof.
  unfold occurrences. rewrite filter_app, length_app, filter_cons, filter_nil.
  destruct (decide (x = a)); simpl; lia.
Qed.

Lemma occurrences_nonneg a t : 0 ≤ occurrences a t.
Proof. unfold occurrences. lia. Qed.

Lemma occurrences_not_elem a t : a ∉ t → occurrences a t = 0.
Proof.
  induction t as [|x t IH]; intros Hn; [done|].
  rewrite occurrences_cons, IH by set_solver.
  rewrite decide_False by set_solver. done.
Qed.

Lemma occurrences_NoDup a t : NoDup t → a ∈ t → occurrences a t = 1.
Proof.
  induction 1 as [|x t Hx Hnd IH]; intros Ha; [set_solver|].
  rewrite occurrences_cons.
  destruct (decide (x = a)) as [->|Hne].
  - rewrite occurrences_not_elem by done. done.
  - rewrite IH by set_solver. done.
Qed.

(** The inner loop for the entry [image_id1]: the entries before it. *)
Lemma share_prefix_spec n id1 (prefix : list Z) sp :
  counts_ok n sp → 0 ≤ id1 < Z.of_nat n →
  Forall (λ id, 0 ≤ id < Z.of_nat n) prefix →
  ∃ sp', for_each (share_pair_exact id1) prefix sp = Ok sp' ∧ counts_ok n sp'
    ∧ ∀ x y, 0 ≤ x →
        shared_count sp' x y
        = shared_count sp x y
          + (if decide (x = y) then 0
             else (if decide (x = id1) then occurrences y prefix else 0)
                  + (if decide (y = id1) then occurrences x prefix else 0)).
Proof.
  intros Hok H1 Hall. revert sp Hok.
  induction Hall as [|id2 prefix H2 Hall IH]; intros sp Hok.
  - exists sp. split; [done|]. split; [done|]. intros x y _.
    rewrite !occurrences_nil. repeat case_decide; lia.
  - simpl.
    destruct (share_pair_spec n sp id1 id2 Hok H1 H2) as (sp1 & -> & Hok1 & Hc1).
    destruct (IH sp1 Hok1) as (sp2 & E2 & Hok2 & Hc2).
    exists sp2. simpl. split; [done|]. split; [done|].
    intros x y Hx. rewrite Hc2, Hc1 by done.
    rewrite !occurrences_cons. unfold pair_delta.
    repeat case_decide; subst; try lia; naive_solver.
Qed.

(** The two loops over one track. *)
Lemma share_track_spec n (track : list Z) sp :
  counts_ok n sp → Forall (λ id, 0 ≤ id < Z.of_nat n) track →
  ∃ sp', share_track_exact track sp = Ok sp' ∧ counts_ok n sp'
    ∧ ∀ x y, 0 ≤ x →
        shared_count sp' x y
        = shared_count sp x y
          + (if decide (x = y) then 0
             else occurrences x track * occurrences y track).
Proof.
  intros Hok Hall. unfold share_track_exact.
  assert (∀ k, (k ≤ length track)%nat →
    ∃ sp', for_each
             (λ i sp0, for_each (λ j sp1, share_pair_exact (track !!! i) (track !!! j) sp1)
                               (seq 0 i) sp0)
             (seq 0 k) sp = Ok sp' ∧ counts_ok n sp'
      ∧ ∀ x y, 0 ≤ x →
          shared_count sp' x y
          = shared_count sp x y
            + (if decide (x = y) then 0
               else occurrences x (take k track) * occurrences y (take k track)))
    as Hk.
  { induction k as [|k IH]; intros Hle.
    - exists sp. split; [done|]. split; [done|]. intros x y _.
      rewrite take_0, !occurrences_nil. case_decide; lia.
    - destruct IH as (sp1 & E1 & Hok1 & Hc1); [lia|].
      rewrite seq_S, for_each_app, E1. simpl.
      rewrite for_each_take_lookup by lia.
      destruct (lookup_lt_is_Some_2 track k) as [id1 Hid1]; [lia|].
      rewrite (list_lookup_total_correct _ _ _ Hid1).
      assert (0 ≤ id1 < Z.of_nat n) as H1.
      { rewrite Forall_lookup in Hall. eauto. }
      destruct (share_prefix_spec n id1 (take k track) sp1 Hok1 H1)
        as (sp2 & E2 & Hok2 & Hc2).
      { by apply Forall_take. }
      exists sp2. rewrite E2. split; [done|]. split; [done|].
      intros x y Hx. rewrite Hc2, Hc1 by done.
      rewrite (take_S_r _ _ _ Hid1), !occurrences_snoc.
      repeat case_decide; subst; try lia; try done. }
  destruct (Hk (length track)) as (sp' & E & Hok' & Hc); [lia|].
  rewrite firstn_all in Hc. eauto.
Qed.

(** The loop over the points. *)
Lemma share_points_spec n (pts : list Point) sp :
  counts_ok n sp →
  Forall (λ point, Forall (λ id, 0 ≤ id < Z.of_nat n) (point_track point)) pts →
  ∃ sp', for_each (λ point, share_track_exact (point_track point)) pts sp = Ok sp'
    ∧ counts_ok n sp'
    ∧ ∀ x y, 0 ≤ x →
        shared_count sp' x y
        = shared_count sp x y + (if decide (x = y) then 0 else pair_count pts x y).
Proof.
  intros Hok Hall. revert sp Hok.
  induction Hall as [|p pts Hp Hall IH]; intros sp Hok.
  - exists sp. split; [done|]. split; [done|]. intros. simpl. case_decide; lia.
  - simpl.
    destruct (share_track_spec n (point_track p) sp Hok Hp) as (sp1 & -> & Hok1 & Hc1).
    destruct (IH sp1 Hok1) as (sp2 & E2 & Hok2 & Hc2).
    exists sp2. simpl. split; [done|]. split; [done|].
    intros x y Hx. rewrite Hc2, Hc1 by done. case_decide; lia.
Qed.

Lemma counts_ok_empty n : counts_ok n (replicate n ∅).
Proof.
  split; [by rewrite length_replicate|].
  intros i counts b v Hi Hv. apply lookup_replicate in Hi as [-> _].
  by rewrite lookup_empty in Hv.
Qed.

Lemma shared_count_empty n a b : shared_count (replicate n ∅) a b = 0.
Proof.
  unfold shared_count, shared_entry.
  destruct (replicate n ∅ !! Z.to_nat a) as [c|] eqn:E; simpl; [|done].
  apply lookup_replicate in E as [-> _]. by rewrite lookup_empty.
Qed.

(** The table of the pass over unbounded counts, entry by entry. *)
Lemma shared_points_exact_spec (n : nat) (pts : list Point) :
  Forall (λ point, Forall (λ id, 0 ≤ id < Z.of_nat n) (point_track point)) pts →
  ∃ sp, shared_points_exact n pts = Ok sp
    ∧ counts_ok n sp
    ∧ ∀ a b, 0 ≤ a →
        shared_count sp a b = if decide (a = b) then 0 else pair_count pts a b.
Proof.
  intros Hv. unfold shared_points_exact.
  destruct (share_points_spec n pts (replicate n ∅) (counts_ok_empty _) Hv)
    as (sp & E & Hok & Hc).
  exists sp. split; [done|]. split; [done|].
  intros a b Ha. rewrite Hc, shared_count_empty by done. case_decide; lia.
Qed.

(** *** The counts are [int] *)

Lemma int_wrap_small (z : Z) : int_min ≤ z ≤ int_max → int_wrap z = z.
Proof.
  unfold int_min, int_max, int_wrap. intros H. rewrite Z.mod_small; lia.
Qed.

Lemma int_wrap_add_l (x y : Z) : int_wrap (int_wrap x + y) = int_wrap (x + y).
Proof.
  unfold int_wrap.
  replace ((x + 2 ^ 31) mod 2 ^ 32 - 2 ^ 31 + y + 2 ^ 31)
    with ((x + 2 ^ 31) mod 2 ^ 32 + y) by lia.
  rewrite Zplus_mod_idemp_l. do 2 f_equal. lia.
Qed.

Lemma for_each_map {S S' A : Type} (f : S → S') (body : A → S → outcome S)
    (body' : A → S' → outcome S') (l : list A) (s : S) :
  (∀ x s, x ∈ l → body' x (f s) = (s' ← body x s; Ok (f s'))) →
  for_each body' l (f s) = (s' ← for_each body l s; Ok (f s')).
Proof.
  revert s. induction l as [|x l IH]; intros s Hbody; [done|].
  cbn [for_each]. rewrite Hbody by (by left).
  destruct (body x s) as [s1| | |]; try done. cbn. apply IH.
  intros y s' Hy. apply Hbody. by right.
Qed.

Lemma increment_wrap (a b : Z) (sp : list (gmap Z Z)) :
  increment a b (wrap_table sp)
  = (sp' ← increment_exact a b sp; Ok (wrap_table sp')).
Proof.
  unfold increment, increment_exact, vector_at, wrap_table.
  destruct (0 <=? a); [|done]. rewrite list_lookup_fmap.
  destruct (sp !! Z.to_nat a) as [counts|]; [|done]. cbn.
  rewrite list_fmap_insert, fmap_insert, lookup_fmap. do 3 f_equal.
  destruct (counts !! b) as [v|]; [|done]. cbn. apply int_wrap_add_l.
Qed.

Lemma share_pair_wrap (a b : Z) (sp : list (gmap Z Z)) :
  share_pair a b (wrap_table sp)
  = (sp' ← share_pair_exact a b sp; Ok (wrap_table sp')).
Proof.
  unfold share_pair, share_pair_exact. case_decide; [|done].
  rewrite increment_wrap. destruct (increment_exact a b sp) as [sp1| | |]; try done.
  cbn. apply increment_wrap.
Qed.

Lemma share_track_wrap (track : list Z) (sp : list (gmap Z Z)) :
  share_track track (wrap_table sp)
  = (sp' ← share_track_exact track sp; Ok (wrap_table sp')).
Proof.
  unfold share_track, share_track_exact. apply for_each_map.
  intros i sp1 _. apply for_each_map. intros j sp2 _. apply share_pair_wrap.
Qed.

Lemma ComputeSharedPoints_wrap (m : Model) :
  ComputeSharedPoints m
  = (sp ← shared_points_exact (length (images m)) (points m); Ok (wrap_table sp)).
Proof.
  unfold ComputeSharedPoints, shared_points_exact.
  rewrite <- (for_each_map wrap_table
                (λ point, share_track_exact (point_track point))
                (λ point, share_track (point_track point))).
  - unfold wrap_table. by rewrite fmap_replicate, fmap_empty.
  - intros point sp _. apply share_track_wrap.
Qed.

Lemma shared_entry_wrap (sp : list (gmap Z Z)) (a b : Z) :
  shared_entry (wrap_table sp) a b = int_wrap <$> shared_entry sp a b.
Proof.
  unfold shared_entry, wrap_table. rewrite list_lookup_fmap.
  destruct (sp !! Z.to_nat a) as [counts|]; [|done]. cbn. apply lookup_fmap.
Qed.

Lemma length_wrap_table (sp : list (gmap Z Z)) : length (wrap_table sp) = length sp.
Proof. unfold wrap_table. apply length_fmap. Qed.

(** A table whose counts are in the range of [int] is held as it is. *)
Lemma wrap_table_fit (n : nat) (sp : list (gmap Z Z)) :
  counts_ok n sp →
  (∀ a b, 0 ≤ a → shared_count sp a b ≤ int_max) →
  wrap_table sp = sp.
Proof.
  intros Hok Hfit. unfold wrap_table. apply list_eq. intros i.
  rewrite list_lookup_fmap. destruct (sp !! i) as [counts|] eqn:Ei; [|done].
  cbn. f_equal. apply map_eq. intros b. rewrite lookup_fmap.
  destruct (counts !! b) as [v|] eqn:Eb; [|done]. cbn. f_equal.
  destruct Hok as [_ Hpos]. pose proof (Hpos _ _ _ _ Ei Eb) as Hv.
  specialize (Hfit (Z.of_nat i) b ltac:(lia)).
  unfold shared_count, shared_entry in Hfit. rewrite Nat2Z.id, Ei in Hfit.
  cbn in Hfit. rewrite Eb in Hfit. cbn in Hfit.
  apply int_wrap_small. unfold int_min. lia.
Qed.

(** The table [ComputeSharedPoints] returns is the table of the
    unbounded counts, held in [int]. *)
Lemma ComputeSharedPoints_spec m :
  valid_tracks m →
  ∃ sp, ComputeSharedPoints m = Ok (wrap_table sp)
    ∧ counts_ok (length (images m)) sp
    ∧ ∀ a b, 0 ≤ a →
        shared_count sp a b
        = if decide (a = b) then 0 else pair_count (points m) a b.
Proof.
  intros Hv. rewrite ComputeSharedPoints_wrap.
  destruct (shared_points_exact_spec (length (images m)) (points m) Hv)
    as (sp & -> & Hok & Hc).
  by exists sp.
Qed.

(** Without signed overflow it is that table itself. *)
Lemma ComputeSharedPoints_fit_spec m :
  valid_tracks m → counts_fit_int m →
  ∃ sp, ComputeSharedPoints m = Ok sp
    ∧ counts_ok (length (images m)) sp
    ∧ ∀ a b, 0 ≤ a →
        shared_count sp a b
        = if decide (a = b) then 0 else pair_count (points m) a b.
Proof.
  intros Hv Hfit. destruct (ComputeSharedPoints_spec m Hv) as (sp & E & Hok & Hc).
  exists sp. split; [|done]. rewrite E. f_equal.
  apply (wrap_table_fit _ _ Hok). intros a b Ha. rewrite Hc by done.
  case_decide; [unfold int_max; lia|by apply Hfit].
Qed.

Lemma filter_ext_elem {A : Type} (P1 P2 : A → Prop)
    `{!∀ x, Decision (P1 x), !∀ x, Decision (P2 x)} (l : list A) :
  (∀ x, x ∈ l → P1 x ↔ P2 x) → filter P1 l = filter P2 l.
Proof.
  induction l as [|x l IH]; intros Hext; [done|].
  rewrite !filter_cons.
  rewrite IH by (intros y Hy; apply Hext; by constructor).
  destruct (decide (P1 x)) as [H1|H1], (decide (P2 x)) as [H2|H2];
    try done; exfalso; apply (Hext x) in H1 || apply (Hext x) in H2;
    done || by constructor.
Qed.

Lemma position_pairs_row (a b x : Z) (t : list Z) (n : nat) :
  a ≠ b → (n ≤ length t)%nat →
  Z.of_nat (length (filter
    (λ ij : nat * nat,
       ((t ++ [x]) !! ij.1 = Some a ∧ (t ++ [x]) !! ij.2 = Some b)
       ∨ ((t ++ [x]) !! ij.1 = Some b ∧ (t ++ [x]) !! ij.2 = Some a))
    (j ← seq 0 n; [(length t, j)])))
  = (if decide (x = a) then occurrences b (take n t) else 0)
    + (if decide (x = b) then occurrences a (take n t) else 0).
Proof.
  intros Hab. induction n as [|n IH]; intros Hn.
  - simpl. rewrite !occurrences_nil. repeat case_decide; lia.
  - destruct (lookup_lt_is_Some_2 t n) as [y Hy]; [lia|].
    rewrite seq_S, bind_app, filter_app, length_app, Nat2Z.inj_add, IH by lia.
    rewrite (take_S_r _ _ _ Hy), !occurrences_snoc. simpl.
    rewrite filter_cons, filter_nil. simpl.
    rewrite lookup_app_r, Nat.sub_diag by lia. simpl.
    rewrite lookup_app_l by lia. rewrite Hy.
    repeat case_decide; simpl; subst; try lia; naive_solver.
Qed.

Lemma position_pairs_occurrences (a b : Z) (t : list Z) :
  a ≠ b → position_pairs a b t = occurrences a t * occurrences b t.
Proof.
  intros Hab. unfold position_pairs.
  induction t as [|x t IH] using rev_ind; [done|].
  rewrite length_app. simpl. rewrite Nat.add_1_r, seq_S, bind_app.
  rewrite filter_app, length_app, Nat2Z.inj_add. simpl.
  rewrite app_nil_r.
  rewrite position_pairs_row, firstn_all by (done || lia).
  rewrite !occurrences_snoc.
  assert (filter
    (λ ij : nat * nat,
       ((t ++ [x]) !! ij.1 = Some a ∧ (t ++ [x]) !! ij.2 = Some b)
       ∨ ((t ++ [x]) !! ij.1 = Some b ∧ (t ++ [x]) !! ij.2 = Some a))
    (i ← seq 0 (length t); j ← seq 0 i; [(i, j)])
    = filter
    (λ ij : nat * nat,
       (t !! ij.1 = Some a ∧ t !! ij.2 = Some b)
       ∨ (t !! ij.1 = Some b ∧ t !! ij.2 = Some a))
    (i ← seq 0 (length t); j ← seq 0 i; [(i, j)])) as ->.
  { apply filter_ext_elem. intros [i j] Hin. simpl.
    apply list_elem_of_bind in Hin as (i' & Hin & Hi').
    apply list_elem_of_bind in Hin as (j' & Hin & Hj').
    apply list_elem_of_singleton in Hin. injection Hin as -> ->.
    apply elem_of_seq in Hi', Hj'.
    rewrite !lookup_app_l by lia. done. }
  rewrite IH. repeat case_decide; subst; try lia; done.
Qed.

Lemma valid_tracks_add_point p m :
  valid_tracks (add_point p m) →
  valid_tracks m
  ∧ Forall (λ id, 0 ≤ id < Z.of_nat (length (images m))) (point_track p).
Proof.
  unfold valid_tracks. simpl. rewrite Forall_app, Forall_singleton. done.
Qed.

Lemma pair_count_snoc pts p a b :
  pair_count (pts ++ [p]) a b
  = pair_count pts a b
    + occurrences a (point_track p) * occurrences b (point_track p).
Proof.
  unfold pair_count. induction pts as [|q pts IH]; simpl; [lia|].
  rewrite IH. lia.
Qed.

Lemma counts_fit_int_add_point (p : Point) (m : Model) :
  counts_fit_int (add_point p m) → counts_fit_int m.
Proof.
  intros Hfit a b Hab. specialize (Hfit a b Hab). simpl in Hfit.
  rewrite pair_count_snoc in Hfit.
  pose proof (occurrences_nonneg a (point_track p)).
  pose proof (occurrences_nonneg b (point_track p)). nia.
Qed.

Lemma occurrences_le_length (a : Z) (t : list Z) :
  occurrences a t ≤ Z.of_nat (length t).
Proof. unfold occurrences. pose proof (length_filter (λ x, x = a) t). lia. Qed.

(** No count exceeds the sum of the squared track lengths. *)
Lemma counts_fit_int_tracks (m : Model) :
  foldr (λ point acc,
           Z.of_nat (length (point_track point))
           * Z.of_nat (length (point_track point)) + acc) 0 (points m)
  ≤ int_max →
  counts_fit_int m.
Proof.
  intros Hle a b _. etransitivity; [|exact Hle]. clear Hle.
  induction (points m) as [|p pts IH]; [done|]. simpl.
  fold (pair_count pts a b).
  pose proof (occurrences_nonneg a (point_track p)).
  pose proof (occurrences_nonneg b (point_track p)).
  pose proof (occurrences_le_length a (point_track p)).
  pose proof (occurrences_le_length b (point_track p)). nia.
Qed.

(** C2: for every point's track, the pass adds one to
    [shared_points[a][b]] and to [shared_points[b][a]] for every pair of
    positions of the track that hold distinct frames [a] and [b] (one
    per unordered pair of frames when the track has no repetition),
    and never touches a self-entry; one point observed by frames
    {0, 1, 2} gives the six entries the value 1 and nothing else.  The
    counts are [int]: the sums are stated for a model none of whose
    counts exceeds [INT_MAX]. *)
Theorem ComputeSharedPoints_pairs (m : Model) (p : Point) :
  valid_tracks (add_point p m) →
  ∃ sp sp',
    ComputeSharedPoints m = Ok sp
    ∧ ComputeSharedPoints (add_point p m) = Ok sp'
    ∧ length sp' = length (images m)
    ∧ (counts_fit_int (add_point p m) →
       ∀ a b, 0 ≤ a → 0 ≤ b → a ≠ b →
         shared_count sp' a b
         = shared_count sp a b + position_pairs a b (point_track p)
         ∧ shared_count sp' b a
           = shared_count sp b a + position_pairs a b (point_track p))
    ∧ (NoDup (point_track p) →
       ∀ a b, a ≠ b →
         position_pairs a b (point_track p)
         = if decide (a ∈ point_track p ∧ b ∈ point_track p) then 1 else 0)
    ∧ (∀ a, 0 ≤ a → shared_entry sp' a a = None)
    ∧ (points m = [] → length (images m) = 3%nat →
       point_track p ≡ₚ [0; 1; 2] →
       ∀ a b, 0 ≤ a < 3 →
         shared_entry sp' a b
         = if decide (a ≠ b ∧ 0 ≤ b < 3) then Some 1 else None).
Proof.
  intros Hv. pose proof Hv as Hv'.
  apply valid_tracks_add_point in Hv' as [Hm Hp].
  destruct (ComputeSharedPoints_spec m Hm) as (sp & E & Hok & Hc).
  destruct (ComputeSharedPoints_spec _ Hv) as (sp' & E' & Hok' & Hc').
  simpl in Hok', Hc'.
  exists (wrap_table sp), (wrap_table sp'). split; [done|]. split; [done|].
  split; [rewrite length_wrap_table; by destruct Hok'|].
  assert (Hnd : NoDup (point_track p) → ∀ a b, a ≠ b →
            position_pairs a b (point_track p)
            = if decide (a ∈ point_track p ∧ b ∈ point_track p) then 1 else 0).
  { intros Hnd a b Hab. rewrite position_pairs_occurrences by done.
    case_decide as Hin.
    - destruct Hin. rewrite !occurrences_NoDup by done. done.
    - apply not_and_l in Hin as [Hin|Hin];
        rewrite (occurrences_not_elem _ _ Hin); lia. }
  split; [|split; [done|split]].
  - intros Hfit a b Ha Hb Hab.
    rewrite (wrap_table_fit _ sp' Hok'), (wrap_table_fit _ sp Hok).
    + rewrite !Hc', !Hc by done.
      rewrite !decide_False by done.
      rewrite !pair_count_snoc, position_pairs_occurrences by done. lia.
    + intros x y Hx. rewrite Hc by done.
      case_decide; [done|]. by apply (counts_fit_int_add_point p m Hfit).
    + intros x y Hx. rewrite Hc' by done. case_decide; [done|]. by apply Hfit.
  - intros a Ha. rewrite shared_entry_wrap.
    rewrite (shared_count_stored _ _ _ _ Hok'), Hc' by done.
    rewrite decide_True by done. done.
  - intros Hpts Hlen Hperm a b Ha. rewrite shared_entry_wrap.
    assert (shared_entry sp' a b
            = if decide (a ≠ b ∧ 0 ≤ b < 3) then Some 1 else None) as ->;
      [|by case_decide].
    rewrite (shared_count_stored _ _ _ _ Hok'), Hc' by lia.
    rewrite Hpts. simpl.
    assert (NoDup (point_track p)) as Hnd'.
    { rewrite Hperm. repeat constructor; set_solver. }
    destruct (decide (a = b)) as [->|Hab].
    { rewrite decide_False by naive_solver. done. }
    rewrite Z.add_0_r, <- position_pairs_occurrences, Hnd by done.
    assert (a ∈ point_track p) by (rewrite Hperm; set_solver by lia).
    destruct (decide (0 ≤ b < 3)) as [Hb|Hb].
    + rewrite decide_True; [|split; [done|rewrite Hperm; set_solver by lia]].
      rewrite decide_True by done. done.
    + rewrite decide_False.
      2:{ intros [_ Hin]. rewrite Hperm in Hin. set_solver by lia. }
      rewrite decide_False by naive_solver. done.
Qed.

Lemma ComputeSharedPoints_pairs_witness :
  valid_tracks (add_point (axis_point F32.one [0; 1; 2]) (frames_only 3))
  ∧ counts_fit_int (add_point (axis_point F32.one [0; 1; 2]) (frames_only 3))
  ∧ ∃ sp sp',
    ComputeSharedPoints (frames_only 3) = Ok sp
    ∧ ComputeSharedPoints (add_point (axis_point F32.one [0; 1; 2]) (frames_only 3))
      = Ok sp'
    ∧ length sp' = 3%nat
    ∧ (counts_fit_int (add_point (axis_point F32.one [0; 1; 2]) (frames_only 3)) →
       ∀ a b, 0 ≤ a → 0 ≤ b → a ≠ b →
         shared_count sp' a b = shared_count sp a b + position_pairs a b [0; 1; 2]
         ∧ shared_count sp' b a
           = shared_count sp b a + position_pairs a b [0; 1; 2])
    ∧ (NoDup [0; 1; 2] →
       ∀ a b, a ≠ b →
         position_pairs a b [0; 1; 2]
         = if decide (a ∈ [0; 1; 2] ∧ b ∈ [0; 1; 2]) then 1 else 0)
    ∧ (∀ a, 0 ≤ a → shared_entry sp' a a = None)
    ∧ (@nil Point = [] → 3%nat = 3%nat → [0; 1; 2] ≡ₚ [0; 1; 2] →
       ∀ a b, 0 ≤ a < 3 →
         shared_entry sp' a b
         = if decide (a ≠ b ∧ 0 ≤ b < 3) then Some 1 else None).
Proof.
  assert (H : valid_tracks (add_point (axis_point F32.one [0; 1; 2]) (frames_only 3))).
  { unfold valid_tracks. simpl. repeat constructor; lia. }
  split; [exact H|]. split.
  - apply counts_fit_int_tracks. vm_compute. discriminate.
  - exact (ComputeSharedPoints_pairs (frames_only 3) (axis_point F32.one [0; 1; 2]) H).
Defined.

Lemma shared_count_nonneg n sp a b : counts_ok n sp → 0 ≤ shared_count sp a b.
Proof.
  intros [_ Hpos]. unfold shared_count, shared_entry.
  destruct (sp !! Z.to_nat a) as [counts|] eqn:Ea; simpl; [|done].
  destruct (counts !! b) as [v|] eqn:Eb; simpl; [|done].
  specialize (Hpos _ _ _ _ Ea Eb). lia.
Qed.

(** C10: the pass counts pairs of track positions, so a frame that is
    repeated in a track is counted once per occurrence: a point with
    track [a, a, b] (a ≠ b) adds 2 to [shared_points[a][b]] and to
    [shared_points[b][a]]; the repeated entries make no self-entry.  The
    counts are [int]: the sums are stated for a model none of whose
    counts exceeds [INT_MAX]. *)
Theorem ComputeSharedPoints_repeated_frame (m : Model) (p : Point) :
  valid_tracks (add_point p m) →
  ∃ sp sp',
    ComputeSharedPoints m = Ok sp
    ∧ ComputeSharedPoints (add_point p m) = Ok sp'
    ∧ (counts_fit_int (add_point p m) →
       ∀ x y, 0 ≤ x → 0 ≤ y → x ≠ y →
         shared_count sp' x y
         = shared_count sp x y + position_pairs x y (point_track p))
    ∧ (∀ x, 0 ≤ x → shared_entry sp' x x = None)
    ∧ (counts_fit_int (add_point p m) →
       ∀ a b, point_track p = [a; a; b] → a ≠ b →
         position_pairs a b [a; a; b] = 2
         ∧ shared_entry sp' a b = Some (shared_count sp a b + 2)
         ∧ shared_entry sp' b a = Some (shared_count sp b a + 2)
         ∧ shared_entry sp' a a = None
         ∧ shared_entry sp' b b = None).
Proof.
  intros Hv. pose proof Hv as Hv'.
  apply valid_tracks_add_point in Hv' as [Hm Hp].
  destruct (ComputeSharedPoints_spec m Hm) as (sp & E & Hok & Hc).
  destruct (ComputeSharedPoints_spec _ Hv) as (sp' & E' & Hok' & Hc').
  simpl in Hok', Hc'.
  exists (wrap_table sp), (wrap_table sp'). split; [done|]. split; [done|].
  assert (Hself : ∀ x, 0 ≤ x → shared_entry (wrap_table sp') x x = None).
  { intros x Hx. rewrite shared_entry_wrap.
    rewrite (shared_count_stored _ _ _ _ Hok'), Hc' by done.
    rewrite decide_True by done. done. }
  assert (Hid : counts_fit_int (add_point p m) →
                wrap_table sp = sp ∧ wrap_table sp' = sp').
  { intros Hfit. split.
    - apply (wrap_table_fit _ sp Hok). intros x y Hx. rewrite Hc by done.
      case_decide; [done|]. by apply (counts_fit_int_add_point p m Hfit).
    - apply (wrap_table_fit _ sp' Hok'). intros x y Hx. rewrite Hc' by done.
      case_decide; [done|]. by apply Hfit. }
  assert (Hdelta : ∀ x y, 0 ≤ x → 0 ≤ y → x ≠ y →
            shared_count sp' x y
            = shared_count sp x y + position_pairs x y (point_track p)).
  { intros x y Hx Hy Hxy. rewrite Hc', Hc by done.
    rewrite !decide_False by done.
    rewrite pair_count_snoc, position_pairs_occurrences by done. lia. }
  split; [|split; [done|]].
  { intros Hfit. destruct (Hid Hfit) as [-> ->]. exact Hdelta. }
  intros Hfit a b Ht Hab. pose proof (Hid Hfit) as [Hid1 Hid2].
  rewrite Hid1, Hid2 in *. clear Hid Hid1 Hid2.
  rewrite Ht in Hp, Hdelta.
  apply Forall_cons in Hp as [Ha Hp]. apply Forall_cons in Hp as [_ Hp].
  apply Forall_cons in Hp as [Hb _].
  assert (position_pairs a b [a; a; b] = 2) as Hpp.
  { rewrite position_pairs_occurrences by done.
    rewrite !occurrences_cons, !occurrences_nil.
    repeat case_decide; try lia; done. }
  assert (position_pairs b a [a; a; b] = 2) as Hpp'.
  { rewrite position_pairs_occurrences by done.
    rewrite !occurrences_cons, !occurrences_nil.
    repeat case_decide; try lia; done. }
  pose proof (shared_count_nonneg _ _ a b Hok).
  pose proof (shared_count_nonneg _ _ b a Hok).
  split; [done|].
  rewrite !(shared_count_stored _ _ _ _ Hok').
  rewrite (Hdelta a b), (Hdelta b a), Hpp, Hpp' by (lia || done).
  rewrite <- !(shared_count_stored _ _ _ _ Hok').
  unfold stored. rewrite !decide_False by lia.
  repeat split; try done; apply Hself; lia.
Qed.

Lemma ComputeSharedPoints_repeated_frame_witness :
  valid_tracks (add_point (axis_point F32.one [0; 0; 1]) (frames_only 2))
  ∧ counts_fit_int (add_point (axis_point F32.one [0; 0; 1]) (frames_only 2))
  ∧ ∃ sp sp',
    ComputeSharedPoints (frames_only 2) = Ok sp
    ∧ ComputeSharedPoints (add_point (axis_point F32.one [0; 0; 1]) (frames_only 2))
      = Ok sp'
    ∧ (counts_fit_int (add_point (axis_point F32.one [0; 0; 1]) (frames_only 2)) →
       ∀ x y, 0 ≤ x → 0 ≤ y → x ≠ y →
         shared_count sp' x y
         = shared_count sp x y + position_pairs x y [0; 0; 1])
    ∧ (∀ x, 0 ≤ x → shared_entry sp' x x = None)
    ∧ (counts_fit_int (add_point (axis_point F32.one [0; 0; 1]) (frames_only 2)) →
       ∀ a b, [0; 0; 1] = [a; a; b] → a ≠ b →
         position_pairs a b [a; a; b] = 2
         ∧ shared_entry sp' a b = Some (shared_count sp a b + 2)
         ∧ shared_entry sp' b a = Some (shared_count sp b a + 2)
         ∧ shared_entry sp' a a = None
         ∧ shared_entry sp' b b = None).
Proof.
  assert (H : valid_tracks (add_point (axis_point F32.one [0; 0; 1]) (frames_only 2))).
  { unfold valid_tracks. simpl. repeat constructor; lia. }
  split; [exact H|]. split.
  - apply counts_fit_int_tracks. vm_compute. discriminate.
  - exact (ComputeSharedPoints_repeated_frame
             (frames_only 2) (axis_point F32.one [0; 0; 1]) H).
Defined.

(** ** [ComputeDepthRanges]: the first pass *)

Lemma fmap_app_nil {A : Type} (o : option (list A)) : (λ ds, ds ++ []) <$> o = o.
Proof. destruct o; simpl; [by rewrite app_nil_r|done]. Qed.

Lemma fmap_app_app {A : Type} (o : option (list A)) (l1 l2 : list A) :
  (λ ds, ds ++ l2) <$> ((λ ds, ds ++ l1) <$> o) = (λ ds, ds ++ (l1 ++ l2)) <$> o.
Proof. destruct o; simpl; [by rewrite app_assoc|done]. Qed.

Lemma add_depth_spec imgs point image_id depths :
  length depths = length imgs →
  0 ≤ image_id < Z.of_nat (length imgs) →
  ∃ depths', add_depth imgs point image_id depths = Ok depths'
    ∧ length depths' = length imgs
    ∧ ∀ f, depths' !! f
           = (λ ds, ds ++ entry_depths imgs f point image_id) <$> depths !! f.
Proof.
  intros Hlen Hid. unfold add_depth.
  destruct (vector_at_Ok imgs image_id Hid) as (image & Him & ->). simpl.
  assert (∀ f, f ≠ Z.to_nat image_id → entry_depths imgs f point image_id = [])
    as Hother.
  { intros f Hf. unfold entry_depths. rewrite decide_False by lia. done. }
  assert (entry_depths imgs (Z.to_nat image_id) point image_id
          = if F32.ltb F32.zero (depth_of image point)
            then [depth_of image point] else []) as Hsame.
  { unfold entry_depths. rewrite decide_True by lia. by rewrite Him. }
  destruct (F32.ltb F32.zero (depth_of image point)).
  - eexists. split; [done|]. split; [by rewrite length_alter|].
    intros f. destruct (decide (f = Z.to_nat image_id)) as [->|Hf].
    + by rewrite list_lookup_alter_eq, Hsame.
    + rewrite list_lookup_alter_ne by done.
      by rewrite Hother, fmap_app_nil.
  - exists depths. split; [done|]. split; [done|].
    intros f. destruct (decide (f = Z.to_nat image_id)) as [->|Hf].
    + by rewrite Hsame, fmap_app_nil.
    + by rewrite Hother, fmap_app_nil.
Qed.

Lemma add_depths_track_spec imgs point (track : list Z) depths :
  length depths = length imgs →
  Forall (λ id, 0 ≤ id < Z.of_nat (length imgs)) track →
  ∃ depths', for_each (add_depth imgs point) track depths = Ok depths'
    ∧ length depths' = length imgs
    ∧ ∀ f, depths' !! f
           = (λ ds, ds ++ (track ≫= entry_depths imgs f point)) <$> depths !! f.
Proof.
  intros Hlen Hall. revert depths Hlen.
  induction Hall as [|id track Hid Hall IH]; intros depths Hlen.
  - exists depths. split; [done|]. split; [done|].
    intros f. simpl. by rewrite fmap_app_nil.
  - simpl.
    destruct (add_depth_spec imgs point id depths Hlen Hid) as (d1 & -> & Hl1 & Hd1).
    destruct (IH d1 Hl1) as (d2 & E2 & Hl2 & Hd2).
    exists d2. simpl. split; [done|]. split; [done|].
    intros f. by rewrite Hd2, Hd1, fmap_app_app.
Qed.

Lemma add_depths_points_spec imgs (pts : list Point) depths :
  length depths = length imgs →
  Forall (λ point, Forall (λ id, 0 ≤ id < Z.of_nat (length imgs))
                          (point_track point)) pts →
  ∃ depths',
    for_each (λ point ds, for_each (add_depth imgs point) (point_track point) ds)
      pts depths = Ok depths'
    ∧ length depths' = length imgs
    ∧ ∀ f, depths' !! f
           = (λ ds, ds ++ (pts ≫= λ point,
                            point_track point ≫= entry_depths imgs f point))
             <$> depths !! f.
Proof.
  intros Hlen Hall. revert depths Hlen.
  induction Hall as [|p pts Hp Hall IH]; intros depths Hlen.
  - exists depths. split; [done|]. split; [done|].
    intros f. simpl. by rewrite fmap_app_nil.
  - simpl.
    destruct (add_depths_track_spec imgs p _ depths Hlen Hp) as (d1 & -> & Hl1 & Hd1).
    destruct (IH d1 Hl1) as (d2 & E2 & Hl2 & Hd2).
    exists d2. simpl. split; [done|]. split; [done|].
    intros f. by rewrite Hd2, Hd1, fmap_app_app.
Qed.

(** The first pass leaves in [depths[f]] the sample list of frame [f]. *)
Lemma collect_depths_spec m :
  valid_tracks m →
  ∃ depths, collect_depths m = Ok depths
    ∧ length depths = length (images m)
    ∧ ∀ f, (f < length (images m))%nat → depths !! f = Some (frame_depths m f).
Proof.
  intros Hv. unfold collect_depths.
  destruct (add_depths_points_spec (images m) (points m)
              (replicate (length (images m)) [])) as (depths & E & Hl & Hd).
  { by rewrite length_replicate. }
  { exact Hv. }
  exists depths. split; [done|]. split; [done|].
  intros f Hf. rewrite Hd, lookup_replicate_2 by done. done.
Qed.

(** Both passes. *)
Lemma ComputeDepthRanges_spec m :
  valid_tracks m →
  ∃ ranges, ComputeDepthRanges m = Ok ranges
    ∧ length ranges = length (images m)
    ∧ ∀ f, (f < length (images m))%nat →
        ranges !! f = Some (depth_range_of (frame_depths m f)).
Proof.
  intros Hv. unfold ComputeDepthRanges.
  destruct (collect_depths_spec m Hv) as (depths & -> & Hl & Hd). simpl.
  eexists. split; [done|]. split; [by rewrite length_map|].
  intros f Hf. rewrite list_lookup_fmap, Hd by done. done.
Qed.

(** C8: a frame without a positive depth gets the pair (-1, -1), and the
    result holds one pair per frame, the pair of frame [f] at index [f]. *)
Theorem ComputeDepthRanges_sentinel (m : Model) :
  valid_tracks m →
  ∃ ranges, ComputeDepthRanges m = Ok ranges
    ∧ length ranges = length (images m)
    ∧ ∀ f, (f < length (images m))%nat →
        ranges !! f = Some (depth_range_of (frame_depths m f))
        ∧ (frame_depths m f = [] →
           ranges !! f = Some (F32.of_Z (-1), F32.of_Z (-1))).
Proof.
  intros Hv.
  destruct (ComputeDepthRanges_spec m Hv) as (ranges & E & Hl & Hr).
  exists ranges. split; [done|]. split; [done|].
  intros f Hf. split; [by apply Hr|].
  intros Hnil. rewrite Hr, Hnil by done. done.
Qed.

Lemma ComputeDepthRanges_sentinel_witness :
  valid_tracks (add_point (axis_point (F32.of_Z (-3)) [0; 1]) (frames_only 3))
  ∧ ∃ ranges,
      ComputeDepthRanges (add_point (axis_point (F32.of_Z (-3)) [0; 1]) (frames_only 3))
      = Ok ranges
      ∧ length ranges = 3%nat
      ∧ ∀ f, (f < 3)%nat →
          ranges !! f
          = Some (depth_range_of
                    (frame_depths
                       (add_point (axis_point (F32.of_Z (-3)) [0; 1]) (frames_only 3)) f))
          ∧ (frame_depths
               (add_point (axis_point (F32.of_Z (-3)) [0; 1]) (frames_only 3)) f = [] →
             ranges !! f = Some (F32.of_Z (-1), F32.of_Z (-1))).
Proof.
  assert (H : valid_tracks
                (add_point (axis_point (F32.of_Z (-3)) [0; 1]) (frames_only 3))).
  { unfold valid_tracks. simpl. repeat constructor; lia. }
  split; [exact H|].
  exact (ComputeDepthRanges_sentinel _ H).
Defined.

(** ** The legacy reader on a file that follows the grammar *)

Lemma negate_range_rows (R : list float) :
  length R = 9%nat → negate_range 3 9 R = negate_rows [1; 2]%nat R.
Proof.
  intros H. do 10 (destruct R as [|? R]; try discriminate H).
  reflexivity.
Qed.

Lemma negate_translation (T : list float) :
  length T = 3%nat →
  <[2%nat := F32.opp (<[1%nat := F32.opp (T !!! 1%nat)]> T !!! 2%nat)]>
    (<[1%nat := F32.opp (T !!! 1%nat)]> T)
  = negate_components [1; 2]%nat T.
Proof.
  intros H. do 4 (destruct T as [|? T]; try discriminate H).
  reflexivity.
Qed.


Lemma bind_read_float {B : Type} (f : float → reader B) x s :
  (read_float ≫= f) (TReal x :: s) = f x s.
Proof. reflexivity. Qed.

Lemma bind_read_int {B : Type} (f : Z → reader B) z s :
  in_int_range z = true → (read_int ≫= f) (TInt z :: s) = f z s.
Proof. intros H. unfold mbind, reader_bind, read_int. by rewrite H. Qed.

Lemma bind_Ok {A B : Type} (f : A → reader B) (r : reader A) s a s' :
  r s = Ok (a, s') → (r ≫= f) s = f a s'.
Proof. intros H. unfold mbind, reader_bind. by rewrite H. Qed.

Lemma bind_Fatal {A B : Type} (f : A → reader B) (r : reader A) s :
  r s = Fatal → (r ≫= f) s = Fatal.
Proof. intros H. unfold mbind, reader_bind. by rewrite H. Qed.

Lemma read_floats_tokens (xs : list float) (rest : list token) :
  read_floats (length xs) ((TReal <$> xs) ++ rest) = Ok (xs, rest).
Proof.
  induction xs as [|x xs IH]; [done|].
  rewrite fmap_cons. cbn [length read_floats app].
  rewrite bind_read_float. by rewrite (bind_Ok _ _ _ _ _ IH).
Qed.

Lemma read_image_tokens env path image_id m (c : BundleCamera) rest :
  camera_wf c = true →
  read_image env path image_id m (camera_tokens c ++ rest)
  = match image_of_camera env path image_id c with
    | Some im => Ok (push_image im (image_name_of_id image_id) image_id m, rest)
    | None => Fatal
    end.
Proof.
  intros Hwf. apply andb_prop in Hwf as [HR HT].
  apply bool_decide_eq_true in HR, HT.
  unfold read_image, image_of_camera, camera_tokens.
  cbn [app]. rewrite bind_read_float.
  destruct (read_bitmap env _) as [[width height]|]; [|done].
  rewrite !bind_read_float.
  destruct (F32.eqb (cam_k1 c) F32.zero); [|done].
  destruct (F32.eqb (cam_k2 c) F32.zero); [|done].
  cbn [negb andb].
  rewrite <- app_assoc.
  rewrite (bind_Ok _ (read_floats 9) _ (cam_R c) ((TReal <$> cam_T c) ++ rest)).
  2:{ rewrite <- HR. apply read_floats_tokens. }
  rewrite (bind_Ok _ (read_floats 3) _ (cam_T c) rest).
  2:{ rewrite <- HT. apply read_floats_tokens. }
  rewrite negate_range_rows, negate_translation by done.
  done.
Qed.

Lemma read_images_tokens env path (cs : list BundleCamera) image_id m rest :
  forallb camera_wf cs = true →
  read_images env path (length cs) image_id m ((cs ≫= camera_tokens) ++ rest)
  = match images_of_cameras env path image_id cs m with
    | Some m' => Ok (m', rest)
    | None => Fatal
    end.
Proof.
  revert image_id m. induction cs as [|c cs IH]; intros image_id m Hwf; [done|].
  cbn [forallb] in Hwf. apply andb_prop in Hwf as [Hc Hcs].
  rewrite bind_cons. cbn [length read_images images_of_cameras].
  rewrite <- app_assoc.
  pose proof (read_image_tokens env path image_id m c
                ((cs ≫= camera_tokens) ++ rest) Hc) as E.
  destruct (image_of_camera env path image_id c) as [im|].
  - rewrite (bind_Ok _ _ _ _ _ E). by apply IH.
  - by rewrite (bind_Fatal _ _ _ E).
Qed.

Lemma read_track_entry_tokens n (v : BundleView) rest :
  view_wf v = true →
  read_track_entry n (view_tokens v ++ rest)
  = if int_lt_size (view_image v) n then Ok (view_image v, rest) else Fatal.
Proof.
  intros Hwf. apply andb_prop in Hwf as [Hi Hf].
  unfold read_track_entry, view_tokens. cbn [app].
  rewrite !bind_read_int by done. rewrite !bind_read_float.
  by destruct (int_lt_size (view_image v) n).
Qed.

Lemma read_track_tokens n (vs : list BundleView) rest :
  forallb view_wf vs = true →
  read_track n (length vs) ((vs ≫= view_tokens) ++ rest)
  = match track_of_views n vs with
    | Some track => Ok (track, rest)
    | None => Fatal
    end.
Proof.
  unfold track_of_views.
  induction vs as [|v vs IH]; intros Hwf; [done|].
  cbn [forallb] in Hwf. apply andb_prop in Hwf as [Hv Hvs].
  rewrite bind_cons, fmap_cons. cbn [length read_track forallb].
  rewrite <- app_assoc.
  pose proof (read_track_entry_tokens n v ((vs ≫= view_tokens) ++ rest) Hv) as E.
  destruct (int_lt_size (view_image v) n).
  - rewrite (bind_Ok _ _ _ _ _ E). cbn [andb].
    specialize (IH Hvs). destruct (forallb _ vs).
    + by rewrite (bind_Ok _ _ _ _ _ IH).
    + by rewrite (bind_Fatal _ _ _ IH).
  - by rewrite (bind_Fatal _ _ _ E).
Qed.

Lemma read_point_tokens n (p : BundlePoint) rest :
  point_wf p = true →
  read_point n (point_tokens p ++ rest)
  = match point_of_bundle n p with
    | Some point => Ok (point, rest)
    | None => Fatal
    end.
Proof.
  intros Hwf. unfold point_wf in Hwf.
  apply andb_prop in Hwf as [Hwf Hvs]. apply andb_prop in Hwf as [Hwf Hlen].
  apply andb_prop in Hwf as [Hwf Hb]. apply andb_prop in Hwf as [Hr Hg].
  unfold read_point, point_tokens, point_of_bundle. cbn [app].
  rewrite !bind_read_float. rewrite !bind_read_int by done.
  destruct (Z.ltb_spec (Z.of_nat (length (bp_views p))) 0); [lia|].
  cbv beta iota. rewrite ?Nat2Z.id.
  pose proof (read_track_tokens n (bp_views p) rest Hvs) as E.
  destruct (track_of_views n (bp_views p)) as [track|].
  - by rewrite (bind_Ok _ _ _ _ _ E).
  - by rewrite (bind_Fatal _ _ _ E).
Qed.

Lemma read_points_tokens n (ps : list BundlePoint) rest :
  forallb point_wf ps = true →
  read_points n (length ps) ((ps ≫= point_tokens) ++ rest)
  = match mapM (point_of_bundle n) ps with
    | Some pts => Ok (pts, rest)
    | None => Fatal
    end.
Proof.
  induction ps as [|p ps IH]; intros Hwf; [done|].
  cbn [forallb] in Hwf. apply andb_prop in Hwf as [Hp Hps].
  rewrite bind_cons. cbn [length read_points mapM].
  rewrite <- app_assoc.
  pose proof (read_point_tokens n p ((ps ≫= point_tokens) ++ rest) Hp) as E.
  destruct (point_of_bundle n p) as [point|].
  - rewrite (bind_Ok _ _ _ _ _ E). specialize (IH Hps). cbn.
    destruct (mapM _ ps).
    + by rewrite (bind_Ok _ _ _ _ _ IH).
    + by rewrite (bind_Fatal _ _ _ IH).
  - by rewrite (bind_Fatal _ _ _ E).
Qed.

(** The legacy reader on a well-formed bundle, in one equation. *)
Lemma ReadFromPMVS_bundle env path m (b : Bundle) :
  holds_bundle env path b → bundle_wf b = true →
  ReadFromPMVS env path m
  = match images_of_cameras env path 0 (bundle_cameras b) m with
    | None => Fatal
    | Some m' =>
        match mapM (point_of_bundle (length (images m'))) (bundle_points b) with
        | None => Fatal
        | Some pts => Ok (finish_load pts m')
        end
    end.
Proof.
  intros [header Hopen] Hwf. unfold bundle_wf in Hwf.
  apply andb_prop in Hwf as [Hwf Hps]. apply andb_prop in Hwf as [Hwf Hcs].
  apply andb_prop in Hwf as [Hnc Hnp].
  unfold ReadFromPMVS. rewrite Hopen. unfold read_bundle, bundle_tokens.
  rewrite !bind_read_int by done.
  destruct (Z.ltb_spec (Z.of_nat (length (bundle_cameras b))) 0); [lia|].
  cbv beta iota. rewrite ?Nat2Z.id.
  pose proof (read_images_tokens env path (bundle_cameras b) 0 m
                (bundle_points b ≫= point_tokens) Hcs) as E.
  destruct (images_of_cameras env path 0 (bundle_cameras b) m) as [m'|].
  2:{ by rewrite (bind_Fatal _ _ _ E). }
  rewrite (bind_Ok _ _ _ _ _ E).
  destruct (Z.ltb_spec (Z.of_nat (length (bundle_points b))) 0); [lia|].
  cbv beta iota. rewrite ?Nat2Z.id.
  pose proof (read_points_tokens (length (images m')) (bundle_points b) [] Hps) as E'.
  rewrite app_nil_r in E'.
  destruct (mapM _ (bundle_points b)) as [pts|].
  - by rewrite (bind_Ok _ _ _ _ _ E').
  - by rewrite (bind_Fatal _ _ _ E').
Qed.

(** *** What the image loop leaves *)

Lemma images_of_cameras_images env path (cs : list BundleCamera) image_id m m' :
  images_of_cameras env path image_id cs m = Some m' →
  length (images m') = (length (images m) + length cs)%nat
  ∧ (∀ i im, images m !! i = Some im → images m' !! i = Some im)
  ∧ ∀ i c, cs !! i = Some c →
      ∃ im, images m' !! (length (images m) + i)%nat = Some im
            ∧ image_of_camera env path (image_id + Z.of_nat i) c = Some im.
Proof.
  revert image_id m. induction cs as [|c cs IH]; intros image_id m H.
  - injection H as <-. split; [simpl; lia|]. split; [done|]. intros i c Hc. done.
  - cbn [images_of_cameras] in H.
    destruct (image_of_camera env path image_id c) as [im|] eqn:Eim; [|done].
    apply IH in H as (Hlen & Hold & Hnew). simpl in Hlen, Hold, Hnew.
    rewrite length_app in Hlen, Hnew. simpl in Hlen, Hnew.
    split; [simpl; lia|]. split.
    + intros i im' Hi. apply Hold. by apply lookup_app_l_Some.
    + intros [|i] c' Hc'.
      * injection Hc' as <-. exists im. split.
        -- apply Hold. rewrite Nat.add_0_r.
           by rewrite lookup_app_r, Nat.sub_diag by lia.
        -- by rewrite Z.add_0_r.
      * destruct (Hnew i c' Hc') as (im' & Him' & E). exists im'. split.
        -- rewrite <- Him'. f_equal. lia.
        -- rewrite <- E. f_equal. lia.
Qed.

Lemma images_of_cameras_distortion env path (cs : list BundleCamera) image_id m c :
  c ∈ cs →
  F32.eqb (cam_k1 c) F32.zero = false ∨ F32.eqb (cam_k2 c) F32.zero = false →
  images_of_cameras env path image_id cs m = None.
Proof.
  intros Hin Hk. revert image_id m.
  induction Hin as [c cs|c c' cs Hin IH]; intros image_id m;
    cbn [images_of_cameras].
  - unfold image_of_camera.
    destruct (read_bitmap env _) as [[w h]|]; [|done].
    destruct Hk as [-> | ->]; [done|]. by rewrite andb_false_r.
  - destruct (image_of_camera env path image_id c'); [|done]. by apply IH.
Qed.

Lemma track_of_views_out_of_range n (vs : list BundleView) v :
  v ∈ vs → ¬ (0 ≤ view_image v < Z.of_nat n) → track_of_views n vs = None.
Proof.
  intros Hin Hv. unfold track_of_views.
  assert (forallb (λ v, int_lt_size (view_image v) n) vs = false) as ->; [|done].
  apply not_true_is_false. intros Hall.
  rewrite forallb_forall in Hall. apply list_elem_of_In in Hin.
  specialize (Hall v Hin). unfold int_lt_size in Hall.
  apply andb_prop in Hall as [H1 H2]. lia.
Qed.

Lemma mapM_point_of_bundle_out_of_range n (ps : list BundlePoint) p v :
  p ∈ ps → v ∈ bp_views p → ¬ (0 ≤ view_image v < Z.of_nat n) →
  mapM (point_of_bundle n) ps = None.
Proof.
  intros Hp Hv Hbad.
  destruct (mapM (point_of_bundle n) ps) as [pts|] eqn:E; [|done].
  apply mapM_Some in E.
  apply list_elem_of_lookup in Hp as [i Hi].
  destruct (Forall2_lookup_l _ _ _ _ _ E Hi) as (pt & _ & Hpt).
  unfold point_of_bundle in Hpt.
  by rewrite (track_of_views_out_of_range n _ v Hv Hbad) in Hpt.
Qed.

Lemma Read_PMVS env path m : Read env path "PMVS" m = ReadFromPMVS env path m.
Proof. reflexivity. Qed.

Lemma Read_COLMAP env path m : Read env path "COLMAP" m = ReadFromCOLMAP env path m.
Proof. reflexivity. Qed.

(** C7: the legacy reader extracts two distortion coefficients per image
    and aborts when one of them is not zero: a bundle that holds a
    non-zero k1 or k2 is never loaded. *)
Theorem ReadFromPMVS_distortion (env : Env) (path : string) (m : Model) (b : Bundle) :
  holds_bundle env path b → bundle_wf b = true →
  (∃ c, c ∈ bundle_cameras b
        ∧ (F32.eqb (cam_k1 c) F32.zero = false
           ∨ F32.eqb (cam_k2 c) F32.zero = false)) →
  ReadFromPMVS env path m = Fatal ∧ Read env path "PMVS" m = Fatal.
Proof.
  intros Hb Hwf (c & Hc & Hk). rewrite Read_PMVS.
  rewrite (ReadFromPMVS_bundle env path m b Hb Hwf).
  by rewrite (images_of_cameras_distortion env path _ 0 m c Hc Hk).
Qed.

(** *** The canonical reader *)

Lemma lookup_emplace `{Countable K} {V : Type} (k k' : K) (v : V) (m : gmap K V) :
  emplace k v m !! k'
  = if decide (k = k') then Some (default v (m !! k)) else m !! k'.
Proof.
  unfold emplace. destruct (m !! k) as [w|] eqn:E; simpl.
  - case_decide; [by subst|done].
  - case_decide; [subst; by rewrite lookup_insert_eq|by rewrite lookup_insert_ne].
Qed.

Lemma load_reg_image_inv path rec m image_id_map i image_id m' image_id_map' :
  load_reg_image path rec (m, image_id_map) i image_id = Ok (m', image_id_map') →
  ∃ image camera,
    rec_Images rec !! image_id = Some image
    ∧ rec_Cameras rec !! rimage_CameraId image = Some camera
    ∧ camera_ModelId camera = PinholeCameraModel_model_id
    ∧ m' = push_image
             {| image_path := JoinPaths (JoinPaths path "images") (rimage_Name image);
                image_K := camera_K camera;
                image_R := rimage_R image; image_T := rimage_T image |}
             (rimage_Name image) (int_of_size_t (Z.of_nat i)) m
    ∧ image_id_map' = emplace image_id (Z.of_nat i) image_id_map.
Proof.
  unfold load_reg_image.
  destruct (rec_Images rec !! image_id) as [image|] eqn:Ei; [|done].
  destruct (rec_Cameras rec !! rimage_CameraId image) as [camera|] eqn:Ec; [|done].
  destruct (Z.eqb_spec (camera_ModelId camera) PinholeCameraModel_model_id);
    [|done].
  simpl. intros [= <- <-]. by exists image, camera.
Qed.

Lemma load_reg_image_no_stream_failure path rec st i image_id :
  load_reg_image path rec st i image_id ≠ StreamFailure.
Proof.
  destruct st as [m image_id_map]. unfold load_reg_image.
  destruct (rec_Images rec !! image_id) as [image|]; [|done].
  destruct (rec_Cameras rec !! rimage_CameraId image) as [camera|]; [|done].
  by destruct (negb _).
Qed.

Lemma load_reg_images_no_stream_failure path rec ids i st :
  load_reg_images path rec ids i st ≠ StreamFailure.
Proof.
  revert i st. induction ids as [|image_id ids IH]; intros i st; [done|].
  cbn [load_reg_images].
  pose proof (load_reg_image_no_stream_failure path rec st i image_id).
  destruct (load_reg_image path rec st i image_id); try done. apply IH.
Qed.

Lemma load_reg_images_keys path rec ids i m image_id_map m' image_id_map' :
  load_reg_images path rec ids i (m, image_id_map) = Ok (m', image_id_map') →
  ∀ image_id,
    is_Some (image_id_map' !! image_id)
    ↔ is_Some (image_id_map !! image_id) ∨ image_id ∈ ids.
Proof.
  revert i m image_id_map.
  induction ids as [|id ids IH]; intros i m image_id_map Hload image_id.
  - injection Hload as <- <-. set_solver.
  - cbn [load_reg_images] in Hload.
    destruct (load_reg_image path rec (m, image_id_map) i id)
      as [[m1 map1]| | |] eqn:E1; try done.
    apply load_reg_image_inv in E1 as (image & camera & _ & _ & _ & _ & ->).
    cbn in Hload. rewrite (IH _ _ _ Hload image_id), lookup_emplace.
    case_decide; subst.
    + split; [intros _; right; by constructor|].
      intros _. left. destruct (image_id_map !! image_id); simpl; eauto.
    + rewrite elem_of_cons. naive_solver.
Qed.

Lemma map_track_cases image_id_map track :
  map_track image_id_map track = Thrown ∨ ∃ t, map_track image_id_map track = Ok t.
Proof.
  induction track as [|id track IH]; [right; by eexists|].
  cbn [map_track]. destruct (image_id_map !! id); [|by left].
  destruct IH as [-> | [t ->]]; [by left|right; by eexists].
Qed.

Lemma map_track_unmapped image_id_map track image_id :
  image_id ∈ track → image_id_map !! image_id = None →
  map_track image_id_map track = Thrown.
Proof.
  intros Hin Hnone. induction Hin as [id track|id id' track Hin IH];
    cbn [map_track].
  - by rewrite Hnone.
  - destruct (image_id_map !! id'); [|done]. by rewrite IH.
Qed.

Lemma load_points3D_unmapped image_id_map (ps : list Point3D) acc p image_id :
  p ∈ ps → image_id ∈ point3D_Track p → image_id_map !! image_id = None →
  load_points3D image_id_map ps acc = Thrown.
Proof.
  intros Hin Hid Hnone. revert acc.
  induction Hin as [p ps|p p' ps Hin IH]; intros acc; cbn [load_points3D].
  - unfold load_point3D. by rewrite (map_track_unmapped _ _ _ Hid Hnone).
  - unfold load_point3D.
    destruct (map_track_cases image_id_map (point3D_Track p')) as [-> | [t ->]];
      [done|].
    by apply IH.
Qed.

(** C6: in both readers a track entry that is not a frame index stops
    the load: the legacy reader aborts on an index below 0 or not below
    the number of frames, the canonical reader leaves through the
    exception of [at] on an image id that is not registered.  Neither
    returns a model. *)
Theorem track_entry_out_of_range_fails (env : Env) (path : string) (m : Model)
    (b : Bundle) (rec : Reconstruction) :
  (holds_bundle env path b → bundle_wf b = true →
   (∃ p v, p ∈ bundle_points b ∧ v ∈ bp_views p
           ∧ ¬ (0 ≤ view_image v
                < Z.of_nat (length (images m) + length (bundle_cameras b)))) →
   ReadFromPMVS env path m = Fatal ∧ Read env path "PMVS" m = Fatal)
  ∧ (read_reconstruction env (JoinPaths path "sparse") = Ok rec →
     (∃ p image_id, p ∈ Points3D rec ∧ image_id ∈ point3D_Track p
                    ∧ image_id ∉ RegImageIds rec) →
     (ReadFromCOLMAP env path m = Thrown ∨ ReadFromCOLMAP env path m = Fatal)
     ∧ Read env path "COLMAP" m = ReadFromCOLMAP env path m).
Proof.
  split.
  - intros Hb Hwf (p & v & Hp & Hv & Hbad). rewrite Read_PMVS.
    rewrite (ReadFromPMVS_bundle env path m b Hb Hwf).
    destruct (images_of_cameras env path 0 (bundle_cameras b) m) as [m'|] eqn:E;
      [|done].
    apply images_of_cameras_images in E as (Hlen & _ & _).
    rewrite (mapM_point_of_bundle_out_of_range _ _ p v Hp Hv); [done|].
    by rewrite Hlen.
  - intros Hrec (p & image_id & Hp & Hid & Hunreg). split; [|done].
    unfold ReadFromCOLMAP. rewrite Hrec. cbn.
    pose proof (load_reg_images_no_stream_failure path rec (RegImageIds rec)
                  0 (m, ∅)) as Hnsf.
    destruct (load_reg_images path rec (RegImageIds rec) 0 (m, ∅))
      as [[m' image_id_map]| | |] eqn:E; cbn; [|by right|by left|done].
    left.
    rewrite (load_points3D_unmapped image_id_map _ _ p image_id Hp Hid); [done|].
    apply eq_None_not_Some.
    rewrite (load_reg_images_keys _ _ _ _ _ _ _ _ E image_id).
    rewrite lookup_empty. intros [[? [=]]|?]; done.
Qed.

Lemma ReadFromPMVS_distortion_witness :
  ReadFromPMVS (example_env (example_bundle F32.one 1)
                  (example_reconstruction "a" "b" 20)) "root" empty_Model = Fatal
  ∧ Read (example_env (example_bundle F32.one 1)
            (example_reconstruction "a" "b" 20)) "root" "PMVS" empty_Model = Fatal.
Proof.
  apply (ReadFromPMVS_distortion _ "root" empty_Model (example_bundle F32.one 1)).
  - by eexists.
  - reflexivity.
  - exists (example_camera F32.one). split.
    + simpl. right. left.
    + left. reflexivity.
Defined.

Lemma track_entry_out_of_range_fails_witness :
  (ReadFromPMVS (example_env (example_bundle F32.zero 2)
                   (example_reconstruction "a" "b" 30)) "root" empty_Model = Fatal
   ∧ Read (example_env (example_bundle F32.zero 2)
             (example_reconstruction "a" "b" 30)) "root" "PMVS" empty_Model = Fatal)
  ∧ ((ReadFromCOLMAP (example_env (example_bundle F32.zero 2)
                        (example_reconstruction "a" "b" 30)) "root" empty_Model
      = Thrown
      ∨ ReadFromCOLMAP (example_env (example_bundle F32.zero 2)
                          (example_reconstruction "a" "b" 30)) "root" empty_Model
        = Fatal)
     ∧ Read (example_env (example_bundle F32.zero 2)
               (example_reconstruction "a" "b" 30)) "root" "COLMAP" empty_Model
       = ReadFromCOLMAP (example_env (example_bundle F32.zero 2)
                           (example_reconstruction "a" "b" 30)) "root" empty_Model).
Proof.
  destruct (track_entry_out_of_range_fails
              (example_env (example_bundle F32.zero 2)
                 (example_reconstruction "a" "b" 30))
              "root" empty_Model (example_bundle F32.zero 2)
              (example_reconstruction "a" "b" 30)) as [Hlegacy Hcanonical].
  split.
  - apply Hlegacy.
    + by eexists.
    + reflexivity.
    + exists (example_bundle_point 2), (example_view 2).
      split; [left|]. split; [right; left|]. simpl. lia.
  - apply Hcanonical.
    + reflexivity.
    + eexists _, 30. split; [left|]. split; [right; left|].
      simpl. intros H. repeat (apply elem_of_cons in H as [H|H]; [done|]).
      by apply elem_of_nil in H.
Defined.
(** C5, as amended: for each image the legacy reader stores the input
    rotation with its second and third rows negated, the 0-based rows 1
    and 2 (elements 3 to 8 of the row-major matrix), and the input
    translation with its second and third components negated, the
    0-based components 1 and 2. *)
Theorem ReadFromPMVS_axis_flip (env : Env) (path : string) (b : Bundle) (m : Model) :
  holds_bundle env path b → bundle_wf b = true →
  ReadFromPMVS env path empty_Model = Ok m →
  length (images m) = length (bundle_cameras b)
  ∧ ∀ i c r0 r1 r2 r3 r4 r5 r6 r7 r8 t0 t1 t2,
      bundle_cameras b !! i = Some c →
      cam_R c = [r0; r1; r2; r3; r4; r5; r6; r7; r8] →
      cam_T c = [t0; t1; t2] →
      ∃ im, images m !! i = Some im
        ∧ image_R im = [r0; r1; r2;
                        F32.opp r3; F32.opp r4; F32.opp r5;
                        F32.opp r6; F32.opp r7; F32.opp r8]
        ∧ image_R im = negate_rows [1; 2]%nat (cam_R c)
        ∧ image_T im = [t0; F32.opp t1; F32.opp t2]
        ∧ image_T im = negate_components [1; 2]%nat (cam_T c).
Proof.
  intros Hb Hwf Hload.
  rewrite (ReadFromPMVS_bundle env path _ b Hb Hwf) in Hload.
  destruct (images_of_cameras env path 0 (bundle_cameras b) empty_Model)
    as [m'|] eqn:E; [|done].
  destruct (mapM _ (bundle_points b)) as [pts|]; [|done].
  injection Hload as <-.
  apply images_of_cameras_images in E as (Hlen & _ & Hnew).
  split; [done|].
  intros i c r0 r1 r2 r3 r4 r5 r6 r7 r8 t0 t1 t2 Hc HR HT.
  destruct (Hnew i c Hc) as (im & Him & Eim). exists im. split; [done|].
  unfold image_of_camera in Eim.
  destruct (read_bitmap env _) as [[w h]|]; [|done].
  destruct (_ && _); [|done]. injection Eim as <-. simpl.
  by rewrite HR, HT.
Qed.

Lemma ReadFromPMVS_axis_flip_witness :
  length (images (loaded (ReadFromPMVS
            (example_env (example_bundle F32.zero 1)
               (example_reconstruction "a" "b" 20)) "root" empty_Model)))
  = 2%nat
  ∧ ∃ im, images (loaded (ReadFromPMVS
            (example_env (example_bundle F32.zero 1)
               (example_reconstruction "a" "b" 20)) "root" empty_Model))
          !! 1%nat = Some im
      ∧ image_R im = [F32.one; F32.zero; F32.zero;
                      F32.opp F32.zero; F32.opp F32.one; F32.opp F32.zero;
                      F32.opp F32.zero; F32.opp F32.zero; F32.opp F32.one]
      ∧ image_T im = [F32.of_Z 1; F32.opp (F32.of_Z 2); F32.opp (F32.of_Z 3)].
Proof.
  destruct (ReadFromPMVS_axis_flip
              (example_env (example_bundle F32.zero 1)
                 (example_reconstruction "a" "b" 20))
              "root" (example_bundle F32.zero 1)
              (loaded (ReadFromPMVS
                 (example_env (example_bundle F32.zero 1)
                    (example_reconstruction "a" "b" 20)) "root" empty_Model)))
    as [Hlen Himages].
  - by eexists.
  - reflexivity.
  - vm_compute. reflexivity.
  - split; [exact Hlen|].
    destruct (Himages 1%nat (example_camera F32.zero)
                F32.one F32.zero F32.zero F32.zero F32.one F32.zero
                F32.zero F32.zero F32.one
                (F32.of_Z 1) (F32.of_Z 2) (F32.of_Z 3))
      as (im & Him & HR & _ & HT & _); [reflexivity..|].
    exists im. split; [exact Him|]. split; [exact HR|exact HT].
Defined.

(** C5, as stated, does not hold: with 0-based indices "rows 2 and 3"
    are the third row alone, but the reader negates the second row
    too (and the second component of the translation). *)
Lemma ReadFromPMVS_rows_2_3_counterexample :
  ¬ (∀ (env : Env) (path : string) (b : Bundle) (m : Model),
       holds_bundle env path b → bundle_wf b = true →
       ReadFromPMVS env path empty_Model = Ok m →
       ∀ i c im,
         bundle_cameras b !! i = Some c → images m !! i = Some im →
         image_R im = negate_rows [2; 3]%nat (cam_R c)
         ∧ image_T im = negate_components [2; 3]%nat (cam_T c)).
Proof.
  intros H.
  pose (env := example_env (example_bundle F32.zero 1)
                 (example_reconstruction "a" "b" 20)).
  pose (m := loaded (ReadFromPMVS env "root" empty_Model)).
  assert (ReadFromPMVS env "root" empty_Model = Ok m) as Hload
    by (vm_compute; reflexivity).
  destruct (images m !! 0%nat) as [im|] eqn:Him; [|by vm_compute in Him].
  destruct (H env "root" (example_bundle F32.zero 1) m
              ltac:(by eexists) eq_refl Hload 0%nat (example_camera F32.zero) im
              eq_refl Him) as [HR _].
  vm_compute in Him. injection Him as <-.
  vm_compute in HR. discriminate HR.
Qed.

(** ** The names and the lookups *)

Lemma string_app_cons c (s t : string) : String c s +:+ t = String c (s +:+ t).
Proof. reflexivity. Qed.

Lemma string_length_app (s1 s2 : string) :
  String.length (s1 +:+ s2) = (String.length s1 + String.length s2)%nat.
Proof.
  induction s1 as [|c s1 IH]; [done|].
  rewrite string_app_cons. cbn [String.length]. by rewrite IH.
Qed.

Lemma string_app_inv_tail (s1 s2 t : string) : s1 +:+ t = s2 +:+ t → s1 = s2.
Proof.
  revert s2. induction s1 as [|c s1 IH]; intros [|c' s2] H.
  - done.
  - apply (f_equal String.length) in H.
    rewrite !string_length_app in H. simpl in H. lia.
  - apply (f_equal String.length) in H.
    rewrite !string_length_app in H. simpl in H. lia.
  - rewrite !string_app_cons in H. injection H as -> H. f_equal. by apply IH.
Qed.

Lemma of_uint_pad_zeros (width : nat) (d : Decimal.uint) :
  N.of_uint (pad_zeros width d) = N.of_uint d.
Proof.
  unfold pad_zeros. induction (width - Decimal.nb_digits d)%nat as [|k IH];
    [done|].
  simpl. exact IH.
Qed.

Lemma image_name_of_id_inj (a b : Z) :
  0 ≤ a → 0 ≤ b → image_name_of_id a = image_name_of_id b → a = b.
Proof.
  intros Ha Hb H. unfold image_name_of_id in H.
  apply string_app_inv_tail in H. unfold format_08d in H.
  destruct (Z.ltb_spec a 0); [lia|]. destruct (Z.ltb_spec b 0); [lia|].
  apply (f_equal NilEmpty.uint_of_string) in H.
  rewrite !NilEmpty.usu in H. injection H as H.
  apply (f_equal N.of_uint) in H.
  rewrite !of_uint_pad_zeros, !Unsigned.of_to in H. lia.
Qed.

Lemma names_ok_empty : names_ok empty_Model.
Proof.
  split; [done|]. split; [constructor|].
  intros name id. simpl. rewrite lookup_empty. split; [done|].
  intros (i & _ & Hi). by rewrite lookup_nil in Hi.
Qed.

Lemma names_ok_push im name m :
  names_ok m → name ∉ image_names_ m →
  names_ok (push_image im name (Z.of_nat (length (image_names_ m))) m).
Proof.
  intros (Hlen & Hnd & Hmap) Hfresh. split; [|split]; simpl.
  - rewrite !length_app. simpl. lia.
  - apply NoDup_app. split; [done|]. split; [|apply NoDup_singleton].
    intros x Hx Hx'. apply list_elem_of_singleton in Hx'. by subst.
  - assert (image_name_to_id_ m !! name = None) as Hnone.
    { apply eq_None_not_Some. intros [id Hid].
      apply Hmap in Hid as (i & _ & Hi).
      apply Hfresh. by eapply list_elem_of_lookup_2. }
    intros name' id. rewrite lookup_emplace, Hnone. simpl.
    case_decide as Hname; subst.
    + split.
      * intros [= <-]. exists (length (image_names_ m)). split; [done|].
        by rewrite lookup_app_r, Nat.sub_diag by lia.
      * intros (i & -> & Hi). f_equal. f_equal.
        apply lookup_app_Some in Hi as [Hi|[Hge Hi]].
        -- exfalso. apply Hfresh. by eapply list_elem_of_lookup_2.
        -- apply list_lookup_singleton_Some in Hi as [Hi _]. lia.
    + rewrite Hmap. split.
      * intros (i & -> & Hi). exists i. split; [done|].
        by apply lookup_app_l_Some.
      * intros (i & -> & Hi). exists i. split; [done|].
        apply lookup_app_Some in Hi as [Hi|[Hge Hi]]; [done|].
        apply list_lookup_singleton_Some in Hi as [_ Hi]. done.
Qed.

Lemma names_ok_finish_load pts m : names_ok m → names_ok (finish_load pts m).
Proof. done. Qed.

(** The lookups on a model whose table is the inverse of its list. *)
Lemma names_ok_lookups m :
  names_ok m →
  NoDup (image_names_ m)
  ∧ ∀ i, 0 ≤ i < Z.of_nat (length (images m)) →
      ∃ name, GetImageName m i = Ok name ∧ GetImageId m name = Ok i.
Proof.
  intros (Hlen & Hnd & Hmap). split; [done|]. intros i Hi.
  destruct (lookup_lt_is_Some_2 (image_names_ m) (Z.to_nat i)) as [name Hname];
    [lia|].
  exists name. split.
  - unfold GetImageName, int_lt_size, vector_at. rewrite Hlen.
    destruct (Z.leb_spec 0 i); [|lia].
    destruct (Z.ltb_spec i (Z.of_nat (length (images m)))); [|lia].
    simpl. by rewrite Hname.
  - unfold GetImageId.
    assert (image_name_to_id_ m !! name = Some i) as ->; [|done].
    apply Hmap. exists (Z.to_nat i). split; [lia|done].
Qed.

(** *** The legacy reader names frame [i] by its index *)

Lemma reader_bind_eq {A B : Type} (f : A → reader B) (r : reader A) s :
  (r ≫= f) s
  = match r s with
    | Ok (a, s') => f a s'
    | Fatal => Fatal
    | Thrown => Thrown
    | StreamFailure => StreamFailure
    end.
Proof. reflexivity. Qed.

Ltac reader_step H :=
  rewrite reader_bind_eq in H;
  match type of H with
  | context [match ?r ?s with Ok _ => _ | _ => _ end] =>
      destruct (r s) as [[? ?]| | |] eqn:?; try discriminate H
  end.

Lemma read_image_Ok_inv env path image_id m s m' s' :
  read_image env path image_id m s = Ok (m', s') →
  ∃ im, m' = push_image im (image_name_of_id image_id) image_id m.
Proof.
  unfold read_image. intros H.
  reader_step H.
  destruct (read_bitmap env _) as [[width height]|]; [|done].
  reader_step H. reader_step H.
  destruct (negb _); [done|]. destruct (negb _); [done|].
  reader_step H. reader_step H.
  injection H as <- <-. by eexists.
Qed.

Lemma read_images_names env path count image_id m s m' s' :
  read_images env path count image_id m s = Ok (m', s') →
  names_ok m →
  image_id = Z.of_nat (length (image_names_ m)) →
  (∀ name, name ∈ image_names_ m →
     ∃ k, 0 ≤ k < image_id ∧ name = image_name_of_id k) →
  names_ok m'.
Proof.
  revert image_id m s. induction count as [|count IH];
    intros image_id m s H Hok Hid Hnames.
  - by injection H as <- <-.
  - cbn [read_images] in H. reader_step H.
    match goal with E : read_image _ _ _ _ _ = Ok _ |- _ =>
      apply read_image_Ok_inv in E as [im ->] end.
    assert (image_name_of_id image_id ∉ image_names_ m) as Hfresh.
    { intros Hin. apply Hnames in Hin as (k & Hk & E).
      apply image_name_of_id_inj in E; lia. }
    eapply IH; [exact H| | |].
    + subst image_id. by apply names_ok_push.
    + simpl. rewrite length_app. simpl. lia.
    + simpl. intros name Hin. apply elem_of_app in Hin as [Hin|Hin].
      * destruct (Hnames name Hin) as (k & Hk & ->). exists k. split; [lia|done].
      * apply list_elem_of_singleton in Hin as ->. exists image_id.
        split; [lia|done].
Qed.

Lemma ReadFromPMVS_names env path m :
  ReadFromPMVS env path empty_Model = Ok m → names_ok m.
Proof.
  unfold ReadFromPMVS.
  destruct (open_bundle env _) as [[header body]|]; [|done].
  destruct (read_bundle env path empty_Model body) as [[m1 s1]| | |] eqn:E;
    try done.
  cbn. intros [= <-]. unfold read_bundle in E.
  reader_step E. reader_step E.
  destruct (_ <? 0); [done|]. reader_step E.
  destruct (_ <? 0); [done|]. reader_step E.
  injection E as <- <-. apply names_ok_finish_load.
  match goal with E : read_images _ _ _ _ _ _ = Ok _ |- _ =>
    apply read_images_names in E; [done|apply names_ok_empty|done|] end.
  intros name Hin. by apply elem_of_nil in Hin.
Qed.

(** *** The canonical reader takes the names of the reconstruction *)

Lemma int_of_size_t_small (n : Z) : 0 ≤ n < 2 ^ 31 → int_of_size_t n = n.
Proof. intros H. unfold int_of_size_t. rewrite Z.mod_small; lia. Qed.

Lemma load_reg_images_names path rec ids i m image_id_map m' image_id_map' :
  load_reg_images path rec ids i (m, image_id_map) = Ok (m', image_id_map') →
  names_ok m →
  i = length (image_names_ m) →
  Z.of_nat (i + length ids) ≤ 2 ^ 31 →
  NoDup (image_names_ m ++ names_of_ids rec ids) →
  names_ok m'.
Proof.
  revert i m image_id_map. induction ids as [|id ids IH];
    intros i m image_id_map H Hok Hi Hsmall Hnd.
  - by injection H as <- <-.
  - cbn [load_reg_images] in H.
    destruct (load_reg_image path rec (m, image_id_map) i id)
      as [[m1 map1]| | |] eqn:E1; try done.
    apply load_reg_image_inv in E1 as (image & camera & Him & _ & _ & -> & ->).
    cbn in H. simpl in Hsmall.
    rewrite int_of_size_t_small in H by lia.
    unfold names_of_ids in Hnd. cbn [omap list_omap] in Hnd.
    rewrite Him in Hnd. cbn in Hnd.
    eapply IH; [exact H| | | |].
    + subst i. apply names_ok_push; [done|].
      apply NoDup_app in Hnd as (_ & Hdisj & _).
      intros Hin. apply (Hdisj _ Hin). by left.
    + simpl. rewrite length_app. simpl. lia.
    + lia.
    + simpl. by rewrite <- app_assoc.
Qed.

Lemma ReadFromCOLMAP_names env path rec m :
  read_reconstruction env (JoinPaths path "sparse") = Ok rec →
  NoDup (names_of_ids rec (RegImageIds rec)) →
  Z.of_nat (length (RegImageIds rec)) ≤ 2 ^ 31 →
  ReadFromCOLMAP env path empty_Model = Ok m → names_ok m.
Proof.
  intros Hrec Hnd Hsmall. unfold ReadFromCOLMAP. rewrite Hrec. cbn.
  destruct (load_reg_images path rec (RegImageIds rec) 0 (empty_Model, ∅))
    as [[m1 map1]| | |] eqn:E; try done.
  cbn. destruct (load_points3D _ _ _) as [pts| | |]; try done.
  cbn. intros [= <-]. apply names_ok_finish_load.
  eapply load_reg_images_names; [exact E|apply names_ok_empty|done|done|done].
Qed.

(** C4, as amended: in a model loaded by the legacy reader, or by the
    canonical reader from a reconstruction whose registered images bear
    pairwise distinct names (and number at most 2^31), the name of every
    frame index looks up to that index, and the names are distinct. *)
Theorem lookups_inverse (env : Env) (path format : string) (m : Model) :
  Read env path format empty_Model = Ok m →
  (format = "COLMAP" →
   ∀ rec, read_reconstruction env (JoinPaths path "sparse") = Ok rec →
     NoDup (names_of_ids rec (RegImageIds rec))
     ∧ Z.of_nat (length (RegImageIds rec)) ≤ 2 ^ 31) →
  NoDup (image_names_ m)
  ∧ length (image_names_ m) = length (images m)
  ∧ ∀ i, 0 ≤ i < Z.of_nat (length (images m)) →
      ∃ name, GetImageName m i = Ok name ∧ GetImageId m name = Ok i.
Proof.
  intros Hread Hnames.
  assert (names_ok m) as Hok.
  { unfold Read in Hread.
    destruct (decide (format = "COLMAP")) as [Hc|_].
    - destruct (read_reconstruction env (JoinPaths path "sparse"))
        as [rec| | |] eqn:Hrec.
      + destruct (Hnames Hc rec eq_refl) as [Hnd Hsmall].
        by eapply ReadFromCOLMAP_names.
      + unfold ReadFromCOLMAP in Hread. by rewrite Hrec in Hread.
      + unfold ReadFromCOLMAP in Hread. by rewrite Hrec in Hread.
      + unfold ReadFromCOLMAP in Hread. by rewrite Hrec in Hread.
    - destruct (decide (format = "PMVS")); [|done].
      by eapply ReadFromPMVS_names. }
  destruct (names_ok_lookups m Hok) as [Hnd Hall].
  split; [done|]. split; [apply Hok|done].
Qed.

Lemma lookups_inverse_witness :
  NoDup (image_names_ (loaded (Read (example_env (example_bundle F32.zero 1)
            (example_reconstruction "a.jpg" "b.jpg" 20)) "root" "COLMAP" empty_Model)))
  ∧ GetImageName (loaded (Read (example_env (example_bundle F32.zero 1)
            (example_reconstruction "a.jpg" "b.jpg" 20)) "root" "COLMAP" empty_Model)) 1
    = Ok "b.jpg"
  ∧ ∃ name,
      GetImageName (loaded (Read (example_env (example_bundle F32.zero 1)
            (example_reconstruction "a.jpg" "b.jpg" 20)) "root" "COLMAP" empty_Model)) 1
      = Ok name
      ∧ GetImageId (loaded (Read (example_env (example_bundle F32.zero 1)
            (example_reconstruction "a.jpg" "b.jpg" 20)) "root" "COLMAP" empty_Model)) name
        = Ok 1.
Proof.
  destruct (lookups_inverse
              (example_env (example_bundle F32.zero 1)
                 (example_reconstruction "a.jpg" "b.jpg" 20))
              "root" "COLMAP"
              (loaded (Read (example_env (example_bundle F32.zero 1)
                 (example_reconstruction "a.jpg" "b.jpg" 20))
                 "root" "COLMAP" empty_Model)))
    as (Hnd & Hlen & Hall).
  - vm_compute. reflexivity.
  - intros _ rec [= <-]. split.
    + vm_compute. repeat constructor.
      * intros H. apply elem_of_cons in H as [H|H]; [discriminate H|].
        by apply elem_of_nil in H.
      * intros H. by apply elem_of_nil in H.
    + vm_compute. discriminate.
  - split; [exact Hnd|]. split; [vm_compute; reflexivity|].
    apply Hall. vm_compute. split; [discriminate|reflexivity].
Defined.

(** C4, as stated, does not hold: the canonical reader takes the names
    from the reconstruction and keeps the first index of a name, so two
    registered images of the same name break the round trip. *)
Lemma lookups_inverse_counterexample :
  ¬ (∀ (env : Env) (path format : string) (m : Model),
       Read env path format empty_Model = Ok m →
       NoDup (image_names_ m)
       ∧ ∀ i, 0 ≤ i < Z.of_nat (length (images m)) →
           ∃ name, GetImageName m i = Ok name ∧ GetImageId m name = Ok i).
Proof.
  intros H.
  pose (env := example_env (example_bundle F32.zero 1)
                 (example_reconstruction "a.jpg" "a.jpg" 20)).
  pose (m := loaded (Read env "root" "COLMAP" empty_Model)).
  assert (Read env "root" "COLMAP" empty_Model = Ok m) as Hload
    by (vm_compute; reflexivity).
  destruct (H env "root" "COLMAP" m Hload) as [_ Hall].
  destruct (Hall 1) as (name & Hname & Hid).
  { vm_compute. split; [discriminate|reflexivity]. }
  vm_compute in Hname. injection Hname as <-.
  vm_compute in Hid. discriminate Hid.
Qed.

(** ** binary32 rounding *)

Lemma digits2_pos_bounds (p : positive) :
  2 ^ (Zpos (digits2_pos p) - 1) ≤ Zpos p < 2 ^ Zpos (digits2_pos p).
Proof.
  induction p as [p IH|p IH|]; cbn [digits2_pos].
  - rewrite Pos2Z.inj_succ. change (Zpos p~1) with (2 * Zpos p + 1).
    replace (Z.succ (Zpos (digits2_pos p)) - 1) with (Z.succ (Zpos (digits2_pos p) - 1)) by lia.
    rewrite !Z.pow_succ_r by lia. lia.
  - rewrite Pos2Z.inj_succ. change (Zpos p~0) with (2 * Zpos p).
    replace (Z.succ (Zpos (digits2_pos p)) - 1) with (Z.succ (Zpos (digits2_pos p) - 1)) by lia.
    rewrite !Z.pow_succ_r by lia. lia.
  - simpl. lia.
Qed.

Lemma digits2_pos_unique (p : positive) (k : Z) :
  2 ^ (k - 1) ≤ Zpos p < 2 ^ k → Zpos (digits2_pos p) = k.
Proof.
  intros [Hlo Hhi]. pose proof (digits2_pos_bounds p) as [Hlo' Hhi'].
  assert (0 < k).
  { destruct (Z.lt_trichotomy k 0) as [Hk|[->|Hk]]; [|simpl in Hhi; lia|done].
    rewrite Z.pow_neg_r in Hhi by done. lia. }
  assert (k - 1 < Zpos (digits2_pos p)).
  { apply (Z.pow_lt_mono_r_iff 2); lia. }
  assert (Zpos (digits2_pos p) - 1 < k).
  { apply (Z.pow_lt_mono_r_iff 2); lia. }
  lia.
Qed.

(** [iter_pos] iterates as many times as its argument says. *)
Lemma iter_pos_nat {A : Type} (f : A → A) (p : positive) (x : A) :
  SpecFloat.iter_pos f p x = Nat.iter (Pos.to_nat p) f x.
Proof.
  revert x. induction p as [p IH|p IH|]; intros x; cbn [SpecFloat.iter_pos].
  - rewrite !IH, Pos2Nat.inj_xI.
    replace (2 * Pos.to_nat p)%nat with (Pos.to_nat p + Pos.to_nat p)%nat by lia.
    rewrite Nat.iter_succ_r, Nat.iter_add. done.
  - rewrite !IH, Pos2Nat.inj_xO.
    replace (2 * Pos.to_nat p)%nat with (Pos.to_nat p + Pos.to_nat p)%nat by lia.
    by rewrite Nat.iter_add.
  - done.
Qed.

Lemma shr_1_nonneg (m : Z) (r s : bool) :
  0 ≤ m →
  shr_1 {| shr_m := m; shr_r := r; shr_s := s |}
  = {| shr_m := m / 2; shr_r := Z.odd m; shr_s := r || s |}.
Proof.
  intros Hm. destruct m as [|p|p]; [done| |lia].
  destruct p as [p|p|]; cbn [shr_1].
  - f_equal. change (Zpos p~1) with (2 * Zpos p + 1).
    apply (Z.div_unique _ _ _ 1); lia.
  - f_equal. change (Zpos p~0) with (2 * Zpos p).
    apply (Z.div_unique _ _ _ 0); lia.
  - done.
Qed.

(** After [n] one-bit shifts of an exact record the mantissa is the
    quotient by 2^n, and the two rounding bits are clear when the
    division is exact. *)
Lemma shr_iter (n : nat) (m : Z) :
  0 ≤ m →
  ∃ r s,
    Nat.iter n shr_1 {| shr_m := m; shr_r := false; shr_s := false |}
    = {| shr_m := m / 2 ^ Z.of_nat n; shr_r := r; shr_s := s |}
    ∧ (m mod 2 ^ Z.of_nat n = 0 → r = false ∧ s = false).
Proof.
  intros Hm. induction n as [|n (r & s & E & Hex)].
  - exists false, false. simpl. by rewrite Z.div_1_r.
  - rewrite Nat.iter_succ, E.
    assert (0 < 2 ^ Z.of_nat n) as Hpow by (apply Z.pow_pos_nonneg; lia).
    rewrite shr_1_nonneg by (apply Z.div_pos; lia).
    exists (Z.odd (m / 2 ^ Z.of_nat n)), (r || s). split.
    + f_equal. rewrite Nat2Z.inj_succ, Z.pow_succ_r by lia.
      rewrite Z.div_div by lia. f_equal. lia.
    + rewrite Nat2Z.inj_succ, Z.pow_succ_r by lia. intros Hmod.
      apply Z.mod_divide in Hmod; [|lia]. destruct Hmod as [k Hk].
      assert (m mod 2 ^ Z.of_nat n = 0) as H0.
      { apply Z.mod_divide; [lia|]. exists (k * 2). lia. }
      destruct (Hex H0) as [-> ->]. split; [|done].
      replace m with ((k * 2) * 2 ^ Z.of_nat n) by lia.
      rewrite Z.div_mul by lia.
      rewrite Z.odd_mul. simpl. by rewrite andb_false_r.
Qed.

Lemma fexp_eq (k : Z) : fexp 24 128 k = Z.max (k - 24) (-149).
Proof. reflexivity. Qed.

Lemma round_nearest_even_bounds (q : Z) (mrs : shr_record) :
  q ≤ round_nearest_even q (loc_of_shr_record mrs) ≤ q + 1
  ∧ (shr_r mrs = false ∧ shr_s mrs = false →
     round_nearest_even q (loc_of_shr_record mrs) = q).
Proof.
  destruct mrs as [m [|] [|]]; simpl; repeat split; try lia;
    try (destruct (Z.even q); lia); intros [? ?]; done.
Qed.

Lemma pow2_pos (k : Z) : 0 ≤ k → 0 < 2 ^ k.
Proof. intros. apply Z.pow_pos_nonneg; lia. Qed.

(** Rounding a positive mantissa whose exponent is not above the
    exponent of its binade: the result is the quotient of the mantissa
    by the power of two that separates the two exponents, or that
    quotient plus one, and the quotient itself when the division is
    exact. *)
Lemma binary_round_aux_pack (s : bool) (M : positive) (E : Z) :
  E ≤ fexp 24 128 (Zpos (digits2_pos M) + E) →
  ∃ q,
    Zpos M / 2 ^ (fexp 24 128 (Zpos (digits2_pos M) + E) - E) ≤ q
    ∧ q ≤ Zpos M / 2 ^ (fexp 24 128 (Zpos (digits2_pos M) + E) - E) + 1
    ∧ (Zpos M mod 2 ^ (fexp 24 128 (Zpos (digits2_pos M) + E) - E) = 0 →
       q = Zpos M / 2 ^ (fexp 24 128 (Zpos (digits2_pos M) + E) - E))
    ∧ q ≤ 2 ^ 24
    ∧ (fexp 24 128 (Zpos (digits2_pos M) + E) = -149
       ∨ 2 ^ 23 ≤ Zpos M / 2 ^ (fexp 24 128 (Zpos (digits2_pos M) + E) - E))
    ∧ binary_round_aux 24 128 s (Zpos M) E loc_Exact
      = pack s q (fexp 24 128 (Zpos (digits2_pos M) + E)).
Proof.
  intros Hle.
  set (d := Zpos (digits2_pos M)) in *.
  set (e' := fexp 24 128 (d + E)) in *.
  set (n := e' - E).
  assert (0 ≤ n) as Hn by (unfold n; lia).
  assert (-149 ≤ e' ∧ d + E - 24 ≤ e') as [He' Hde'].
  { unfold e'. rewrite fexp_eq. lia. }
  pose proof (digits2_pos_bounds M) as [HMlo HMhi]. fold d in HMlo, HMhi.
  pose proof (pow2_pos n Hn) as Hpown.
  (* the first shift *)
  assert (∃ r1 s1,
    shr_fexp 24 128 (Zpos M) E loc_Exact
    = ({| shr_m := Zpos M / 2 ^ n; shr_r := r1; shr_s := s1 |}, e')
    ∧ (Zpos M mod 2 ^ n = 0 → r1 = false ∧ s1 = false)) as (r1 & s1 & E1 & Hex1).
  { unfold shr_fexp, shr. cbn [Zdigits2 shr_record_of_loc].
    fold d. fold e'. fold n.
    destruct n as [|p|p] eqn:En; [| |lia].
    - exists false, false. split; [|done].
      rewrite Z.pow_0_r, Z.div_1_r. f_equal. lia.
    - rewrite iter_pos_nat.
      destruct (shr_iter (Pos.to_nat p) (Zpos M)) as (r1 & s1 & E1 & Hex1); [lia|].
      rewrite positive_nat_Z in E1, Hex1.
      exists r1, s1. split; [|done]. rewrite E1. f_equal. lia. }
  set (q := Zpos M / 2 ^ n) in *.
  assert (0 ≤ q) as Hq0 by (apply Z.div_pos; lia).
  assert (q < 2 ^ 24) as Hq24.
  { apply Z.div_lt_upper_bound; [lia|].
    rewrite <- Z.pow_add_r by lia.
    eapply Z.lt_le_trans; [exact HMhi|].
    apply Z.pow_le_mono_r; lia. }
  set (mrs1 := {| shr_m := q; shr_r := r1; shr_s := s1 |}) in *.
  destruct (round_nearest_even_bounds q mrs1) as [[Hlo Hhi] Hexact].
  set (q' := round_nearest_even q (loc_of_shr_record mrs1)) in *.
  exists q'. split; [done|]. split; [done|]. split; [by auto|].
  split; [lia|]. split.
  { fold d. fold e'. destruct (decide (e' = -149)) as [|Hne]; [by left|right].
    assert (e' = d + E - 24) as He'eq by (unfold e' in *; rewrite fexp_eq in *; lia).
    fold n. fold q.
    apply Z.div_le_lower_bound; [lia|].
    rewrite <- Z.pow_add_r by lia.
    replace (n + 23) with (d - 1) by lia. done. }
  unfold binary_round_aux. rewrite E1. change (shr_m mrs1) with q. fold q'.
  clearbody q'. clear Hexact.
  unfold pack, shr_fexp, shr. cbn [shr_record_of_loc].
  destruct (Z.eqb_spec q' 0) as [->|Hq'0].
  - cbn [Zdigits2]. rewrite fexp_eq.
    destruct (Z.max (0 + e' - 24) (-149) - e') as [|p|p] eqn:En2; [done|lia|done].
  - destruct q' as [|p'|p'] eqn:Eq'; [done| |lia].
    cbn [Zdigits2]. rewrite fexp_eq.
    destruct (Z.eqb_spec (Zpos p') (2 ^ 24)) as [H24|H24].
    + rewrite (digits2_pos_unique p' 25) by (rewrite H24; simpl; lia).
      replace (Z.max (25 + e' - 24) (-149) - e') with 1 by lia.
      cbn [SpecFloat.iter_pos]. rewrite H24. cbn [shr_1 shr_m].
      replace (e' + 1 <=? 128 - 24) with (e' + 1 <=? 104) by done. done.
    + pose proof (digits2_pos_bounds p') as [Hp'lo Hp'hi].
      assert (Zpos (digits2_pos p') - 1 < 24).
      { apply (Z.pow_lt_mono_r_iff 2); lia. }
      destruct (Z.max (Zpos (digits2_pos p') + e' - 24) (-149) - e')
        as [|p|p] eqn:En2; [|lia|]; cbn [shr_m];
        replace (e' <=? 128 - 24) with (e' <=? 104) by done; done.
Qed.

Lemma bounded_inv (m : positive) (e : Z) :
  bounded 24 128 m e = true →
  Zpos m < 2 ^ 24 ∧ -149 ≤ e ≤ 104 ∧ (e = -149 ∨ 2 ^ 23 ≤ Zpos m).
Proof.
  unfold bounded, canonical_mantissa. rewrite fexp_eq. intros H.
  apply andb_prop in H as [Hc He].
  apply Z.eqb_eq in Hc. apply Z.leb_le in He.
  pose proof (digits2_pos_bounds m) as [Hlo Hhi].
  assert (Zpos (digits2_pos m) ≤ 24) as Hd by lia.
  split.
  { eapply Z.lt_le_trans; [exact Hhi|]. apply Z.pow_le_mono_r; lia. }
  split; [lia|].
  destruct (decide (e = -149)) as [|Hne]; [by left|right].
  assert (Zpos (digits2_pos m) = 24) as Hd24 by lia.
  by rewrite Hd24 in Hlo.
Qed.

Lemma bounded_intro (q e : Z) :
  0 < q < 2 ^ 24 → -149 ≤ e ≤ 104 → (e = -149 ∨ 2 ^ 23 ≤ q) →
  bounded 24 128 (Z.to_pos q) e = true.
Proof.
  intros Hq He Hn. unfold bounded, canonical_mantissa. rewrite fexp_eq.
  pose proof (digits2_pos_bounds (Z.to_pos q)) as [Hlo Hhi].
  rewrite Z2Pos.id in Hlo, Hhi by lia.
  assert (Zpos (digits2_pos (Z.to_pos q)) - 1 < 24).
  { apply (Z.pow_lt_mono_r_iff 2); lia. }
  apply andb_true_intro. split; [|apply Z.leb_le; lia].
  apply Z.eqb_eq. destruct Hn as [->|Hn]; [lia|].
  assert (23 < Zpos (digits2_pos (Z.to_pos q))).
  { apply (Z.pow_lt_mono_r_iff 2); lia. }
  lia.
Qed.

Lemma bounded_intro_pos (m : positive) (e : Z) :
  Zpos m < 2 ^ 24 → -149 ≤ e ≤ 104 → (e = -149 ∨ 2 ^ 23 ≤ Zpos m) →
  bounded 24 128 m e = true.
Proof.
  intros Hm He Hn. rewrite <- (Pos2Z.id m). apply bounded_intro; lia.
Qed.

Lemma pack_nonneg (q e : Z) :
  0 ≤ q ≤ 2 ^ 24 → -149 ≤ e → (e = -149 ∨ 2 ^ 23 ≤ q) →
  nonneg_float (pack false q e) = true.
Proof.
  intros Hq He Hn. unfold pack.
  destruct (Z.eqb_spec q 0); [done|].
  destruct (Z.eqb_spec q (2 ^ 24)).
  - destruct (Z.leb_spec (e + 1) 104); [|done].
    cbn [nonneg_float]. apply bounded_intro; [done|lia|right; lia].
  - destruct (Z.leb_spec e 104); [|done].
    cbn [nonneg_float]. apply bounded_intro; lia.
Qed.

Lemma pack_valid (s : bool) (q e : Z) :
  0 ≤ q ≤ 2 ^ 24 → -149 ≤ e → (e = -149 ∨ 2 ^ 23 ≤ q) →
  valid_binary 24 128 (pack s q e) = true.
Proof.
  intros Hq He Hn. unfold pack.
  destruct (Z.eqb_spec q 0); [done|].
  destruct (Z.eqb_spec q (2 ^ 24)).
  - destruct (Z.leb_spec (e + 1) 104); [|done].
    cbn [valid_binary]. apply bounded_intro; [done|lia|right; lia].
  - destruct (Z.leb_spec e 104); [|done].
    cbn [valid_binary]. apply bounded_intro; lia.
Qed.

Lemma sval_pos (m e : Z) : 0 < m → -1000 ≤ e → 0 < sval m e.
Proof.
  intros Hm He. unfold sval. apply Z.mul_pos_pos; [done|]. apply pow2_pos. lia.
Qed.

Lemma sval_shift (m e k : Z) :
  0 ≤ k → -1000 ≤ e → sval m (e + k) = sval (m * 2 ^ k) e.
Proof.
  intros Hk He. unfold sval.
  replace (e + k + 1000) with (k + (e + 1000)) by lia.
  rewrite Z.pow_add_r by lia. lia.
Qed.

Lemma sval_bounded_lt (m : positive) (e : Z) :
  bounded 24 128 m e = true → 0 < sval (Zpos m) e < 2 ^ 2000.
Proof.
  intros H. apply bounded_inv in H as (Hm & He & _). split.
  - apply sval_pos; lia.
  - unfold sval.
    apply Z.lt_le_trans with (2 ^ 24 * 2 ^ (e + 1000)).
    + apply Z.mul_lt_mono_pos_r; [apply pow2_pos; lia|done].
    + rewrite <- Z.pow_add_r by lia. apply Z.pow_le_mono_r; lia.
Qed.

(** The scaled value of a packed number, unless it overflows. *)
Lemma xval_pack (q e : Z) :
  0 ≤ q ≤ 2 ^ 24 → -1000 ≤ e →
  xval (pack false q e)
  = if (e <? 104) || ((e =? 104) && (q <? 2 ^ 24)) || (q =? 0)
    then sval q e else 2 ^ 2000.
Proof.
  intros Hq He. unfold pack.
  destruct (Z.eqb_spec q 0) as [->|Hq0].
  { rewrite orb_true_r. unfold sval. simpl. lia. }
  rewrite orb_false_r.
  destruct (Z.eqb_spec q (2 ^ 24)) as [->|Hq24].
  - rewrite Z.ltb_irrefl, andb_false_r, orb_false_r.
    destruct (Z.leb_spec (e + 1) 104), (Z.ltb_spec e 104); try lia; [|done].
    cbn [xval]. rewrite Z2Pos.id by done.
    rewrite sval_shift by lia. done.
  - destruct (Z.ltb_spec q (2 ^ 24)); [|lia]. rewrite andb_true_r.
    destruct (Z.leb_spec e 104), (Z.ltb_spec e 104), (Z.eqb_spec e 104);
      try lia; cbn [xval orb]; rewrite ?Z2Pos.id by lia; done.
Qed.

(** Three facts of integer arithmetic behind the next lemma: [V] is the
    exact value, [T] the unit of the result, [q] the quotient and [q']
    the rounded quotient. *)
Lemma sandwich_below (V T q q' k : Z) :
  0 < T → V < (q + 1) * T → q ≤ q' → k * T ≤ V → k * T ≤ q' * T.
Proof.
  intros HT HV Hq Hk.
  assert (k < q + 1) by (apply (Z.mul_lt_mono_pos_r T); lia).
  apply Z.mul_le_mono_nonneg_r; lia.
Qed.

Lemma sandwich_above (V T q q' k : Z) :
  0 < T → q * T ≤ V → q' ≤ q + 1 → (V = q * T → q' = q) → V ≤ k * T →
  q' * T ≤ k * T.
Proof.
  intros HT HV Hq Hex Hk.
  apply Z.mul_le_mono_nonneg_r; [lia|].
  destruct (decide (V = q * T)) as [HVq|HVq].
  - rewrite (Hex HVq). apply (Z.mul_le_mono_pos_r _ _ T); lia.
  - assert (q < k); [|lia]. apply (Z.mul_lt_mono_pos_r T); lia.
Qed.

Lemma below_binade (c q mf Tf I : Z) :
  0 < Tf → 0 < I → 0 < c → c ≤ q → mf < 2 * c →
  mf * Tf < q * (2 * I * Tf).
Proof.
  intros HTf HI Hc Hq Hmf.
  apply Z.lt_le_trans with (2 * c * Tf).
  - apply Z.mul_lt_mono_pos_r; lia.
  - replace (q * (2 * I * Tf)) with (2 * (q * I) * Tf) by lia.
    apply Z.mul_le_mono_nonneg_r; [lia|].
    apply Z.mul_le_mono_nonneg_l; [lia|].
    replace c with (c * 1) at 1 by lia.
    apply Z.mul_le_mono_nonneg; lia.
Qed.

(** Rounding to nearest lies between the representable numbers around
    the exact value: a binary32 number that is not above the exact
    value is not above the rounded one, and likewise from above. *)
Lemma round_sandwich (M : positive) (E : Z) :
  E ≤ fexp 24 128 (Zpos (digits2_pos M) + E) → -1000 ≤ E →
  nonneg_float (binary_round_aux 24 128 false (Zpos M) E loc_Exact) = true
  ∧ ∀ mf ef, bounded 24 128 mf ef = true →
      (sval (Zpos mf) ef ≤ sval (Zpos M) E →
       sval (Zpos mf) ef ≤ xval (binary_round_aux 24 128 false (Zpos M) E loc_Exact))
      ∧ (sval (Zpos M) E ≤ sval (Zpos mf) ef →
         xval (binary_round_aux 24 128 false (Zpos M) E loc_Exact)
         ≤ sval (Zpos mf) ef).
Proof.
  intros Hle HE.
  destruct (binary_round_aux_pack false M E Hle)
    as (q' & Hlo & Hhi & Hexact & Hq24 & Hnorm & ->).
  set (e' := fexp 24 128 (Zpos (digits2_pos M) + E)) in *.
  assert (-149 ≤ e') as He' by (unfold e'; rewrite fexp_eq; lia).
  set (n := e' - E) in *.
  assert (0 ≤ n) as Hn by (unfold n; lia).
  set (N := 2 ^ n) in *.
  assert (0 < N) as HN by (apply pow2_pos; lia).
  set (q := Zpos M / N) in *.
  pose proof (Z.div_mod (Zpos M) N ltac:(lia)) as Hdm. fold q in Hdm.
  pose proof (Z.mod_pos_bound (Zpos M) N HN) as Hmod.
  set (rm := Zpos M mod N) in *.
  assert (0 ≤ q) as Hq0 by (apply Z.div_pos; lia).
  set (P := 2 ^ (E + 1000)).
  assert (0 < P) as HP by (apply pow2_pos; lia).
  set (T' := 2 ^ (e' + 1000)).
  assert (T' = N * P) as HT'.
  { unfold T', N, P. rewrite <- Z.pow_add_r by lia. f_equal. lia. }
  assert (0 < T') as HT'pos by (apply pow2_pos; lia).
  (* the exact value lies in the interval of the quotient *)
  assert (Zpos M * P = q * T' + rm * P) as HV.
  { rewrite HT', Hdm. ring. }
  assert (0 ≤ rm * P) as Hrp by (apply Z.mul_nonneg_nonneg; lia).
  assert (rm * P < T') as Hrp'.
  { rewrite HT'. apply Z.mul_lt_mono_pos_r; lia. }
  assert (q * T' ≤ Zpos M * P) as HVlo by lia.
  assert (Zpos M * P < (q + 1) * T') as HVhi by lia.
  assert (Zpos M * P = q * T' → q' = q) as HVex.
  { intros HVq. apply Hexact.
    assert (rm * P = 0) as H0 by lia.
    apply Z.mul_eq_0 in H0 as [H0|H0]; lia. }
  clear Hdm Hmod Hexact HV Hrp Hrp'. clearbody q. clear rm.
  split.
  { apply pack_nonneg; [lia|done|]. destruct Hnorm; [by left|right; lia]. }
  intros mf ef Hb.
  pose proof (sval_bounded_lt mf ef Hb) as [Hf0 Hf2000].
  apply bounded_inv in Hb as (Hmf & Hef & Hfn).
  rewrite xval_pack by lia.
  change (sval (Zpos M) E) with (Zpos M * P).
  change (sval q' e') with (q' * T').
  set (Tf := 2 ^ (ef + 1000)) in *.
  change (sval (Zpos mf) ef) with (Zpos mf * Tf) in *.
  assert (0 < Tf) as HTf by (apply pow2_pos; lia).
  destruct (Z_le_gt_dec e' ef) as [Hee|Hee].
  - (* the exponent of f is not below the exponent of the result *)
    set (J := 2 ^ (ef - e')).
    assert (0 < J) as HJ by (apply pow2_pos; lia).
    assert (Tf = J * T') as HTf'.
    { unfold Tf, J, T'. rewrite <- Z.pow_add_r by lia. f_equal. lia. }
    assert (ef = e' → J = 1) as HJ1.
    { intros ->. unfold J. by rewrite Z.sub_diag. }
    rewrite HTf', Z.mul_assoc. clearbody Tf T' J P N.
    split.
    + intros Hfv.
      destruct (_ || _);
        [|rewrite <- Z.mul_assoc, <- HTf'; exact (Z.lt_le_incl _ _ Hf2000)].
      by apply (sandwich_below (Zpos M * P) T' q q').
    + intros Hvf.
      pose proof (sandwich_above (Zpos M * P) T' q q' (Zpos mf * J)
                    HT'pos HVlo Hhi HVex Hvf) as Hq'.
      destruct (Z.ltb_spec e' 104); cbn [orb]; [done|].
      assert (e' = 104) as He104 by lia.
      assert (J = 1) as -> by (apply HJ1; lia).
      rewrite Z.mul_1_r in Hq'.
      assert (q' ≤ Zpos mf) by (apply (Z.mul_le_mono_pos_r _ _ T'); lia).
      rewrite He104. cbn [Z.eqb Pos.eqb andb].
      destruct (Z.ltb_spec q' (2 ^ 24)); [|lia]. cbn [orb]. lia.
  - (* the exponent of f is below the exponent of the result *)
    set (I := 2 ^ (e' - ef - 1)).
    assert (0 < I) as HI by (apply pow2_pos; lia).
    assert (T' = 2 * I * Tf) as HTI.
    { unfold T', I, Tf.
      replace (e' + 1000) with (1 + (e' - ef - 1) + (ef + 1000)) by lia.
      rewrite !Z.pow_add_r by lia. done. }
    assert (2 ^ 23 ≤ q) as Hq23 by (destruct Hnorm; [lia|done]).
    pose proof (below_binade (2 ^ 23) q (Zpos mf) Tf I HTf HI
                  ltac:(done) Hq23 ltac:(lia)) as Hflow.
    rewrite <- HTI in Hflow. clearbody Tf T' I P N.
    assert (q * T' ≤ q' * T') by (apply Z.mul_le_mono_nonneg_r; lia).
    split.
    + intros _. destruct (_ || _); [clear Hf2000; lia|].
      exact (Z.lt_le_incl _ _ Hf2000).
    + intros Hvf. clear Hf2000. lia.
Qed.

(** *** The order of binary32 numbers is the order of their values *)

Lemma sval_lt_exponent (m1 m2 : positive) (e1 e2 : Z) :
  bounded 24 128 m1 e1 = true → bounded 24 128 m2 e2 = true → e1 < e2 →
  sval (Zpos m1) e1 < sval (Zpos m2) e2.
Proof.
  intros H1 H2 He.
  apply bounded_inv in H1 as (Hm1 & He1 & _).
  apply bounded_inv in H2 as (Hm2 & He2 & Hn2).
  assert (2 ^ 23 ≤ Zpos m2) as Hm2' by (destruct Hn2; [lia|done]).
  unfold sval.
  replace (e2 + 1000) with (1 + (e2 - e1 - 1) + (e1 + 1000)) by lia.
  rewrite (Z.pow_add_r 2 (1 + (e2 - e1 - 1)) (e1 + 1000)) by lia.
  rewrite (Z.pow_add_r 2 1 (e2 - e1 - 1)) by lia.
  apply (below_binade (2 ^ 23)); try done; try (apply pow2_pos; lia).
Qed.

Lemma SFcompare_sval (m1 m2 : positive) (e1 e2 : Z) :
  bounded 24 128 m1 e1 = true → bounded 24 128 m2 e2 = true →
  SFcompare (S754_finite false m1 e1) (S754_finite false m2 e2)
  = Some (sval (Zpos m1) e1 ?= sval (Zpos m2) e2).
Proof.
  intros H1 H2. cbn [SFcompare]. f_equal.
  destruct (Z.compare_spec e1 e2) as [->|He|He].
  - unfold sval. change (Pos.compare_cont Eq m1 m2) with (Zpos m1 ?= Zpos m2).
    rewrite <- Zmult_compare_compat_r; [done|].
    apply Z.lt_gt, pow2_pos. apply bounded_inv in H2. lia.
  - symmetry. apply Z.compare_lt_iff. by apply sval_lt_exponent.
  - symmetry. apply Z.compare_gt_iff. by apply sval_lt_exponent.
Qed.

Lemma nonneg_float_xval (x : float) : nonneg_float x = true → 0 ≤ xval x ≤ 2 ^ 2000.
Proof.
  assert (0 < 2 ^ 2000) as Hbig by (apply pow2_pos; lia).
  destruct x as [s|[|]| |[|] m e]; cbn [nonneg_float xval]; try done;
    intros H; try apply sval_bounded_lt in H;
    remember (2 ^ 2000) as big; lia.
Qed.

Lemma SFcompare_xval (x y : float) :
  nonneg_float x = true → nonneg_float y = true →
  SFcompare x y = Some (xval x ?= xval y).
Proof.
  intros Hx Hy.
  assert (0 < 2 ^ 2000) as Hbig by (apply pow2_pos; lia).
  destruct x as [sx|[|]| |[|] mx ex], y as [sy|[|]| |[|] my ey];
    cbn [nonneg_float] in Hx, Hy; try done;
    try (by apply SFcompare_sval);
    cbn [SFcompare xval]; f_equal; symmetry;
    try apply sval_bounded_lt in Hx; try apply sval_bounded_lt in Hy;
    remember (2 ^ 2000) as big;
    first [ apply Z.compare_eq_iff; lia
          | apply Z.compare_lt_iff; lia
          | apply Z.compare_gt_iff; lia ].
Qed.

Lemma leb_xval (x y : float) :
  nonneg_float x = true → nonneg_float y = true →
  F32.leb x y = (xval x <=? xval y).
Proof.
  intros Hx Hy. unfold F32.leb, SFleb. rewrite SFcompare_xval by done.
  unfold Z.leb. by destruct (xval x ?= xval y).
Qed.

Lemma ltb_xval (x y : float) :
  nonneg_float x = true → nonneg_float y = true →
  F32.ltb x y = (xval x <? xval y).
Proof.
  intros Hx Hy. unfold F32.ltb, SFltb. rewrite SFcompare_xval by done.
  unfold Z.ltb. by destruct (xval x ?= xval y).
Qed.

(** Equal values make equal numbers, zeros apart. *)
Lemma xval_inj (x y : float) :
  nonneg_float x = true → nonneg_float y = true →
  0 < xval x → xval x = xval y → x = y.
Proof.
  intros Hx Hy Hpos Heq.
  assert (0 < 2 ^ 2000) as Hbig by (apply pow2_pos; lia).
  destruct x as [sx|[|]| |[|] mx ex], y as [sy|[|]| |[|] my ey];
    cbn [nonneg_float] in Hx, Hy; try done; cbn [xval] in Hpos, Heq;
    try (try apply sval_bounded_lt in Hx; try apply sval_bounded_lt in Hy;
         remember (2 ^ 2000) as big; lia).
  pose proof (SFcompare_sval mx my ex ey Hx Hy) as Hc.
  rewrite Heq, Z.compare_refl in Hc. cbn [SFcompare] in Hc.
  injection Hc as Hc.
  destruct (Z.compare_spec ex ey) as [->|?|?]; try done.
  change (Pos.compare_cont Eq mx my) with (mx ?= my)%positive in Hc.
  apply Pos.compare_eq in Hc. by subst.
Qed.

(** *** Products, sums and conversions *)

Lemma digits2_pos_mul_lower (a b : positive) :
  Zpos (digits2_pos a) + Zpos (digits2_pos b) - 1 ≤ Zpos (digits2_pos (a * b)).
Proof.
  pose proof (digits2_pos_bounds a) as [Ha _].
  pose proof (digits2_pos_bounds b) as [Hb _].
  pose proof (digits2_pos_bounds (a * b)) as [_ Hab].
  set (da := Zpos (digits2_pos a)) in *. set (db := Zpos (digits2_pos b)) in *.
  set (dab := Zpos (digits2_pos (a * b))) in *.
  assert (0 < 2 ^ (da - 1)) by (apply pow2_pos; lia).
  assert (0 < 2 ^ (db - 1)) by (apply pow2_pos; lia).
  assert (2 ^ (da - 1 + (db - 1)) ≤ Zpos (a * b)) as Hlow.
  { rewrite Z.pow_add_r, Pos2Z.inj_mul by lia.
    apply Z.mul_le_mono_nonneg; lia. }
  assert (da - 1 + (db - 1) < dab); [|lia].
  apply (Z.pow_lt_mono_r_iff 2); lia.
Qed.

Lemma bounded_digits (m : positive) (e : Z) :
  bounded 24 128 m e = true →
  Zpos (digits2_pos m) ≤ 24 ∧ -149 ≤ e ≤ 104
  ∧ (e = -149 ∨ Zpos (digits2_pos m) = 24).
Proof.
  unfold bounded, canonical_mantissa. rewrite fexp_eq. intros H.
  apply andb_prop in H as [Hc He].
  apply Z.eqb_eq in Hc. apply Z.leb_le in He. lia.
Qed.

(** The exponent of a product of two binary32 numbers is not above the
    exponent of its binade. *)
Lemma mul_exponent_low (mx my : positive) (ex ey : Z) :
  bounded 24 128 mx ex = true → bounded 24 128 my ey = true →
  ex + ey ≤ fexp 24 128 (Zpos (digits2_pos (mx * my)) + (ex + ey)).
Proof.
  intros Hx Hy. rewrite fexp_eq.
  apply bounded_digits in Hx as (Hdx & Hex & Hnx).
  apply bounded_digits in Hy as (Hdy & Hey & Hny).
  pose proof (digits2_pos_mul_lower mx my).
  assert (0 < Zpos (digits2_pos mx)) by lia.
  assert (0 < Zpos (digits2_pos my)) by lia.
  lia.
Qed.

Lemma mul_finite (sx sy : bool) (mx my : positive) (ex ey : Z) :
  F32.mul (S754_finite sx mx ex) (S754_finite sy my ey)
  = binary_round_aux 24 128 (xorb sx sy) (Zpos (mx * my)) (ex + ey) loc_Exact.
Proof. reflexivity. Qed.

Lemma binary_round_aux_valid (s : bool) (M : positive) (E : Z) :
  E ≤ fexp 24 128 (Zpos (digits2_pos M) + E) →
  valid_binary 24 128 (binary_round_aux 24 128 s (Zpos M) E loc_Exact) = true.
Proof.
  intros Hle.
  destruct (binary_round_aux_pack s M E Hle)
    as (q' & Hlo & Hhi & _ & Hq24 & Hnorm & ->).
  assert (0 ≤ Zpos M / 2 ^ (fexp 24 128 (Zpos (digits2_pos M) + E) - E)).
  { apply Z.div_pos; [lia|]. apply pow2_pos. lia. }
  apply pack_valid; [lia|rewrite fexp_eq; lia|].
  destruct Hnorm; [by left|right; lia].
Qed.

Lemma mul_valid (x y : float) :
  F32.valid x = true → F32.valid y = true → F32.valid (F32.mul x y) = true.
Proof.
  unfold F32.valid.
  destruct x as [sx|sx| |sx mx ex], y as [sy|sy| |sy my ey]; try done.
  cbn [valid_binary]. intros Hx Hy. rewrite mul_finite.
  apply binary_round_aux_valid. by apply mul_exponent_low.
Qed.

(** [shl_align] lowers the exponent to the one asked for, keeping the
    value. *)
Lemma iter_xO (m d : positive) : Zpos (Pos.iter xO m d) = Zpos m * 2 ^ Zpos d.
Proof.
  induction d as [|d IH] using Pos.peano_ind.
  - cbn [Pos.iter]. change (Zpos m~0) with (2 * Zpos m). lia.
  - rewrite Pos.iter_succ, Pos2Z.inj_succ, Z.pow_succ_r by lia.
    change (Zpos (Pos.iter xO m d)~0) with (2 * Zpos (Pos.iter xO m d)).
    rewrite IH. lia.
Qed.

Lemma digits2_pos_shift (m : positive) (k : Z) (mz : positive) :
  0 ≤ k → Zpos mz = Zpos m * 2 ^ k →
  Zpos (digits2_pos mz) = Zpos (digits2_pos m) + k.
Proof.
  intros Hk Hmz. apply digits2_pos_unique. rewrite Hmz.
  pose proof (digits2_pos_bounds m) as [Hlo Hhi].
  assert (0 < 2 ^ k) by (apply pow2_pos; lia).
  replace (Zpos (digits2_pos m) + k - 1) with (Zpos (digits2_pos m) - 1 + k) by lia.
  rewrite !Z.pow_add_r by lia. split.
  - apply Z.mul_le_mono_nonneg_r; lia.
  - apply Z.mul_lt_mono_pos_r; lia.
Qed.

Lemma shl_align_spec (mx : positive) (ex ex' : Z) :
  ∃ mz ez,
    shl_align mx ex ex' = (mz, ez)
    ∧ ez = Z.min ex ex'
    ∧ Zpos mz = Zpos mx * 2 ^ (ex - ez).
Proof.
  unfold shl_align. destruct (ex' - ex) as [|d|d] eqn:Ed.
  - exists mx, ex. split; [done|]. split; [lia|].
    rewrite Z.sub_diag. simpl. lia.
  - exists mx, ex. split; [done|]. split; [lia|].
    rewrite Z.sub_diag. simpl. lia.
  - exists (Pos.iter xO mx d), ex'. split; [done|]. split; [lia|].
    rewrite iter_xO. f_equal. f_equal. lia.
Qed.

(** [binary_round] is [binary_round_aux] on a mantissa and an exponent
    of the same value, the exponent not above the one of the binade. *)
Lemma binary_round_aligned (s : bool) (mx : positive) (ex : Z) :
  ∃ mz ez,
    binary_round 24 128 s mx ex = binary_round_aux 24 128 s (Zpos mz) ez loc_Exact
    ∧ ez ≤ fexp 24 128 (Zpos (digits2_pos mz) + ez)
    ∧ ez = Z.min ex (fexp 24 128 (Zpos (digits2_pos mx) + ex))
    ∧ Zpos mz = Zpos mx * 2 ^ (ex - ez).
Proof.
  unfold binary_round.
  destruct (shl_align_spec mx ex (fexp 24 128 (Zpos (digits2_pos mx) + ex)))
    as (mz & ez & -> & Hez & Hmz).
  exists mz, ez. split; [done|]. split; [|done].
  rewrite (digits2_pos_shift mx (ex - ez) mz) by (lia || done).
  replace (Zpos (digits2_pos mx) + (ex - ez) + ez)
    with (Zpos (digits2_pos mx) + ex) by lia.
  lia.
Qed.

Lemma binary_round_valid (s : bool) (mx : positive) (ex : Z) :
  valid_binary 24 128 (binary_round 24 128 s mx ex) = true.
Proof.
  destruct (binary_round_aligned s mx ex) as (mz & ez & -> & Hle & _).
  by apply binary_round_aux_valid.
Qed.

Lemma binary_normalize_valid (z e : Z) (s : bool) :
  valid_binary 24 128 (binary_normalize 24 128 z e s) = true.
Proof. destruct z; [done|apply binary_round_valid..]. Qed.

Lemma add_valid (x y : float) :
  F32.valid x = true → F32.valid y = true → F32.valid (F32.add x y) = true.
Proof.
  unfold F32.valid, F32.add.
  destruct x as [sx|sx| |sx mx ex], y as [sy|sy| |sy my ey]; try done;
    cbn [SFadd]; try (by destruct sx, sy).
  intros _ _. apply binary_normalize_valid.
Qed.

Lemma of_Z_valid (z : Z) : F32.valid (F32.of_Z z) = true.
Proof. apply binary_normalize_valid. Qed.

(** Rounding a positive integer mantissa with any exponent. *)
Lemma binary_round_sandwich (mx : positive) (ex : Z) :
  -1000 ≤ ex →
  nonneg_float (binary_round 24 128 false mx ex) = true
  ∧ ∀ mf ef, bounded 24 128 mf ef = true →
      (sval (Zpos mf) ef ≤ sval (Zpos mx) ex →
       sval (Zpos mf) ef ≤ xval (binary_round 24 128 false mx ex))
      ∧ (sval (Zpos mx) ex ≤ sval (Zpos mf) ef →
         xval (binary_round 24 128 false mx ex) ≤ sval (Zpos mf) ef).
Proof.
  intros Hex.
  destruct (binary_round_aligned false mx ex) as (mz & ez & -> & Hle & Hez & Hmz).
  assert (-1000 ≤ ez) as Hez' by (rewrite Hez, fexp_eq; lia).
  assert (sval (Zpos mx) ex = sval (Zpos mz) ez) as ->.
  { rewrite Hmz, <- sval_shift by lia. f_equal. lia. }
  by apply round_sandwich.
Qed.

Lemma mul_sandwich (mx my : positive) (ex ey : Z) :
  bounded 24 128 mx ex = true → bounded 24 128 my ey = true →
  nonneg_float (F32.mul (S754_finite false mx ex) (S754_finite false my ey)) = true
  ∧ ∀ mf ef, bounded 24 128 mf ef = true →
      (sval (Zpos mf) ef ≤ sval (Zpos (mx * my)) (ex + ey) →
       sval (Zpos mf) ef
       ≤ xval (F32.mul (S754_finite false mx ex) (S754_finite false my ey)))
      ∧ (sval (Zpos (mx * my)) (ex + ey) ≤ sval (Zpos mf) ef →
         xval (F32.mul (S754_finite false mx ex) (S754_finite false my ey))
         ≤ sval (Zpos mf) ef).
Proof.
  intros Hx Hy. rewrite mul_finite. cbn [xorb].
  apply round_sandwich; [by apply mul_exponent_low|].
  apply bounded_inv in Hx, Hy. lia.
Qed.

(** Comparing a product m·c·2^(e+ec) with a number k·2^ek: enough to
    compare the mantissas once the exponents are aligned. *)
Lemma sval_mul_le (m c k e ec ek j : Z) :
  -1000 ≤ e + ec → ek = e + ec + j → 0 ≤ j → 0 ≤ m →
  m * c ≤ k * 2 ^ j → sval (m * c) (e + ec) ≤ sval k ek.
Proof.
  intros He -> Hj Hm Hle. rewrite (sval_shift k (e + ec) j) by lia. unfold sval.
  apply Z.mul_le_mono_nonneg_r; [|done].
  apply Z.lt_le_incl, pow2_pos. lia.
Qed.

Lemma sval_le_mul (m c k e ec ek j : Z) :
  -1000 ≤ e + ec → ek = e + ec + j → 0 ≤ j → 0 ≤ m →
  k * 2 ^ j ≤ m * c → sval k ek ≤ sval (m * c) (e + ec).
Proof.
  intros He -> Hj Hm Hle. rewrite (sval_shift k (e + ec) j) by lia. unfold sval.
  apply Z.mul_le_mono_nonneg_r; [|done].
  apply Z.lt_le_incl, pow2_pos. lia.
Qed.

Lemma sval_lt_mantissa (m k e : Z) : -1000 ≤ e → m < k → sval m e < sval k e.
Proof.
  intros He Hlt. unfold sval. apply Z.mul_lt_mono_pos_r; [|done].
  apply pow2_pos. lia.
Qed.

(** Multiplying by a factor c·2^-24 below one gives a result that is not
    above the binary32 number just below the one multiplied, as soon as
    the product is at least one unit away. *)
Lemma mul_le_pred (m c : positive) (e : Z) :
  bounded 24 128 m e = true → bounded 24 128 c (-24) = true →
  2 ^ 24 ≤ Zpos m * (2 ^ 24 - Zpos c) →
  ∃ mg eg,
    bounded 24 128 mg eg = true
    ∧ sval (Zpos mg) eg < sval (Zpos m) e
    ∧ xval (F32.mul (S754_finite false m e) (S754_finite false c (-24)))
      ≤ sval (Zpos mg) eg.
Proof.
  intros Hm Hc Hgap.
  destruct (mul_sandwich m c e (-24) Hm Hc) as [_ Hs].
  pose proof Hm as Hm'. pose proof Hc as Hc'.
  apply bounded_inv in Hm' as (Hm24 & He & Hmn).
  apply bounded_inv in Hc' as (Hc24 & _ & Hcn).
  assert (2 ^ 23 ≤ Zpos c) as Hc23 by (destruct Hcn; [lia|done]).
  change (2 ^ 24) with 16777216 in *. change (2 ^ 23) with 8388608 in *.
  destruct (decide (Zpos m = 8388608 ∧ -149 < e)) as [[Hm23 He']|Hcase].
  - (* the number is a power of two: the one below has one more bit *)
    assert (bounded 24 128 (Z.to_pos (16777216 - 1)) (e - 1) = true) as Hg.
    { apply bounded_intro; [done|lia|right; done]. }
    exists (Z.to_pos (16777216 - 1)), (e - 1). split; [done|].
    destruct (Hs _ _ Hg) as [_ Hup]. split.
    + replace e with (e - 1 + 1) at 2 by lia.
      rewrite sval_shift by lia. apply sval_lt_mantissa; [lia|].
      rewrite Hm23. done.
    + apply Hup. rewrite Pos2Z.inj_mul.
      apply (sval_mul_le _ _ _ _ _ _ 23); [lia|lia|lia|lia|].
      rewrite Hm23. change (2 ^ 23) with 8388608. simpl Z.to_pos. lia.
  - assert (2 ≤ Zpos m) as Hm2 by nia.
    assert (bounded 24 128 (Z.to_pos (Zpos m - 1)) e = true) as Hg.
    { apply bounded_intro; [lia|lia|].
      destruct (decide (e = -149)); [by left|right; lia]. }
    exists (Z.to_pos (Zpos m - 1)), e. split; [done|].
    destruct (Hs _ _ Hg) as [_ Hup]. split.
    + rewrite Z2Pos.id by lia. apply sval_lt_mantissa; lia.
    + apply Hup. rewrite Pos2Z.inj_mul, Z2Pos.id by lia.
      apply (sval_mul_le _ _ _ _ _ _ 24); [lia|lia|lia|lia|].
      change (2 ^ 24) with 16777216. lia.
Qed.

Lemma mul_lt (m c : positive) (e : Z) :
  bounded 24 128 m e = true → bounded 24 128 c (-24) = true →
  2 ^ 24 ≤ Zpos m * (2 ^ 24 - Zpos c) →
  xval (F32.mul (S754_finite false m e) (S754_finite false c (-24)))
  < sval (Zpos m) e.
Proof.
  intros Hm Hc Hgap.
  destruct (mul_le_pred m c e Hm Hc Hgap) as (mg & eg & _ & Hlt & Hle). lia.
Qed.

Lemma stretch_factors :
  F32.sub F32.one kStretchRatio = S754_finite false 12582912 (-24)
  ∧ F32.add F32.one kStretchRatio = S754_finite false 10485760 (-23)
  ∧ kMinPercentile = S754_finite false 10737418 (-30)
  ∧ kMaxPercentile = S754_finite false 16609444 (-24).
Proof. by vm_compute. Qed.

(** The lower bound of a range: positive, and not above the sample. *)
Lemma stretch_down (x : float) :
  nonneg_float x = true → 0 < xval x →
  nonneg_float (F32.mul x (F32.sub F32.one kStretchRatio)) = true
  ∧ 0 < xval (F32.mul x (F32.sub F32.one kStretchRatio)) ≤ xval x.
Proof.
  intros Hx Hpos. destruct stretch_factors as (-> & _).
  destruct x as [s|[|]| |[|] m e]; cbn [nonneg_float xval] in Hx, Hpos;
    try done; try lia.
  assert (bounded 24 128 12582912 (-24) = true) as Hc by done.
  destruct (mul_sandwich m 12582912 e (-24) Hx Hc) as [Hnn Hs].
  split; [done|].
  pose proof Hx as Hx'. apply bounded_inv in Hx' as (Hm24 & He & Hmn).
  split.
  - destruct (decide (m = 1%positive ∧ e = -149)) as [[-> ->]|Hne].
    { by vm_compute. }
    assert (bounded 24 128 1 (-149) = true) as H1 by done.
    destruct (Hs _ _ H1) as [Hlow _].
    eapply Z.lt_le_trans; [|apply Hlow].
    + apply sval_pos; lia.
    + rewrite Pos2Z.inj_mul.
      destruct (decide (e = -149)) as [->|He'].
      * apply (sval_le_mul _ _ _ _ _ _ 24); [lia|lia|lia|lia|].
        change (2 ^ 24) with 16777216.
        assert (2 ≤ Zpos m); [|lia].
        destruct (decide (Zpos m = 1)) as [Hm1|]; [|lia].
        exfalso. apply Hne. split; [|done]. by injection Hm1 as ->.
      * replace (-149) with (e + -24 + (-125 - e)) by lia.
        unfold sval at 1.
        replace (e + -24 + (-125 - e) + 1000) with (e + -24 + 1000 + (-125 - e))
          by lia.
        unfold sval.
        assert (0 < 2 ^ (e + -24 + 1000)) by (apply pow2_pos; lia).
        assert (2 ^ (-125 - e) ≤ 2 ^ 23)%Z.
        { destruct (Z_lt_le_dec (-125 - e) 0) as [Hneg|Hnn'].
          - rewrite Z.pow_neg_r by done. done.
          - apply Z.pow_le_mono_r; lia. }
        change (2 ^ 23) with 8388608 in *.
        destruct (Z_lt_le_dec (-125 - e) 0) as [Hneg|Hnn'].
        -- replace (e + -24 + 1000 + (-125 - e)) with 851 by lia.
           replace (e + -24 + 1000) with (851 + (e + 125)) by lia.
           rewrite Z.pow_add_r by lia.
           assert (0 < 2 ^ 851) by (apply pow2_pos; lia).
           assert (1 ≤ 2 ^ (e + 125)) by (pose proof (pow2_pos (e + 125)); lia).
           nia.
        -- rewrite Z.pow_add_r by lia. nia.
  - destruct (Hs _ _ Hx) as [_ Hup]. apply Hup.
    rewrite Pos2Z.inj_mul.
    apply (sval_mul_le _ _ _ _ _ _ 24); [lia|lia|lia|lia|].
    change (2 ^ 24) with 16777216. lia.
Qed.

(** The upper bound of a range: not below the sample. *)
Lemma stretch_up (y : float) :
  nonneg_float y = true → 0 < xval y →
  nonneg_float (F32.mul y (F32.add F32.one kStretchRatio)) = true
  ∧ xval y ≤ xval (F32.mul y (F32.add F32.one kStretchRatio)).
Proof.
  intros Hy Hpos. destruct stretch_factors as (_ & -> & _).
  destruct y as [s|[|]| |[|] m e]; cbn [nonneg_float xval] in Hy, Hpos;
    try done; try lia.
  assert (bounded 24 128 10485760 (-23) = true) as Hc by done.
  destruct (mul_sandwich m 10485760 e (-23) Hy Hc) as [Hnn Hs].
  split; [done|].
  destruct (Hs _ _ Hy) as [Hlow _]. apply Hlow.
  rewrite Pos2Z.inj_mul. apply bounded_inv in Hy as (Hm24 & He & Hmn).
  apply (sval_le_mul _ _ _ _ _ _ 23); [lia|lia|lia|lia|].
  change (2 ^ 23) with 8388608. lia.
Qed.

(** The lower bound is strictly below the sample, the two smallest
    numbers and infinity apart. *)
Lemma stretch_down_lt (m : positive) (e : Z) :
  bounded 24 128 m e = true → ¬ (e = -149 ∧ Zpos m ≤ 2) →
  xval (F32.mul (S754_finite false m e) (F32.sub F32.one kStretchRatio))
  < sval (Zpos m) e.
Proof.
  intros Hx Hbig. destruct stretch_factors as (-> & _).
  destruct (decide (m = 3%positive ∧ e = -149)) as [[-> ->]|Hne].
  { by vm_compute. }
  apply mul_lt; [done|done|].
  change (2 ^ 24) with 16777216.
  apply bounded_inv in Hx as (Hm24 & He & Hmn).
  change (2 ^ 23) with 8388608 in *.
  assert (4 ≤ Zpos m); [|lia].
  destruct Hmn as [->|]; [|lia].
  assert (Zpos m ≠ 3) by (intros [= ->]; by apply Hne). lia.
Qed.

(** *** The percentile indices *)

Lemma of_Z_pos (p : positive) : F32.of_Z (Zpos p) = binary_round 24 128 false p 0.
Proof. reflexivity. Qed.

Lemma to_size_t_xval (m : positive) (e : Z) :
  -1000 ≤ e →
  F32.to_size_t (S754_finite false m e) = sval (Zpos m) e / 2 ^ 1000.
Proof.
  intros He. unfold F32.to_size_t, sval.
  assert (0 < 2 ^ 1000) as H1000 by (apply pow2_pos; lia).
  destruct e as [|p|p].
  - rewrite Z.shiftl_0_r. simpl (0 + 1000). by rewrite Z.div_mul by lia.
  - rewrite Z.shiftl_mul_pow2 by lia. rewrite Z.pow_add_r by lia.
    by rewrite Z.mul_assoc, Z.div_mul by lia.
  - rewrite Z.shiftr_div_pow2 by lia.
    assert (0 < 2 ^ (Zneg p + 1000)) by (apply pow2_pos; lia).
    replace (2 ^ 1000) with (2 ^ Zpos p * 2 ^ (Zneg p + 1000)).
    + rewrite Z.div_mul_cancel_r by lia. done.
    + rewrite <- Z.pow_add_r by lia. f_equal. lia.
Qed.

Lemma to_size_t_finite (x : float) :
  nonneg_float x = true → xval x < 2 ^ 2000 →
  F32.to_size_t x = xval x / 2 ^ 1000.
Proof.
  intros Hx Hfin.
  destruct x as [s|[|]| |[|] m e]; cbn [nonneg_float xval] in Hx, Hfin;
    try done; try lia.
  cbn [xval]. apply to_size_t_xval. apply bounded_inv in Hx. lia.
Qed.

(** Both indices are positions of the sample list, the lower one not
    after the upper one. *)
Lemma percentile_index_bounds (n : nat) :
  (0 < n)%nat →
  (percentile_index n kMinPercentile ≤ percentile_index n kMaxPercentile)%nat
  ∧ (percentile_index n kMaxPercentile < n)%nat.
Proof.
  intros Hn. unfold percentile_index.
  destruct stretch_factors as (_ & _ & -> & ->).
  destruct (Z.of_nat n) as [|p|p] eqn:Ep; [lia| |lia].
  assert (n = Pos.to_nat p) as -> by lia. clear Ep Hn.
  rewrite of_Z_pos.
  destruct (binary_round_sandwich p 0 ltac:(lia)) as [Hnn Hs].
  assert (bounded 24 128 8388608 (-23) = true) as Hone by done.
  destruct (Hs _ _ Hone) as [Hge1 _].
  assert (0 < 2 ^ 1000) as H1000 by (apply pow2_pos; lia).
  assert (sval (Zpos p) 0 = Zpos p * 2 ^ 1000) as Hp by done.
  assert (sval 8388608 (-23) = 2 ^ 1000) as Hone' by done.
  assert (sval 8388608 (-23) ≤ xval (binary_round 24 128 false p 0)) as Hy1.
  { apply Hge1. rewrite Hp, Hone'. lia. }
  destruct (binary_round 24 128 false p 0) as [s|[|]| |[|] m e] eqn:Ey;
    cbn [nonneg_float xval] in Hnn, Hy1; try done; try lia.
  { (* the size rounds to infinity *)
    change (F32.mul (S754_infinity false) (S754_finite false 10737418 (-30)))
      with (S754_infinity false).
    change (F32.mul (S754_infinity false) (S754_finite false 16609444 (-24)))
      with (S754_infinity false).
    cbn [F32.to_size_t]. lia. }
  (* the size rounds to m·2^e with e ≥ -23 *)
  pose proof Hnn as Hb. apply bounded_inv in Hb as (Hm24 & He & Hmn).
  assert (-23 ≤ e) as He23.
  { destruct (Z_lt_le_dec e (-23)) as [Hlt|]; [|done].
    pose proof (sval_lt_exponent m 8388608 e (-23) Hnn Hone Hlt). lia. }
  assert (2 ^ 23 ≤ Zpos m) as Hm23 by (destruct Hmn; [lia|done]).
  change (2 ^ 23) with 8388608 in *. change (2 ^ 24) with 16777216 in *.
  assert (bounded 24 128 10737418 (-30) = true) as Hc1 by done.
  assert (bounded 24 128 16609444 (-24) = true) as Hc99 by done.
  destruct (mul_sandwich m 10737418 e (-30) Hnn Hc1) as [Hnn1 Hs1].
  destruct (mul_sandwich m 16609444 e (-24) Hnn Hc99) as [Hnn2 Hs2].
  set (r1 := F32.mul (S754_finite false m e) (S754_finite false 10737418 (-30))) in *.
  set (r2 := F32.mul (S754_finite false m e) (S754_finite false 16609444 (-24))) in *.
  (* half of the size lies between the two products *)
  assert (bounded 24 128 m (e - 1) = true) as Hhalf.
  { apply bounded_intro_pos; [done|lia|right; done]. }
  destruct (Hs1 _ _ Hhalf) as [_ Hup1]. destruct (Hs2 _ _ Hhalf) as [Hlow2 _].
  assert (xval r1 ≤ sval (Zpos m) (e - 1)) as H1.
  { apply Hup1. rewrite Pos2Z.inj_mul.
    apply (sval_mul_le _ _ _ _ _ _ 29); [lia|lia|lia|lia|].
    change (2 ^ 29) with 536870912. lia. }
  assert (sval (Zpos m) (e - 1) ≤ xval r2) as H2.
  { apply Hlow2. rewrite Pos2Z.inj_mul.
    apply (sval_le_mul _ _ _ _ _ _ 23); [lia|lia|lia|lia|].
    change (2 ^ 23) with 8388608. lia. }
  (* the upper product is not above the number below the rounded size,
     which is below the size *)
  destruct (mul_le_pred m 16609444 e Hnn Hc99
              ltac:(change (2 ^ 24) with 16777216; lia))
    as (mg & eg & Hg & Hglt & Hr2). fold r2 in Hr2.
  assert (sval (Zpos mg) eg < sval (Zpos p) 0) as Hgp.
  { destruct (Z_lt_le_dec (sval (Zpos mg) eg) (sval (Zpos p) 0)) as [|Hge]; [done|].
    destruct (Hs _ _ Hg) as [_ Hup]. specialize (Hup Hge).
    cbn [xval] in Hup. lia. }
  pose proof (sval_bounded_lt mg eg Hg) as [_ Hg2000].
  pose proof (nonneg_float_xval r1 Hnn1) as [Hr1 _].
  rewrite (to_size_t_finite r1), (to_size_t_finite r2) by (done || lia).
  assert (xval r1 / 2 ^ 1000 ≤ xval r2 / 2 ^ 1000) by (apply Z.div_le_mono; lia).
  assert (xval r2 / 2 ^ 1000 < Zpos p).
  { apply Z.div_lt_upper_bound; lia. }
  assert (0 ≤ xval r1 / 2 ^ 1000) by (apply Z.div_pos; lia).
  lia.
Qed.

(** *** Sorting *)

Lemma insert_sorted_perm (x : float) (l : list float) : insert_sorted x l ≡ₚ x :: l.
Proof.
  induction l as [|y l IH]; [done|]. cbn [insert_sorted].
  destruct (F32.ltb y x); [|done]. rewrite IH. apply Permutation_swap.
Qed.

Lemma sort_perm (l : list float) : sort l ≡ₚ l.
Proof.
  induction l as [|x l IH]; [done|]. cbn [sort foldr].
  rewrite insert_sorted_perm. by constructor.
Qed.

Lemma sort_length (l : list float) : length (sort l) = length l.
Proof. by rewrite sort_perm. Qed.

Lemma insert_sorted_sorted (x : float) (l : list float) :
  nonneg_float x = true → Forall (λ y, nonneg_float y = true) l →
  StronglySorted (λ a b, xval a ≤ xval b) l →
  StronglySorted (λ a b, xval a ≤ xval b) (insert_sorted x l).
Proof.
  intros Hx Hl Hs. induction Hs as [|y l Hs IH Hy]; cbn [insert_sorted].
  - repeat constructor.
  - apply Forall_cons in Hl as [Hy' Hl].
    rewrite ltb_xval by done. destruct (Z.ltb_spec (xval y) (xval x)).
    + constructor; [by apply IH|].
      rewrite insert_sorted_perm. constructor; [lia|done].
    + constructor; [by constructor|].
      constructor; [done|]. eapply Forall_impl; [exact Hy|]. simpl. lia.
Qed.

Lemma sort_sorted (l : list float) :
  Forall (λ y, nonneg_float y = true) l →
  StronglySorted (λ a b, xval a ≤ xval b) (sort l).
Proof.
  induction 1 as [|x l Hx Hl IH]; cbn [sort foldr]; [constructor|].
  apply insert_sorted_sorted; [done| |done].
  by rewrite sort_perm.
Qed.

Lemma sorted_lookup_le (l : list float) (i j : nat) (a b : float) :
  StronglySorted (λ a b, xval a ≤ xval b) l →
  (i ≤ j)%nat → l !! i = Some a → l !! j = Some b → xval a ≤ xval b.
Proof.
  intros Hs. revert i j. induction Hs as [|x l Hs IH Hx]; intros i j Hij Hi Hj.
  - by rewrite lookup_nil in Hi.
  - destruct i as [|i], j as [|j]; simpl in Hi, Hj.
    + injection Hi as <-. injection Hj as <-. lia.
    + injection Hi as <-. rewrite Forall_forall in Hx.
      apply Hx. by eapply list_elem_of_lookup_2.
    + lia.
    + apply (IH i j); [lia|done..].
Qed.

Lemma sorted_ascending (l : list float) :
  Forall (λ y, nonneg_float y = true) l →
  StronglySorted (λ a b, xval a ≤ xval b) l → ascending l = true.
Proof.
  intros Hl Hs. induction Hs as [|x l Hs IH Hx]; [done|].
  apply Forall_cons in Hl as [Hx' Hl].
  cbn [ascending]. destruct l as [|y l]; [done|].
  apply Forall_cons in Hx as [Hxy _]. pose proof Hl as Hl'.
  apply Forall_cons in Hl' as [Hy' _].
  rewrite leb_xval by done. rewrite IH by done.
  destruct (Z.leb_spec (xval x) (xval y)); [done|lia].
Qed.

(** The sorted sequence of positive numbers does not depend on how it
    is obtained: two ascending arrangements of the same numbers are
    equal. *)
Lemma sorted_unique (l1 l2 : list float) :
  Forall (λ y, nonneg_float y = true ∧ 0 < xval y) l1 →
  StronglySorted (λ a b, xval a ≤ xval b) l1 →
  StronglySorted (λ a b, xval a ≤ xval b) l2 →
  l1 ≡ₚ l2 → l1 = l2.
Proof.
  intros Hl1 Hs1. revert l2.
  induction Hs1 as [|x l1 Hs1 IH Hx]; intros l2 Hs2 Hp.
  - by apply Permutation_nil_l in Hp.
  - destruct Hs2 as [|y l2 Hs2 Hy].
    { by apply Permutation_nil_r in Hp. }
    apply Forall_cons in Hl1 as [[Hxn Hxp] Hl1].
    assert (Forall (λ y, nonneg_float y = true ∧ 0 < xval y) (y :: l2)) as Hl2.
    { rewrite <- Hp. by constructor. }
    apply Forall_cons in Hl2 as [[Hyn Hyp] Hl2].
    assert (x = y) as ->.
    { apply xval_inj; [done..|]. apply Z.le_antisymm.
      - assert (x ∈ y :: l2) as Hin by (rewrite <- Hp; by left).
        apply elem_of_cons in Hin as [->|Hin]; [lia|].
        assert (y ∈ x :: l1) as Hin' by (rewrite Hp; by left).
        apply elem_of_cons in Hin' as [->|Hin']; [lia|].
        rewrite Forall_forall in Hx. by apply Hx.
      - assert (x ∈ y :: l2) as Hin by (rewrite <- Hp; by left).
        apply elem_of_cons in Hin as [->|Hin]; [lia|].
        rewrite Forall_forall in Hy. by apply Hy. }
    f_equal. apply IH; [done|done|]. by apply Permutation_cons_inv in Hp.
Qed.

(** [std::sort] stands for any algorithm that returns the samples in
    ascending order. *)
Lemma sort_unique (l sorted : list float) :
  Forall (λ y, nonneg_float y = true ∧ 0 < xval y) l →
  sorted ≡ₚ l → StronglySorted (λ a b, xval a ≤ xval b) sorted →
  sorted = sort l.
Proof.
  intros Hl Hp Hs. apply sorted_unique; [by rewrite Hp|done| |].
  - apply sort_sorted. eapply Forall_impl; [exact Hl|]. by intros y [? _].
  - by rewrite sort_perm.
Qed.

Lemma sort_permutation (l1 l2 : list float) :
  Forall (λ y, nonneg_float y = true ∧ 0 < xval y) l1 →
  l1 ≡ₚ l2 → sort l1 = sort l2.
Proof.
  intros Hl Hp. apply sort_unique.
  - by rewrite <- Hp.
  - by rewrite sort_perm.
  - apply sort_sorted. eapply Forall_impl; [exact Hl|]. by intros y [? _].
Qed.

(** *** Depths *)

Lemma mul_one_l (x : float) : F32.valid x = true → F32.mul F32.one x = x.
Proof.
  unfold F32.valid. destruct x as [s|s| |s m e]; try done.
  cbn [valid_binary]. intros Hx.
  change F32.one with (S754_finite false 8388608 (-23)).
  rewrite mul_finite. cbn [xorb].
  pose proof Hx as Hx'. apply bounded_inv in Hx' as (Hm24 & He & Hmn).
  pose proof Hx as Hc. unfold bounded, canonical_mantissa in Hc.
  apply andb_prop in Hc as [Hc _]. apply Z.eqb_eq in Hc.
  assert (Zpos (8388608 * m) = Zpos m * 2 ^ 23) as HM.
  { rewrite Pos2Z.inj_mul. change (2 ^ 23) with 8388608. lia. }
  pose proof (digits2_pos_shift m 23 (8388608 * m) ltac:(lia) HM) as Hd.
  assert (fexp 24 128 (Zpos (digits2_pos (8388608 * m)) + (-23 + e)) = e) as He'.
  { rewrite Hd, <- Hc. f_equal. lia. }
  destruct (binary_round_aux_pack s (8388608 * m) (-23 + e))
    as (q & _ & _ & Hex & _ & _ & ->); [lia|].
  rewrite He' in *. replace (e - (-23 + e)) with 23 in Hex by lia.
  rewrite HM in Hex. rewrite Z.mod_mul, Z.div_mul in Hex by done.
  rewrite (Hex eq_refl). unfold pack.
  destruct (Z.eqb_spec (Zpos m) 0); [done|].
  destruct (Z.eqb_spec (Zpos m) (2 ^ 24)); [lia|].
  destruct (Z.leb_spec e 104); [|lia]. done.
Qed.

Lemma mul_zero_l (r x : float) :
  is_zero r = true → F32.is_finite x = true → is_zero (F32.mul r x) = true.
Proof. by destruct r, x. Qed.

Lemma add_zero_l (r x : float) :
  is_zero r = true → is_zero x = false → F32.add r x = x.
Proof. by destruct r, x as [|[|]| |]. Qed.

Lemma add_zero_r (x r : float) :
  is_zero r = true → is_zero x = false → F32.add x r = x.
Proof. by destruct r, x as [|[|]| |]. Qed.

Lemma positive_not_zero (x : float) : F32.ltb F32.zero x = true → is_zero x = false.
Proof. by destruct x as [|[|]| |[|]]. Qed.

(** For a frame that looks down the z axis the depth of a point ahead
    of it is the height of the point plus the third component of the
    translation, rounded once. *)
Lemma depth_of_axis (image : Image) (point : Point) :
  looks_down_z image →
  F32.is_finite (point_x point) = true → F32.is_finite (point_y point) = true →
  F32.valid (point_z point) = true → is_zero (point_z point) = false →
  depth_of image point = F32.add (point_z point) (image_T image !!! 2%nat).
Proof.
  intros (H6 & H7 & H8) Hx Hy Hz Hnz. unfold depth_of, dot3.
  rewrite H8, mul_one_l by done.
  rewrite (add_zero_l (F32.mul _ (point_y point)))
    by first [by apply mul_zero_l | done].
  rewrite (add_zero_l (F32.mul _ (point_x point)))
    by first [by apply mul_zero_l | done].
  done.
Qed.

Lemma lookup_total_valid (l : list float) (i : nat) :
  Forall (λ x, F32.valid x = true) l → F32.valid (l !!! i) = true.
Proof.
  intros Hl. destruct (l !! i) as [x|] eqn:E.
  - rewrite (list_lookup_total_correct _ _ _ E).
    rewrite Forall_forall in Hl. apply Hl. by eapply list_elem_of_lookup_2.
  - rewrite list_lookup_total_alt, E. done.
Qed.

Lemma depth_of_valid (image : Image) (point : Point) :
  image_valid image → point_valid point → F32.valid (depth_of image point) = true.
Proof.
  intros [HR HT] (Hx & Hy & Hz). unfold depth_of, dot3.
  repeat (apply add_valid || apply mul_valid);
    try done; by apply lookup_total_valid.
Qed.

Lemma positive_valid_nonneg (d : float) :
  F32.valid d = true → F32.ltb F32.zero d = true →
  nonneg_float d = true ∧ 0 < xval d.
Proof.
  unfold F32.valid. intros H Hpos.
  destruct d as [s|[|]| |[|] m e]; try discriminate Hpos;
    cbn [valid_binary nonneg_float xval] in *.
  - split; [done|]. apply pow2_pos. lia.
  - split; [done|]. by apply sval_bounded_lt in H as [? _].
Qed.

Lemma xval_positive_ltb (d : float) :
  nonneg_float d = true → 0 < xval d → F32.ltb F32.zero d = true.
Proof.
  intros Hd Hpos. rewrite ltb_xval by done. cbn [xval F32.zero].
  by apply Z.ltb_lt.
Qed.

(** What the sample list of a frame holds. *)
Lemma elem_of_frame_depths (m : Model) (f : nat) (d : float) :
  d ∈ frame_depths m f
  ↔ ∃ point image,
      point ∈ points m ∧ Z.of_nat f ∈ point_track point
      ∧ images m !! f = Some image
      ∧ d = depth_of image point ∧ F32.ltb F32.zero d = true.
Proof.
  unfold frame_depths. rewrite list_elem_of_bind. split.
  - intros (point & Hd & Hpoint). apply list_elem_of_bind in Hd as (id & Hd & Hid).
    unfold entry_depths in Hd. destruct (decide (id = Z.of_nat f)) as [->|]; [|set_solver].
    destruct (images m !! f) as [image|] eqn:Him; [|set_solver].
    destruct (F32.ltb F32.zero (depth_of image point)) eqn:Hpos; [|set_solver].
    apply list_elem_of_singleton in Hd as ->. by exists point, image.
  - intros (point & image & Hpoint & Hid & Him & -> & Hpos).
    exists point. split; [|done]. apply list_elem_of_bind.
    exists (Z.of_nat f). split; [|done].
    unfold entry_depths. rewrite decide_True, Him, Hpos by done. by left.
Qed.

Lemma frame_depths_positive (m : Model) (f : nat) :
  model_valid m →
  Forall (λ d, nonneg_float d = true ∧ 0 < xval d) (frame_depths m f).
Proof.
  intros [Him Hpt]. apply Forall_forall. intros d Hd.
  apply elem_of_frame_depths in Hd as (point & image & Hp & _ & Hi & -> & Hpos).
  apply positive_valid_nonneg; [|done]. apply depth_of_valid.
  - rewrite Forall_forall in Him. apply Him. by eapply list_elem_of_lookup_2.
  - rewrite Forall_forall in Hpt. by apply Hpt.
Qed.

(** The sample list of the one frame of [axis_model] is the list of the
    positive heights. *)
Lemma frame_depths_axis_model (heights : list float) :
  Forall (λ z, F32.valid z = true ∧ F32.ltb F32.zero z = true) heights →
  frame_depths (axis_model heights) 0 = heights.
Proof.
  unfold frame_depths. cbn [points images axis_model].
  induction 1 as [|z heights [Hv Hpos] _ IH]; [done|].
  rewrite fmap_cons, bind_cons, IH. cbn [point_track axis_point].
  rewrite bind_cons. change (mbind _ []) with (@nil float).
  rewrite app_nil_r. unfold entry_depths.
  rewrite decide_True by done. cbn [lookup list_lookup].
  assert (depth_of axis_frame (axis_point z [0]) = z) as ->.
  { rewrite depth_of_axis; try done.
    - cbn. apply add_zero_r; [done|]. by apply positive_not_zero.
    - by apply positive_not_zero. }
  by rewrite Hpos.
Qed.

Lemma valid_tracks_axis_model (heights : list float) :
  valid_tracks (axis_model heights).
Proof.
  unfold valid_tracks. cbn [points images axis_model].
  apply Forall_fmap, Forall_forall. intros z _. cbn.
  repeat constructor; lia.
Qed.

(** *** The range of a frame *)

Lemma no_range_eq : (F32.opp F32.one, F32.opp F32.one) = no_range.
Proof. reflexivity. Qed.

Lemma model_valid_axis_model (heights : list float) :
  Forall (λ z, F32.valid z = true) heights → model_valid (axis_model heights).
Proof.
  intros Hh. split; cbn [images points axis_model].
  - repeat constructor.
  - apply Forall_fmap. eapply Forall_impl; [exact Hh|].
    intros z Hz. by repeat split.
Qed.

(** The two samples a non-empty list gives its range, in the sorted
    list. *)
Lemma depth_range_of_samples (samples : list float) :
  samples ≠ [] →
  Forall (λ d, nonneg_float d = true ∧ 0 < xval d) samples →
  ∃ first second,
    sort samples !! percentile_index (length samples) kMinPercentile = Some first
    ∧ sort samples !! percentile_index (length samples) kMaxPercentile = Some second
    ∧ first ∈ samples ∧ second ∈ samples
    ∧ xval first ≤ xval second
    ∧ depth_range_of samples
      = (F32.mul first (F32.sub F32.one kStretchRatio),
         F32.mul second (F32.add F32.one kStretchRatio)).
Proof.
  intros Hne Hpos.
  destruct (percentile_index_bounds (length samples)) as [Hle Hlt].
  { destruct samples; [done|]. cbn [length]. lia. }
  pose proof (sort_length samples) as Hlen.
  destruct (sort samples !! percentile_index (length samples) kMaxPercentile)
    as [second|] eqn:Hsecond; [|apply lookup_ge_None in Hsecond; lia].
  destruct (sort samples !! percentile_index (length samples) kMinPercentile)
    as [first|] eqn:Hfirst; [|apply lookup_ge_None in Hfirst; lia].
  exists first, second. split; [done|]. split; [done|].
  split; [|split; [|split]].
  - rewrite <- (sort_perm samples). by eapply list_elem_of_lookup_2.
  - rewrite <- (sort_perm samples). by eapply list_elem_of_lookup_2.
  - eapply sorted_lookup_le; [|exact Hle|exact Hfirst|exact Hsecond].
    apply sort_sorted. eapply Forall_impl; [exact Hpos|]. by intros y [? _].
  - unfold depth_range_of. destruct samples as [|d samples]; [done|].
    rewrite sort_length.
    rewrite (list_lookup_total_correct _ _ _ Hfirst).
    rewrite (list_lookup_total_correct _ _ _ Hsecond). done.
Qed.

(** The range of a non-empty list of positive samples. *)
Lemma depth_range_of_positive (samples : list float) :
  samples ≠ [] →
  Forall (λ d, nonneg_float d = true ∧ 0 < xval d) samples →
  ∃ first,
    first ∈ samples
    ∧ (depth_range_of samples).1 = F32.mul first (F32.sub F32.one kStretchRatio)
    ∧ F32.ltb F32.zero (depth_range_of samples).1 = true
    ∧ F32.leb (depth_range_of samples).1 (depth_range_of samples).2 = true
    ∧ (first ∉ [tiny1; tiny2; plus_infinity] →
       F32.ltb (depth_range_of samples).1 (depth_range_of samples).2 = true).
Proof.
  intros Hne Hpos.
  destruct (depth_range_of_samples samples Hne Hpos)
    as (first & second & _ & _ & Hf & Hs & Hle & ->).
  cbn [fst snd]. rewrite Forall_forall in Hpos.
  destruct (Hpos _ Hf) as [Hfn Hfp]. destruct (Hpos _ Hs) as [Hsn Hsp].
  destruct (stretch_down first Hfn Hfp) as (Hln & Hl0 & Hlf).
  destruct (stretch_up second Hsn Hsp) as (Hhn & Hsh).
  exists first. split; [done|]. split; [done|]. split; [|split].
  - by apply xval_positive_ltb.
  - rewrite leb_xval by done. apply Z.leb_le. lia.
  - intros Hnot. rewrite ltb_xval by done. apply Z.ltb_lt.
    destruct first as [s|[|]| |[|] mf ef]; cbn [nonneg_float] in Hfn; try done.
    + exfalso. apply Hnot. set_solver.
    + assert (¬ (ef = -149 ∧ Zpos mf ≤ 2)) as Hbig.
      { intros [-> Hm]. apply Hnot.
        assert (mf = 1 ∨ mf = 2)%positive as [-> | ->] by lia; set_solver. }
      pose proof (stretch_down_lt mf ef Hfn Hbig) as Hlt.
      cbn [xval] in Hle. lia.
Qed.

(** C9 (amended): for a model of binary32 numbers with valid tracks,
    every returned range other than the pair (-1, -1) comes from a
    non-empty sample list and satisfies 0 < low and low <= high; low is
    the lower selected sample times 0.75, and low < high holds strictly
    unless that sample is one of the two smallest positive numbers or
    plus infinity. *)
Theorem depth_range_positive (m : Model) :
  valid_tracks m → model_valid m →
  ∃ ranges, ComputeDepthRanges m = Ok ranges
    ∧ ∀ f low high,
        ranges !! f = Some (low, high) → (low, high) ≠ no_range →
        frame_depths m f ≠ []
        ∧ F32.ltb F32.zero low = true
        ∧ F32.leb low high = true
        ∧ ∃ first,
            first ∈ frame_depths m f
            ∧ low = F32.mul first (F32.sub F32.one kStretchRatio)
            ∧ (first ∉ [tiny1; tiny2; plus_infinity] →
               F32.ltb low high = true).
Proof.
  intros Hv Hm.
  destruct (ComputeDepthRanges_spec m Hv) as (ranges & E & Hl & Hr).
  exists ranges. split; [done|]. intros f low high Hf Hns.
  assert (f < length (images m))%nat as Hlt.
  { rewrite <- Hl. by eapply lookup_lt_Some. }
  rewrite (Hr f Hlt) in Hf. injection Hf as Hf.
  assert (frame_depths m f ≠ []) as Hne.
  { intros Hnil. rewrite Hnil in Hf. cbn [depth_range_of] in Hf.
    rewrite no_range_eq in Hf. by apply Hns. }
  split; [done|].
  destruct (depth_range_of_positive (frame_depths m f) Hne
              (frame_depths_positive m f Hm))
    as (first & Hin & Hlow & H0 & Hle & Hstrict).
  rewrite Hf in Hlow, H0, Hle, Hstrict. cbn [fst snd] in *.
  split; [done|]. split; [done|]. by exists first.
Qed.

Lemma depth_range_positive_witness :
  valid_tracks (axis_model [F32.two; F32.one])
  ∧ model_valid (axis_model [F32.two; F32.one])
  ∧ ∃ ranges, ComputeDepthRanges (axis_model [F32.two; F32.one]) = Ok ranges
    ∧ ∀ f low high,
        ranges !! f = Some (low, high) → (low, high) ≠ no_range →
        frame_depths (axis_model [F32.two; F32.one]) f ≠ []
        ∧ F32.ltb F32.zero low = true
        ∧ F32.leb low high = true
        ∧ ∃ first,
            first ∈ frame_depths (axis_model [F32.two; F32.one]) f
            ∧ low = F32.mul first (F32.sub F32.one kStretchRatio)
            ∧ (first ∉ [tiny1; tiny2; plus_infinity] →
               F32.ltb low high = true).
Proof.
  split; [|split].
  - apply valid_tracks_axis_model.
  - apply model_valid_axis_model. by repeat constructor.
  - apply (depth_range_positive (axis_model [F32.two; F32.one])).
    + apply valid_tracks_axis_model.
    + apply model_valid_axis_model. by repeat constructor.
Defined.

(** C9 as stated fails: a frame whose only sample is the smallest
    positive binary32 number gets a range with low = high, since both
    0.75 and 1.25 times that number round back to it. *)
Lemma depth_range_strict_counterexample :
  ¬ (∀ m ranges f low high,
       valid_tracks m → model_valid m →
       ComputeDepthRanges m = Ok ranges →
       ranges !! f = Some (low, high) → (low, high) ≠ no_range →
       F32.ltb F32.zero low = true ∧ F32.ltb low high = true).
Proof.
  intros H.
  destruct (H (axis_model [tiny1]) [(tiny1, tiny1)] 0%nat tiny1 tiny1)
    as [_ Hlt].
  - apply valid_tracks_axis_model.
  - apply model_valid_axis_model. by repeat constructor.
  - by vm_compute.
  - done.
  - by vm_compute.
  - by vm_compute in Hlt.
Qed.

Lemma positive_not_leb (d : float) :
  F32.ltb F32.zero d = true → F32.leb d F32.zero = false.
Proof. by destruct d as [|[|]| |[|]]. Qed.

(** C3 (amended): the depth of a point for a frame is the binary32 sum
    r6*x + (r7*y + r8*z), plus the third component of the translation,
    every operation rounded; the sample list of frame f holds exactly
    the depths of the observations of f that are greater than zero, so
    an observation whose depth is <= 0 adds nothing; and for a frame
    whose third rotation row is (0, 0, 1), a point at positive height z
    (x and y finite) has depth z + T[2] rounded once, which is z itself
    when T[2] is zero. *)
Theorem depth_of_point (m : Model) :
  valid_tracks m →
  ∃ depths, collect_depths m = Ok depths
    ∧ (∀ image point,
         depth_of image point
         = F32.add
             (F32.add (F32.mul (image_R image !!! 6%nat) (point_x point))
                (F32.add (F32.mul (image_R image !!! 7%nat) (point_y point))
                   (F32.mul (image_R image !!! 8%nat) (point_z point))))
             (image_T image !!! 2%nat))
    ∧ (∀ f, (f < length (images m))%nat → depths !! f = Some (frame_depths m f))
    ∧ (∀ f d,
         d ∈ frame_depths m f
         ↔ ∃ point image,
             point ∈ points m ∧ Z.of_nat f ∈ point_track point
             ∧ images m !! f = Some image
             ∧ d = depth_of image point ∧ F32.ltb F32.zero d = true)
    ∧ (∀ f image point,
         images m !! f = Some image →
         F32.leb (depth_of image point) F32.zero = true →
         entry_depths (images m) f point (Z.of_nat f) = []
         ∧ depth_of image point ∉ frame_depths m f)
    ∧ (∀ image point,
         looks_down_z image →
         F32.is_finite (point_x point) = true →
         F32.is_finite (point_y point) = true →
         F32.valid (point_z point) = true →
         F32.ltb F32.zero (point_z point) = true →
         depth_of image point = F32.add (point_z point) (image_T image !!! 2%nat)
         ∧ (is_zero (image_T image !!! 2%nat) = true →
            depth_of image point = point_z point)).
Proof.
  intros Hv. destruct (collect_depths_spec m Hv) as (depths & E & _ & Hd).
  exists depths. split; [done|]. split; [done|]. split; [done|].
  split; [apply elem_of_frame_depths|]. split.
  - intros f image point Him Hle. split.
    + unfold entry_depths. rewrite decide_True, Him by done.
      destruct (F32.ltb F32.zero (depth_of image point)) eqn:Hpos; [|done].
      apply positive_not_leb in Hpos. congruence.
    + intros Hin. apply elem_of_frame_depths in Hin as (? & ? & _ & _ & _ & _ & Hpos).
      apply positive_not_leb in Hpos. congruence.
  - intros image point Hz Hx Hy Hvz Hpos.
    pose proof (positive_not_zero _ Hpos) as Hnz.
    rewrite depth_of_axis by done. split; [done|].
    intros Ht. by apply add_zero_r.
Qed.

Lemma depth_of_point_witness :
  valid_tracks (axis_model [F32.two])
  ∧ ∃ depths, collect_depths (axis_model [F32.two]) = Ok depths
    ∧ depths !! 0%nat = Some [F32.two]
    ∧ depth_of axis_frame (axis_point F32.two [0]) = F32.two.
Proof.
  split; [apply valid_tracks_axis_model|].
  destruct (depth_of_point (axis_model [F32.two]) (valid_tracks_axis_model _))
    as (depths & E & _ & Hd & _ & _ & Haxis).
  exists depths. split; [done|]. split.
  - rewrite Hd by (cbn; lia). done.
  - by apply Haxis.
Defined.

(** C3 as stated fails: for the frame with identity rotation and
    translation (0, 0, 2^-30) the point (0, 0, 1) lies on the optical
    axis at distance 1 + 2^-30, and its computed depth is 1. *)
Lemma depth_exact_counterexample :
  ¬ (∀ image point d,
       image_valid image → point_valid point →
       directly_ahead image point d →
       (F32.to_Q (depth_of image point) == d)%Q).
Proof.
  intros H.
  specialize (H offset_frame (axis_point F32.one []) (1073741825 # 1073741824)%Q).
  assert (depth_of offset_frame (axis_point F32.one []) = F32.one) as Hdepth
    by (by vm_compute).
  rewrite Hdepth in H.
  assert (¬ (F32.to_Q F32.one == 1073741825 # 1073741824)%Q) as Hne
    by (by vm_compute).
  apply Hne, H.
  - split; by repeat constructor.
  - by repeat split.
  - unfold directly_ahead. by vm_compute.
Qed.

(** *** The percentile indices *)

Lemma agree_iter (k : nat) :
  (Nat.iter k agree_step (1, true)).1 = 1 + Z.of_nat k
  ∧ ((Nat.iter k agree_step (1, true)).2 = true →
     ∀ n, 1 ≤ n < 1 + Z.of_nat k → indices_agree n = true).
Proof.
  induction k as [|k [IH1 IH2]].
  - split; [done|]. intros _ n Hn. simpl in Hn. lia.
  - rewrite Nat.iter_succ. unfold agree_step at 1 3. cbn [fst snd].
    split; [lia|]. intros H n Hn.
    apply andb_prop in H as [Hk Hlast].
    destruct (decide (n = 1 + Z.of_nat k)) as [->|Hne].
    + by rewrite <- IH1.
    + apply IH2; [done|lia].
Qed.

Lemma indices_agree_upto_spec (bound : positive) (n : Z) :
  indices_agree_upto bound = true → 1 ≤ n ≤ Zpos bound →
  indices_agree n = true.
Proof.
  unfold indices_agree_upto. rewrite Pos2Nat.inj_iter. intros H Hn.
  destruct (agree_iter (Pos.to_nat bound)) as [_ Hall].
  apply Hall; [done|lia].
Qed.

Lemma indices_agree_checked : indices_agree_upto 229400 = true.
Proof. vm_compute. reflexivity. Qed.

(** Up to 229400 samples the computed indices are those of the integer
    divisions by 100. *)
Lemma percentile_index_floor (n : nat) :
  (0 < n)%nat → Z.of_nat n < 229401 →
  percentile_index n kMinPercentile = floor_index n 1 100
  ∧ percentile_index n kMaxPercentile = floor_index n 99 100.
Proof.
  intros Hpos Hn.
  pose proof (indices_agree_upto_spec 229400 (Z.of_nat n)
                indices_agree_checked ltac:(lia)) as H.
  apply andb_prop in H as [Hlo Hhi].
  apply Z.eqb_eq in Hlo, Hhi. unfold percentile_index, floor_index.
  fold (float_index (Z.of_nat n) kMinPercentile).
  fold (float_index (Z.of_nat n) kMaxPercentile).
  rewrite Hlo, Hhi, Z.mul_1_r. done.
Qed.

Lemma depth_range_of_perm (l1 l2 : list float) :
  Forall (λ d, nonneg_float d = true ∧ 0 < xval d) l1 →
  l1 ≡ₚ l2 → depth_range_of l1 = depth_range_of l2.
Proof.
  intros Hpos Hp.
  pose proof (sort_permutation l1 l2 Hpos Hp) as Hsort.
  pose proof (Permutation_length Hp) as Hlen.
  destruct l1 as [|x1 l1], l2 as [|x2 l2]; try done.
  unfold depth_range_of. by rewrite Hsort.
Qed.

Lemma depth_range_of_1_100 :
  depth_range_of (F32.of_Z <$> seqZ 1 100) = (F32.lit 3 2, F32.of_Z 125).
Proof. by vm_compute. Qed.

Lemma staircase_valid :
  Forall (λ z, F32.valid z = true ∧ F32.ltb F32.zero z = true) staircase.
Proof. apply Forall_app. split; by apply Forall_replicate. Qed.

Lemma stretch_factors_lit :
  F32.sub F32.one kStretchRatio = F32.lit 3 4
  ∧ F32.add F32.one kStretchRatio = F32.lit 5 4.
Proof. by vm_compute. Qed.

(** C1 (amended): for a model of binary32 numbers with valid tracks and a
    frame whose sample list is non-empty with count n, the samples are
    sorted ascending and the range is (samples[i] * 0.75, samples[j] *
    1.25) in binary32 arithmetic, where i and j are the binary32
    products n * 0.01f and n * 0.99f truncated; i <= j < n; for
    n < 229401 these are the integer quotients of n by 100 and of 99 n
    by 100; a frame whose samples are 1..100 gets (1.5, 125.0); and for
    n = 1 both indices are 0. *)
Theorem depth_range_percentiles (m : Model) :
  valid_tracks m → model_valid m →
  ∃ ranges, ComputeDepthRanges m = Ok ranges
    ∧ ∀ f, (f < length (images m))%nat → frame_depths m f ≠ [] →
        let n := length (frame_depths m f) in
        let samples := sort (frame_depths m f) in
        let low_index := percentile_index n kMinPercentile in
        let high_index := percentile_index n kMaxPercentile in
        samples ≡ₚ frame_depths m f
        ∧ ascending samples = true
        ∧ (low_index ≤ high_index < n)%nat
        ∧ ranges !! f
          = Some (F32.mul (samples !!! low_index) (F32.lit 3 4),
                  F32.mul (samples !!! high_index) (F32.lit 5 4))
        ∧ (Z.of_nat n < 229401 →
           low_index = floor_index n 1 100 ∧ high_index = floor_index n 99 100)
        ∧ (frame_depths m f ≡ₚ F32.of_Z <$> seqZ 1 100 →
           ranges !! f = Some (F32.lit 3 2, F32.of_Z 125))
        ∧ (n = 1%nat → low_index = 0%nat ∧ high_index = 0%nat).
Proof.
  intros Hv Hm.
  destruct (ComputeDepthRanges_spec m Hv) as (ranges & E & _ & Hr).
  exists ranges. split; [done|]. intros f Hf Hne n samples low_index high_index.
  pose proof (frame_depths_positive m f Hm) as Hpos.
  assert (0 < n)%nat as Hn.
  { unfold n. destruct (frame_depths m f); [done|]. cbn [length]. lia. }
  split; [apply sort_perm|]. split.
  { apply sorted_ascending.
    - unfold samples. rewrite sort_perm.
      eapply Forall_impl; [exact Hpos|]. by intros y [? _].
    - apply sort_sorted. eapply Forall_impl; [exact Hpos|]. by intros y [? _]. }
  split; [by apply percentile_index_bounds|]. split.
  { rewrite (Hr f Hf). f_equal. unfold depth_range_of.
    destruct (frame_depths m f) as [|d l] eqn:Ed; [done|].
    destruct stretch_factors_lit as [-> ->].
    fold samples. unfold samples at 1 3. rewrite sort_length. done. }
  split; [by apply percentile_index_floor|]. split.
  - intros Hp. rewrite (Hr f Hf).
    by rewrite (depth_range_of_perm _ _ Hpos Hp), depth_range_of_1_100.
  - unfold low_index, high_index. by intros ->.
Qed.

Lemma depth_range_percentiles_witness :
  valid_tracks (axis_model [F32.of_Z 3; F32.one; F32.two])
  ∧ model_valid (axis_model [F32.of_Z 3; F32.one; F32.two])
  ∧ ∃ ranges,
      ComputeDepthRanges (axis_model [F32.of_Z 3; F32.one; F32.two]) = Ok ranges
      ∧ ranges !! 0%nat
        = Some (F32.mul F32.one (F32.lit 3 4), F32.mul (F32.of_Z 3) (F32.lit 5 4)).
Proof.
  split; [apply valid_tracks_axis_model|].
  split; [apply model_valid_axis_model; by repeat constructor|].
  destruct (depth_range_percentiles (axis_model [F32.of_Z 3; F32.one; F32.two]))
    as (ranges & E & Hr).
  - apply valid_tracks_axis_model.
  - apply model_valid_axis_model. by repeat constructor.
  - exists ranges. split; [done|].
    assert (frame_depths (axis_model [F32.of_Z 3; F32.one; F32.two]) 0
            = [F32.of_Z 3; F32.one; F32.two]) as Hd.
    { apply frame_depths_axis_model. by repeat constructor. }
    destruct (Hr 0%nat) as (_ & _ & _ & H0 & _).
    + cbn. lia.
    + by rewrite Hd.
    + rewrite H0, Hd. reflexivity.
Defined.

(** C1 as stated fails: with the 229401 samples of [staircase] the
    computed upper index is 227107, one more than the quotient of
    99 * 229401 by 100, and the range is (0.75, 2.5), not (0.75, 1.25). *)
Lemma floor_index_counterexample :
  ¬ (∀ m f,
       valid_tracks m → model_valid m → frame_depths m f ≠ [] →
       ∃ ranges, ComputeDepthRanges m = Ok ranges
         ∧ ranges !! f
           = Some (F32.mul (sort (frame_depths m f)
                              !!! floor_index (length (frame_depths m f)) 1 100)
                     (F32.lit 3 4),
                   F32.mul (sort (frame_depths m f)
                              !!! floor_index (length (frame_depths m f)) 99 100)
                     (F32.lit 5 4))).
Proof.
  intros H.
  assert (frame_depths (axis_model staircase) 0 = staircase) as Hd
    by apply frame_depths_axis_model, staircase_valid.
  destruct (H (axis_model staircase) 0%nat) as (ranges & E & Hf).
  - apply valid_tracks_axis_model.
  - apply model_valid_axis_model.
    eapply Forall_impl; [exact staircase_valid|]. by intros z [? _].
  - rewrite Hd. intros Hnil. apply (f_equal length) in Hnil.
    unfold staircase in Hnil.
    rewrite length_app, !length_replicate in Hnil. cbn [length] in Hnil. lia.
  - destruct (ComputeDepthRanges_spec (axis_model staircase)
                (valid_tracks_axis_model _)) as (ranges' & E' & _ & Hr).
    rewrite E in E'. injection E' as <-.
    rewrite (Hr 0%nat) in Hf by (cbn; lia). rewrite Hd in Hf.
    revert Hf.
    assert (length staircase = Z.to_nat 229401) as ->.
    { unfold staircase. rewrite length_app, !length_replicate. lia. }
    vm_compute. discriminate.
Qed.

(** * Further properties *)

(** ** Loops that may throw *)

(** A loop whose body returns on the good elements, keeping an
    invariant, and throws on the others: it returns when all elements
    are good and throws otherwise. *)
Lemma for_each_cases {S A : Type} (inv : S → Prop) (good : A → Prop)
    `{!∀ x, Decision (good x)} (body : A → S → outcome S) (l : list A) (s : S) :
  (∀ x s, x ∈ l → inv s →
     (good x → ∃ s', body x s = Ok s' ∧ inv s')
     ∧ (¬ good x → body x s = Thrown)) →
  inv s →
  (Forall good l → ∃ s', for_each body l s = Ok s' ∧ inv s')
  ∧ (¬ Forall good l → for_each body l s = Thrown).
Proof.
  revert s. induction l as [|x l IH]; intros s Hbody Hinv.
  - split; [by exists s|]. intros Hnot. destruct Hnot. constructor.
  - destruct (Hbody x s ltac:(left) Hinv) as [Hgood Hbad]. cbn [for_each].
    destruct (decide (good x)) as [Hx|Hx].
    + destruct (Hgood Hx) as (s' & -> & Hinv'). cbn.
      destruct (IH s') as [IHok IHthrow]; [|done|].
      { intros y s'' Hy. apply Hbody. by right. }
      split.
      * intros Hall. apply Forall_cons in Hall as [_ Hall]. by apply IHok.
      * intros Hnot. apply IHthrow. intros Hall. apply Hnot. by constructor.
    + rewrite (Hbad Hx). split; [|done].
      intros Hall. by apply Forall_cons in Hall as [? _].
Qed.

(** ** [ComputeDepthRanges] on tracks that are not valid *)

Lemma add_depth_cases (imgs : list Image) (point : Point) (image_id : Z)
    (depths : list (list float)) :
  (0 ≤ image_id < Z.of_nat (length imgs) →
   ∃ depths', add_depth imgs point image_id depths = Ok depths')
  ∧ (¬ (0 ≤ image_id < Z.of_nat (length imgs)) →
     add_depth imgs point image_id depths = Thrown).
Proof.
  unfold add_depth, vector_at. split.
  - intros Hid. destruct (Z.leb_spec 0 image_id); [|lia].
    destruct (imgs !! Z.to_nat image_id) as [image|] eqn:E.
    + cbn. destruct (F32.ltb _ _); by eexists.
    + apply lookup_ge_None in E. lia.
  - intros Hid. destruct (Z.leb_spec 0 image_id); [|done].
    destruct (imgs !! Z.to_nat image_id) as [image|] eqn:E; [|done].
    apply lookup_lt_Some in E. lia.
Qed.

Lemma collect_depths_cases (m : Model) :
  (valid_tracks m → ∃ depths, collect_depths m = Ok depths)
  ∧ (¬ valid_tracks m → collect_depths m = Thrown).
Proof.
  unfold collect_depths, valid_tracks.
  destruct (for_each_cases (λ _ : list (list float), True)
              (λ point, Forall (λ image_id, 0 ≤ image_id < Z.of_nat (length (images m)))
                               (point_track point))
              (λ point depths,
                 for_each (add_depth (images m) point) (point_track point) depths)
              (points m) (replicate (length (images m)) [])) as [Hok Hthrow];
    [|done|].
  - intros point depths _ _.
    destruct (for_each_cases (λ _ : list (list float), True)
                (λ image_id, 0 ≤ image_id < Z.of_nat (length (images m)))
                (add_depth (images m) point) (point_track point) depths)
      as [Hok Hthrow]; [|done|].
    + intros image_id depths' _ _.
      destruct (add_depth_cases (images m) point image_id depths') as [H1 H2].
      split; [|done]. intros Hid. destruct (H1 Hid) as [d ->]. by exists d.
    + split; [|done]. intros H. destruct (Hok H) as (d & -> & _). by exists d.
  - split; [|done]. intros H. destruct (Hok H) as (d & -> & _). by exists d.
Qed.

(** X12: [ComputeDepthRanges] returns exactly when every track entry is a
    frame index, with one range per frame; on any other model the
    lookup [images.at(image_id)] throws. *)
Theorem ComputeDepthRanges_throws (m : Model) :
  (valid_tracks m
   ↔ ∃ ranges, ComputeDepthRanges m = Ok ranges
               ∧ length ranges = length (images m))
  ∧ (¬ valid_tracks m ↔ ComputeDepthRanges m = Thrown).
Proof.
  destruct (collect_depths_cases m) as [Hok Hthrow].
  assert (¬ valid_tracks m → ComputeDepthRanges m = Thrown) as Hthrow'.
  { intros H. unfold ComputeDepthRanges. by rewrite (Hthrow H). }
  destruct (decide (valid_tracks m)) as [Hv|Hv].
  - destruct (ComputeDepthRanges_spec m Hv) as (ranges & E & Hl & _).
    split; split; try done.
    + intros _. by exists ranges.
    + rewrite E. done.
  - split; split; try done.
    intros (ranges & E & _). rewrite (Hthrow' Hv) in E. done.
Qed.

(** ** [ComputeSharedPoints] on tracks that are not valid *)

Lemma increment_cases (n : nat) (a b : Z) (sp : list (gmap Z Z)) :
  length sp = n →
  (0 ≤ a < Z.of_nat n → ∃ sp', increment a b sp = Ok sp' ∧ length sp' = n)
  ∧ (¬ (0 ≤ a < Z.of_nat n) → increment a b sp = Thrown).
Proof.
  intros Hlen. unfold increment, vector_at. split.
  - intros Ha. destruct (Z.leb_spec 0 a); [|lia].
    destruct (sp !! Z.to_nat a) as [counts|] eqn:E.
    + cbn. eexists. split; [done|]. by rewrite length_insert.
    + apply lookup_ge_None in E. lia.
  - intros Ha. destruct (Z.leb_spec 0 a); [|done].
    destruct (sp !! Z.to_nat a) as [counts|] eqn:E; [|done].
    apply lookup_lt_Some in E. lia.
Qed.

Lemma share_pair_cases (n : nat) (a b : Z) (sp : list (gmap Z Z)) :
  length sp = n →
  (pair_ok n a b → ∃ sp', share_pair a b sp = Ok sp' ∧ length sp' = n)
  ∧ (¬ pair_ok n a b → share_pair a b sp = Thrown).
Proof.
  intros Hlen. unfold share_pair, pair_ok.
  destruct (decide (a ≠ b)) as [Hne|Heq].
  - destruct (increment_cases n a b sp Hlen) as [Ha Ha'].
    destruct (decide (0 ≤ a < Z.of_nat n)) as [Hin|Hout].
    + destruct (Ha Hin) as (sp1 & -> & Hlen1). cbn.
      destruct (increment_cases n b a sp1 Hlen1) as [Hb Hb'].
      split.
      * intros [?|[_ Hbin]]; [done|]. by apply Hb.
      * intros Hnot. apply Hb'. intros Hbin. apply Hnot. by right.
    + rewrite (Ha' Hout). split; [|done]. intros [?|[? _]]; done.
  - split; [|intros Hnot; destruct Hnot; left; by destruct (decide (a = b))].
    intros _. by exists sp.
Qed.

Lemma share_track_cases (n : nat) (track : list Z) (sp : list (gmap Z Z)) :
  length sp = n →
  (positions_ok n track → ∃ sp', share_track track sp = Ok sp' ∧ length sp' = n)
  ∧ (¬ positions_ok n track → share_track track sp = Thrown).
Proof.
  intros Hlen. unfold share_track, positions_ok.
  apply (for_each_cases (λ sp, length sp = n)
           (λ i, Forall (λ j, pair_ok n (track !!! i) (track !!! j)) (seq 0 i)));
    [|done].
  intros i sp1 _ Hlen1.
  apply (for_each_cases (λ sp, length sp = n)
           (λ j, pair_ok n (track !!! i) (track !!! j))); [|done].
  intros j sp2 _ Hlen2. by apply share_pair_cases.
Qed.

Lemma pair_ok_sym (n : nat) (a b : Z) : pair_ok n a b → pair_ok n b a.
Proof. intros [->|[? ?]]; [by left|by right]. Qed.

Lemma positions_ok_elements (n : nat) (track : list Z) :
  positions_ok n track ↔ ∀ a b, a ∈ track → b ∈ track → pair_ok n a b.
Proof.
  unfold positions_ok. rewrite Forall_forall. split.
  - intros H a b Ha Hb.
    apply list_elem_of_lookup in Ha as [i Hi]. apply list_elem_of_lookup in Hb as [j Hj].
    pose proof (lookup_lt_Some _ _ _ Hi). pose proof (lookup_lt_Some _ _ _ Hj).
    destruct (Nat.lt_trichotomy i j) as [Hlt|[->|Hlt]].
    + specialize (H j). rewrite elem_of_seq in H. specialize (H ltac:(lia)).
      rewrite Forall_forall in H. specialize (H i).
      rewrite elem_of_seq in H. specialize (H ltac:(lia)).
      rewrite (list_lookup_total_correct _ _ _ Hi) in H.
      rewrite (list_lookup_total_correct _ _ _ Hj) in H. by apply pair_ok_sym.
    + left. congruence.
    + specialize (H i). rewrite elem_of_seq in H. specialize (H ltac:(lia)).
      rewrite Forall_forall in H. specialize (H j).
      rewrite elem_of_seq in H. specialize (H ltac:(lia)).
      rewrite (list_lookup_total_correct _ _ _ Hi) in H.
      by rewrite (list_lookup_total_correct _ _ _ Hj) in H.
  - intros H i Hi. apply elem_of_seq in Hi. apply Forall_forall. intros j Hj.
    apply elem_of_seq in Hj. apply H; apply list_elem_of_lookup_total_2; lia.
Qed.

Lemma positions_ok_tolerated (n : nat) (track : list Z) :
  positions_ok n track ↔ track_tolerated n track.
Proof.
  rewrite positions_ok_elements. unfold track_tolerated. split.
  - intros H.
    destruct (decide (Forall (λ id, 0 ≤ id < Z.of_nat n) track)) as [Hv|Hv];
      [by left|right].
    apply not_Forall_Exists in Hv; [|apply _].
    apply Exists_exists in Hv as (x & Hx & Hbad). exists x.
    apply Forall_forall. intros y Hy.
    destruct (H x y Hx Hy) as [->|[? _]]; done.
  - intros [Hv|[x Hx]] a b Ha Hb.
    + rewrite Forall_forall in Hv. right. split; by apply Hv.
    + rewrite Forall_forall in Hx. left. by rewrite (Hx a Ha), (Hx b Hb).
Qed.

(** X15: [ComputeSharedPoints] returns exactly when every track holds frame
    indices only or one number only: a track with two different entries
    of which one is not a frame index makes [shared_points.at] throw,
    while an entry that is not a frame index goes unnoticed in a track
    that holds nothing else. *)
Theorem ComputeSharedPoints_throws (m : Model) :
  (Forall (λ point, track_tolerated (length (images m)) (point_track point))
          (points m)
   ↔ ∃ sp, ComputeSharedPoints m = Ok sp ∧ length sp = length (images m))
  ∧ (¬ Forall (λ point, track_tolerated (length (images m)) (point_track point))
              (points m)
     ↔ ComputeSharedPoints m = Thrown).
Proof.
  assert (Forall (λ point, track_tolerated (length (images m)) (point_track point))
                 (points m)
          ↔ Forall (λ point, positions_ok (length (images m)) (point_track point))
                   (points m)) as Hiff.
  { apply Forall_iff. intros point. symmetry. apply positions_ok_tolerated. }
  rewrite Hiff. unfold ComputeSharedPoints.
  destruct (for_each_cases (λ sp, length sp = length (images m))
              (λ point, positions_ok (length (images m)) (point_track point))
              (λ point, share_track (point_track point))
              (points m) (replicate (length (images m)) ∅)) as [Hok Hthrow].
  - intros point sp _ Hlen. by apply share_track_cases.
  - by rewrite length_replicate.
  - destruct (decide (Forall (λ point, positions_ok (length (images m))
                                         (point_track point)) (points m)))
      as [Hv|Hv].
    + destruct (Hok Hv) as (sp & E & Hlen). rewrite E.
      split; split; try done. intros _. by exists sp.
    + rewrite (Hthrow Hv). split; split; try done.
      by intros (sp & ? & _).
Qed.

(** ** The table of [ComputeSharedPoints] *)

Lemma pair_count_comm (pts : list Point) (a b : Z) :
  pair_count pts a b = pair_count pts b a.
Proof. induction pts as [|p pts IH]; [done|]. simpl. rewrite IH. lia. Qed.

Lemma pair_count_nonneg (pts : list Point) (a b : Z) : 0 ≤ pair_count pts a b.
Proof.
  induction pts as [|p pts IH]; [done|]. simpl.
  pose proof (occurrences_nonneg a (point_track p)).
  pose proof (occurrences_nonneg b (point_track p)). nia.
Qed.

Lemma occurrences_elem (a : Z) (t : list Z) : a ∈ t ↔ 0 < occurrences a t.
Proof.
  split.
  - induction 1 as [x t|x y t _ IH]; rewrite occurrences_cons.
    + pose proof (occurrences_nonneg x t). rewrite decide_True by done. lia.
    + case_decide; lia.
  - intros Hpos. destruct (decide (a ∈ t)) as [|Hn]; [done|].
    rewrite occurrences_not_elem in Hpos by done. lia.
Qed.

Lemma pair_count_pos (pts : list Point) (a b : Z) :
  0 < pair_count pts a b
  ↔ ∃ point, point ∈ pts ∧ a ∈ point_track point ∧ b ∈ point_track point.
Proof.
  induction pts as [|p pts IH].
  - simpl. split; [lia|]. intros (? & H & _). by apply elem_of_nil in H.
  - cbn [pair_count foldr]. fold (pair_count pts a b).
    pose proof (pair_count_nonneg pts a b).
    pose proof (occurrences_nonneg a (point_track p)).
    pose proof (occurrences_nonneg b (point_track p)).
    split.
    + intros Hpos.
      destruct (decide (0 < occurrences a (point_track p) * occurrences b (point_track p)))
        as [Hp|Hp].
      * exists p. split; [by left|]. rewrite !occurrences_elem. nia.
      * destruct IH as [IH _]. destruct IH as (q & Hq & Hab); [nia|].
        exists q. split; [by right|done].
    + intros (q & Hq & Ha & Hb). apply elem_of_cons in Hq as [->|Hq].
      * apply occurrences_elem in Ha, Hb. nia.
      * destruct IH as [_ IH]. specialize (IH ltac:(by exists q)). nia.
Qed.

Lemma pair_count_common (pts : list Point) (a b : Z) :
  Forall (λ point, NoDup (point_track point)) pts →
  pair_count pts a b = common_points pts a b.
Proof.
  unfold common_points. induction 1 as [|p pts Hnd _ IH]; [done|].
  cbn [pair_count foldr]. fold (pair_count pts a b). rewrite IH, filter_cons.
  destruct (decide (a ∈ point_track p ∧ b ∈ point_track p)) as [[Ha Hb]|Hn].
  - rewrite !occurrences_NoDup by done. cbn [length]. lia.
  - destruct (decide (a ∈ point_track p)) as [Ha|Ha].
    + rewrite (occurrences_not_elem b) by tauto. lia.
    + rewrite (occurrences_not_elem a) by done. lia.
Qed.

Lemma pair_count_perm (pts mid pts' : list Point) (a b : Z) :
  pts ≡ₚ mid →
  Forall2 (λ p p', point_track p ≡ₚ point_track p') mid pts' →
  pair_count pts a b = pair_count pts' a b.
Proof.
  intros Hp Hf. transitivity (pair_count mid a b).
  - clear Hf. induction Hp as [|p l1 l2 _ IH|p q l|l1 l2 l3 _ IH1 _ IH2];
      simpl; lia.
  - clear Hp. induction Hf as [|p p' l l' Hpp _ IH]; [done|]. simpl.
    fold (pair_count l a b). fold (pair_count l' a b). rewrite IH.
    unfold occurrences. by rewrite Hpp.
Qed.

(** Two tables that hold the same counts are the same table. *)
Lemma shared_points_eq (n : nat) (sp sp' : list (gmap Z Z)) :
  counts_ok n sp → counts_ok n sp' →
  (∀ a b, 0 ≤ a → shared_count sp a b = shared_count sp' a b) →
  sp = sp'.
Proof.
  intros Hok Hok' Heq. apply list_eq. intros i.
  destruct (sp !! i) as [c|] eqn:E, (sp' !! i) as [c'|] eqn:E'.
  - f_equal. apply map_eq. intros b.
    pose proof (shared_count_stored n sp (Z.of_nat i) b Hok) as H.
    pose proof (shared_count_stored n sp' (Z.of_nat i) b Hok') as H'.
    unfold shared_entry in H, H'. rewrite Nat2Z.id in H, H'.
    rewrite E in H. rewrite E' in H'. cbn in H, H'.
    rewrite H, H', Heq by lia. done.
  - apply lookup_lt_Some in E. apply lookup_ge_None in E'.
    destruct Hok as [? _], Hok' as [? _]. lia.
  - apply lookup_lt_Some in E'. apply lookup_ge_None in E.
    destruct Hok as [? _], Hok' as [? _]. lia.
  - done.
Qed.

Lemma counts_fit_int_points (m : Model) :
  Forall (λ point, NoDup (point_track point)) (points m) →
  Z.of_nat (length (points m)) ≤ int_max →
  counts_fit_int m.
Proof.
  intros Hnd Hle a b _. rewrite pair_count_common by done.
  unfold common_points. pose proof (length_filter
    (λ point, a ∈ point_track point ∧ b ∈ point_track point) (points m)). lia.
Qed.

(** X16: the table is symmetric, has one map per frame, no entry of a frame
    with itself, and an entry for [b] in the map of [a] exactly when
    some point is observed by both; when no count exceeds [INT_MAX], no
    stored count is zero. *)
Theorem ComputeSharedPoints_symmetric (m : Model) :
  valid_tracks m →
  ∃ sp, ComputeSharedPoints m = Ok sp
    ∧ length sp = length (images m)
    ∧ (∀ a b, 0 ≤ a → 0 ≤ b →
        shared_entry sp a b = shared_entry sp b a
        ∧ (is_Some (shared_entry sp a b)
           ↔ a ≠ b ∧ ∃ point, point ∈ points m
                              ∧ a ∈ point_track point ∧ b ∈ point_track point))
    ∧ (counts_fit_int m →
       ∀ a b, 0 ≤ a → 0 ≤ b → shared_entry sp a b ≠ Some 0).
Proof.
  intros Hv. destruct (ComputeSharedPoints_spec m Hv) as (sp & E & Hok & Hc).
  exists (wrap_table sp). split; [done|].
  split; [rewrite length_wrap_table; apply Hok|]. split.
  - intros a b Ha Hb. rewrite !shared_entry_wrap.
    rewrite !(shared_count_stored _ _ _ _ Hok), !Hc by done.
    pose proof (pair_count_nonneg (points m) a b).
    split.
    + destruct (decide (a = b)) as [->|Hne]; [by rewrite decide_True|].
      rewrite (decide_False (P := b = a)) by done. by rewrite pair_count_comm.
    + rewrite fmap_is_Some, <- pair_count_pos. unfold stored.
      destruct (decide (a = b)) as [->|Hne].
      * rewrite decide_True by done. split; [by intros [? ?]|by intros [? _]].
      * case_decide as H0.
        -- split; [by intros [? ?]|]. intros [_ ?]. lia.
        -- split; [|by eexists]. intros _. split; [done|lia].
  - intros Hfit a b Ha Hb. rewrite (wrap_table_fit _ sp Hok).
    + rewrite (shared_count_stored _ _ _ _ Hok). unfold stored.
      case_decide; [done|]. congruence.
    + intros x y Hx. rewrite Hc by done. case_decide; [done|]. by apply Hfit.
Qed.

Lemma ComputeSharedPoints_symmetric_witness :
  valid_tracks (add_point (axis_point F32.one [0; 2]) (frames_only 3))
  ∧ counts_fit_int (add_point (axis_point F32.one [0; 2]) (frames_only 3))
  ∧ ∃ sp, ComputeSharedPoints (add_point (axis_point F32.one [0; 2]) (frames_only 3))
          = Ok sp
    ∧ shared_entry sp 2 0 = shared_entry sp 0 2
    ∧ is_Some (shared_entry sp 0 2)
    ∧ ¬ is_Some (shared_entry sp 0 1)
    ∧ shared_entry sp 0 2 ≠ Some 0.
Proof.
  assert (H : valid_tracks (add_point (axis_point F32.one [0; 2]) (frames_only 3))).
  { unfold valid_tracks. simpl. repeat constructor; lia. }
  assert (Hfit : counts_fit_int (add_point (axis_point F32.one [0; 2]) (frames_only 3))).
  { apply counts_fit_int_tracks. vm_compute. discriminate. }
  split; [exact H|]. split; [exact Hfit|].
  destruct (ComputeSharedPoints_symmetric _ H) as (sp & E & _ & Hsp & Hnz).
  exists sp. split; [exact E|].
  destruct (Hsp 2 0 ltac:(lia) ltac:(lia)) as (Hsym & _).
  destruct (Hsp 0 2 ltac:(lia) ltac:(lia)) as (_ & H02).
  destruct (Hsp 0 1 ltac:(lia) ltac:(lia)) as (_ & H01).
  split; [exact Hsym|]. split; [|split].
  - apply H02. split; [lia|].
    exists (axis_point F32.one [0; 2]). simpl. set_solver.
  - intros Hs. apply H01 in Hs as (_ & point & Hp & _ & H1).
    simpl in Hp. apply list_elem_of_singleton in Hp as ->. simpl in H1.
    set_solver.
  - apply (Hnz Hfit); lia.
Defined.

(** X17: when no track names a frame twice and the number of points does
    not exceed [INT_MAX], [shared_points[a][b]] is the number of points
    that frames [a] and [b] both observe. *)
Theorem ComputeSharedPoints_common_points (m : Model) :
  valid_tracks m →
  Forall (λ point, NoDup (point_track point)) (points m) →
  Z.of_nat (length (points m)) ≤ int_max →
  ∃ sp, ComputeSharedPoints m = Ok sp
    ∧ ∀ a b, 0 ≤ a → a ≠ b →
        shared_count sp a b = common_points (points m) a b
        ∧ shared_count sp a b ≤ Z.of_nat (length (points m)).
Proof.
  intros Hv Hnd Hle.
  destruct (ComputeSharedPoints_fit_spec m Hv (counts_fit_int_points m Hnd Hle))
    as (sp & E & Hok & Hc).
  exists sp. split; [done|]. intros a b Ha Hne.
  rewrite Hc, decide_False, pair_count_common by done. split; [done|].
  unfold common_points. pose proof (length_filter
    (λ point, a ∈ point_track point ∧ b ∈ point_track point) (points m)). lia.
Qed.

Lemma ComputeSharedPoints_common_points_witness :
  valid_tracks (add_point (axis_point F32.one [0; 2]) (frames_only 3))
  ∧ Forall (λ point, NoDup (point_track point))
           (points (add_point (axis_point F32.one [0; 2]) (frames_only 3)))
  ∧ Z.of_nat (length (points (add_point (axis_point F32.one [0; 2]) (frames_only 3))))
    ≤ int_max
  ∧ ∃ sp, ComputeSharedPoints (add_point (axis_point F32.one [0; 2]) (frames_only 3))
          = Ok sp
    ∧ shared_count sp 0 2 = 1.
Proof.
  assert (H : valid_tracks (add_point (axis_point F32.one [0; 2]) (frames_only 3))).
  { unfold valid_tracks. simpl. repeat constructor; lia. }
  assert (Hnd : Forall (λ point, NoDup (point_track point))
                  (points (add_point (axis_point F32.one [0; 2]) (frames_only 3)))).
  { simpl. repeat constructor; set_solver. }
  assert (Hle : Z.of_nat (length (points (add_point (axis_point F32.one [0; 2])
                                            (frames_only 3)))) ≤ int_max).
  { vm_compute. discriminate. }
  split; [exact H|]. split; [exact Hnd|]. split; [exact Hle|].
  destruct (ComputeSharedPoints_common_points _ H Hnd Hle) as (sp & E & Hsp).
  exists sp. split; [exact E|].
  destruct (Hsp 0 2 ltac:(lia) ltac:(lia)) as [-> _]. reflexivity.
Defined.

(** X18: the table depends neither on the order of the points nor on the
    order of the entries within a track. *)
Theorem ComputeSharedPoints_order (m m' : Model) (mid : list Point) :
  valid_tracks m →
  length (images m') = length (images m) →
  points m ≡ₚ mid →
  Forall2 (λ p p', point_track p ≡ₚ point_track p') mid (points m') →
  ComputeSharedPoints m' = ComputeSharedPoints m.
Proof.
  intros Hv Hlen Hp Hf.
  assert (valid_tracks m') as Hv'.
  { unfold valid_tracks in *. rewrite Hlen. rewrite Hp in Hv. clear Hp.
    induction Hf as [|p p' l l' Hpp _ IH]; [done|].
    apply Forall_cons in Hv as [Hh Ht]. constructor; [|by apply IH].
    by rewrite <- Hpp. }
  destruct (ComputeSharedPoints_spec m Hv) as (sp & E & Hok & Hc).
  destruct (ComputeSharedPoints_spec m' Hv') as (sp' & E' & Hok' & Hc').
  rewrite E, E'. do 2 f_equal. rewrite Hlen in Hok'.
  apply (shared_points_eq _ _ _ Hok' Hok). intros a b Ha.
  rewrite Hc, Hc' by done. case_decide; [done|].
  symmetry. by eapply pair_count_perm.
Qed.

Lemma ComputeSharedPoints_order_witness :
  ComputeSharedPoints
    (add_point (axis_point F32.one [2; 1])
       (add_point (axis_point F32.two [1; 0]) (frames_only 3)))
  = ComputeSharedPoints
      (add_point (axis_point F32.two [0; 1])
         (add_point (axis_point F32.one [1; 2]) (frames_only 3))).
Proof.
  apply (ComputeSharedPoints_order _ _
           [axis_point F32.two [0; 1]; axis_point F32.one [1; 2]]).
  - unfold valid_tracks. simpl. repeat constructor; lia.
  - reflexivity.
  - simpl. apply Permutation_swap.
  - simpl. repeat constructor; simpl; apply Permutation_swap.
Defined.

(** ** The ranges of [ComputeDepthRanges] *)

Lemma frame_depths_perm (m m' : Model) (f : nat) :
  images m' = images m → points m' ≡ₚ points m →
  frame_depths m' f ≡ₚ frame_depths m f.
Proof. intros Hi Hp. unfold frame_depths. by rewrite Hi, Hp. Qed.

(** X13: the ranges do not depend on the order of the points. *)
Theorem ComputeDepthRanges_point_order (m m' : Model) :
  valid_tracks m → model_valid m →
  images m' = images m → points m' ≡ₚ points m →
  ComputeDepthRanges m' = ComputeDepthRanges m.
Proof.
  intros Hv Hm Hi Hp.
  assert (valid_tracks m') as Hv'.
  { unfold valid_tracks in *. by rewrite Hi, Hp. }
  assert (model_valid m') as Hm'.
  { destruct Hm as [? ?]. split; [by rewrite Hi|by rewrite Hp]. }
  destruct (ComputeDepthRanges_spec m Hv) as (ranges & E & Hl & Hr).
  destruct (ComputeDepthRanges_spec m' Hv') as (ranges' & E' & Hl' & Hr').
  rewrite E, E'. f_equal. rewrite Hi in Hl', Hr'. apply list_eq. intros f.
  destruct (decide (f < length (images m))%nat) as [Hf|Hf].
  - rewrite Hr, Hr' by done. f_equal.
    apply depth_range_of_perm; [by apply frame_depths_positive|].
    by apply frame_depths_perm.
  - rewrite !(proj2 (lookup_ge_None _ _)) by lia. done.
Qed.

Lemma ComputeDepthRanges_point_order_witness :
  ComputeDepthRanges (axis_model [F32.two; F32.one])
  = ComputeDepthRanges (axis_model [F32.one; F32.two]).
Proof.
  apply ComputeDepthRanges_point_order.
  - apply valid_tracks_axis_model.
  - apply model_valid_axis_model. by repeat constructor.
  - reflexivity.
  - simpl. apply Permutation_swap.
Defined.

(** X14: with fewer than a hundred samples nothing is cut off: the lower
    index is 0 and the upper one the last, so the range starts at 0.75
    times the smallest sample, ends at 1.25 times the largest, and
    contains every sample of the frame. *)
Theorem depth_range_small_frame (m : Model) :
  valid_tracks m → model_valid m →
  ∃ ranges, ComputeDepthRanges m = Ok ranges
    ∧ ∀ f, (f < length (images m))%nat →
        (0 < length (frame_depths m f) < 100)%nat →
        ∃ smallest largest,
          smallest ∈ frame_depths m f ∧ largest ∈ frame_depths m f
          ∧ ranges !! f = Some (F32.mul smallest (F32.lit 3 4),
                                F32.mul largest (F32.lit 5 4))
          ∧ ∀ d, d ∈ frame_depths m f →
              F32.leb smallest d = true ∧ F32.leb d largest = true
              ∧ F32.leb (F32.mul smallest (F32.lit 3 4)) d = true
              ∧ F32.leb d (F32.mul largest (F32.lit 5 4)) = true.
Proof.
  intros Hv Hm.
  destruct (ComputeDepthRanges_spec m Hv) as (ranges & E & _ & Hr).
  exists ranges. split; [done|]. intros f Hf Hn.
  pose proof (frame_depths_positive m f Hm) as Hpos.
  set (samples := frame_depths m f) in *.
  assert (samples ≠ []) as Hne by (intros H0; rewrite H0 in Hn; simpl in Hn; lia).
  destruct (depth_range_of_samples samples Hne Hpos)
    as (smallest & largest & Hlo & Hhi & Hin1 & Hin2 & _ & Hrange).
  destruct (percentile_index_floor (length samples)) as [Hi0 Hi1]; [lia|lia|].
  rewrite Hi0 in Hlo. rewrite Hi1 in Hhi. unfold floor_index in Hlo, Hhi.
  rewrite Z.mul_1_r, Z.div_small in Hlo by lia.
  rewrite <- (Z.div_unique (Z.of_nat (length samples) * 99) 100
                (Z.of_nat (length samples) - 1)
                (100 - Z.of_nat (length samples))) in Hhi by lia.
  replace (Z.to_nat (Z.of_nat (length samples) - 1))
    with (length samples - 1)%nat in Hhi by lia.
  change (Z.to_nat 0) with 0%nat in Hlo.
  exists smallest, largest. split; [done|]. split; [done|]. split.
  { rewrite (Hr f Hf). fold samples. rewrite Hrange.
    by destruct stretch_factors_lit as [-> ->]. }
  assert (StronglySorted (λ a b, xval a ≤ xval b) (sort samples)) as Hsorted.
  { apply sort_sorted. eapply Forall_impl; [exact Hpos|]. by intros y [? _]. }
  rewrite Forall_forall in Hpos.
  destruct (Hpos _ Hin1) as [Hn1 Hp1]. destruct (Hpos _ Hin2) as [Hn2 Hp2].
  destruct (stretch_down smallest Hn1 Hp1) as (Hln & _ & Hlf).
  destruct (stretch_up largest Hn2 Hp2) as (Hhn & Hsh).
  destruct stretch_factors_lit as [Ea Eb]. rewrite Ea in Hln, Hlf.
  rewrite Eb in Hhn, Hsh.
  intros d Hd. destruct (Hpos _ Hd) as [Hnd _].
  rewrite <- (sort_perm samples) in Hd.
  apply list_elem_of_lookup in Hd as [k Hk].
  pose proof (lookup_lt_Some _ _ _ Hk) as Hklt. rewrite sort_length in Hklt.
  pose proof (sorted_lookup_le _ 0 k _ _ Hsorted ltac:(lia) Hlo Hk).
  pose proof (sorted_lookup_le _ k (length samples - 1) _ _ Hsorted ltac:(lia) Hk Hhi).
  rewrite !leb_xval by done. rewrite !Z.leb_le. lia.
Qed.

Lemma depth_range_small_frame_witness :
  valid_tracks (axis_model [F32.two; F32.one])
  ∧ model_valid (axis_model [F32.two; F32.one])
  ∧ ∃ ranges, ComputeDepthRanges (axis_model [F32.two; F32.one]) = Ok ranges
    ∧ ∃ smallest largest,
        ranges !! 0%nat = Some (F32.mul smallest (F32.lit 3 4),
                                F32.mul largest (F32.lit 5 4))
        ∧ F32.leb smallest F32.one = true ∧ F32.leb F32.two largest = true.
Proof.
  assert (frame_depths (axis_model [F32.two; F32.one]) 0 = [F32.two; F32.one]) as Hd.
  { apply frame_depths_axis_model. by repeat constructor. }
  split; [apply valid_tracks_axis_model|].
  split; [apply model_valid_axis_model; by repeat constructor|].
  destruct (depth_range_small_frame (axis_model [F32.two; F32.one]))
    as (ranges & E & Hr).
  - apply valid_tracks_axis_model.
  - apply model_valid_axis_model. by repeat constructor.
  - exists ranges. split; [exact E|].
    destruct (Hr 0%nat) as (smallest & largest & _ & _ & H0 & Hall).
    + simpl. lia.
    + rewrite Hd. simpl. lia.
    + exists smallest, largest. split; [exact H0|]. rewrite Hd in Hall. split.
      * apply (Hall F32.one). set_solver.
      * apply (Hall F32.two). set_solver.
Defined.

(** ** The lookups *)

(** X1: [GetImageName] returns the name at the index when the index is one
    of the name list and aborts otherwise; [image_names_.at] never
    throws, the two checks come first. *)
Theorem GetImageName_bounds (m : Model) (image_id : Z) :
  (0 ≤ image_id < Z.of_nat (length (image_names_ m))
   ↔ ∃ name, GetImageName m image_id = Ok name
             ∧ image_names_ m !! Z.to_nat image_id = Some name)
  ∧ (¬ (0 ≤ image_id < Z.of_nat (length (image_names_ m)))
     ↔ GetImageName m image_id = Fatal)
  ∧ GetImageName m image_id ≠ Thrown.
Proof.
  unfold GetImageName, int_lt_size, vector_at.
  destruct (Z.leb_spec 0 image_id) as [H0|H0]; cbn.
  - destruct (Z.ltb_spec image_id (Z.of_nat (length (image_names_ m)))) as [H1|H1];
      cbn.
    + destruct (image_names_ m !! Z.to_nat image_id) as [name|] eqn:E.
      * split; [|split; [|done]]; split; try done; try lia.
        intros _. by exists name.
      * apply lookup_ge_None in E. lia.
    + split; [|split; [|done]]; split; try done; try lia.
      by intros (? & ? & _).
  - split; [|split; [|done]]; split; try done; try lia.
    by intros (? & ? & _).
Qed.

Lemma first_index_unique {A : Type} (l : list A) (x : A) (i j : nat) :
  first_index l x i → first_index l x j → i = j.
Proof.
  intros [Hi Hi'] [Hj Hj'].
  destruct (Nat.lt_trichotomy i j) as [Hlt|[->|Hlt]]; [|done|].
  - by destruct (Hj' i Hlt).
  - by destruct (Hi' j Hlt).
Qed.

Lemma first_index_exists {A : Type} `{EqDecision A} (l : list A) (x : A) :
  x ∈ l → ∃ i, first_index l x i.
Proof.
  induction l as [|y l IH]; intros Hin; [by apply elem_of_nil in Hin|].
  destruct (decide (y = x)) as [->|Hne].
  - exists 0%nat. split; [done|]. intros j Hj. lia.
  - apply elem_of_cons in Hin as [->|Hin]; [done|].
    destruct (IH Hin) as (i & Hi & Hleast). exists (S i). split; [done|].
    intros [|j] Hj; simpl; [congruence|]. apply Hleast. lia.
Qed.

Lemma first_index_app_l {A : Type} (l1 l2 : list A) (x : A) (i : nat) :
  first_index l1 x i → first_index (l1 ++ l2) x i.
Proof.
  intros [Hi Hleast]. pose proof (lookup_lt_Some _ _ _ Hi).
  split; [by apply lookup_app_l_Some|].
  intros j Hj. rewrite lookup_app_l by lia. by apply Hleast.
Qed.

Lemma first_index_snoc {A : Type} `{EqDecision A} (l : list A) (x y : A) (i : nat) :
  first_index (l ++ [y]) x i
  ↔ first_index l x i ∨ (¬ (x ∈ l) ∧ y = x ∧ i = length l).
Proof.
  split.
  - intros [Hi Hleast]. apply lookup_app_Some in Hi as [Hi|[Hge Hi]].
    + left. split; [done|]. intros j Hj.
      pose proof (lookup_lt_Some _ _ _ Hi).
      specialize (Hleast j Hj). by rewrite lookup_app_l in Hleast by lia.
    + apply list_lookup_singleton_Some in Hi as [Hi ->]. right.
      assert (i = length l) as -> by lia. split; [|done].
      intros Hin. apply list_elem_of_lookup in Hin as [j Hj].
      pose proof (lookup_lt_Some _ _ _ Hj).
      apply (Hleast j); [lia|]. by apply lookup_app_l_Some.
  - intros [H|(Hnot & -> & ->)]; [by apply first_index_app_l|]. split.
    + by rewrite lookup_app_r, Nat.sub_diag by lia.
    + intros j Hj Hl. rewrite lookup_app_l in Hl by lia.
      apply Hnot. by eapply list_elem_of_lookup_2.
Qed.

Lemma names_first_empty : names_first empty_Model.
Proof.
  split; [done|]. intros name id. simpl. rewrite lookup_empty. split; [done|].
  intros (i & _ & Hi & _). by rewrite lookup_nil in Hi.
Qed.

Lemma names_first_push (im : Image) (name : string) (m : Model) :
  names_first m →
  names_first (push_image im name (Z.of_nat (length (image_names_ m))) m).
Proof.
  intros [Hlen Hmap]. split; simpl.
  { rewrite !length_app. simpl. lia. }
  intros name' id. rewrite lookup_emplace.
  destruct (decide (name = name')) as [<-|Hne].
  - destruct (image_name_to_id_ m !! name) as [id0|] eqn:E; simpl.
    + apply Hmap in E as (i0 & -> & Hfirst). split.
      * intros [= <-]. exists i0. split; [done|]. by apply first_index_app_l.
      * intros (i & -> & Hi). f_equal. f_equal.
        eapply first_index_unique; [|exact Hi]. by apply first_index_app_l.
    + assert (name ∉ image_names_ m) as Hfresh.
      { intros Hin. apply first_index_exists in Hin as [i Hi].
        assert (image_name_to_id_ m !! name = Some (Z.of_nat i)) as E'
          by (apply Hmap; by exists i).
        congruence. }
      split.
      * intros [= <-]. exists (length (image_names_ m)). split; [done|].
        apply first_index_snoc. by right.
      * intros (i & -> & Hi). apply first_index_snoc in Hi as [[Hi _]|(_ & _ & ->)];
          [|done].
        exfalso. apply Hfresh. by eapply list_elem_of_lookup_2.
  - rewrite Hmap. split.
    + intros (i & -> & Hi). exists i. split; [done|]. by apply first_index_app_l.
    + intros (i & -> & Hi). exists i. split; [done|].
      apply first_index_snoc in Hi as [Hi|(_ & ? & _)]; done.
Qed.

Lemma names_first_finish_load pts m : names_first m → names_first (finish_load pts m).
Proof. done. Qed.

(** The lookups on a model whose table maps a name to its first
    frame. *)
Lemma names_first_lookups (m : Model) (name : string) :
  names_first m →
  (name ∉ image_names_ m ↔ GetImageId m name = Fatal)
  ∧ (∀ i, GetImageId m name = Ok i
          ↔ ∃ k, i = Z.of_nat k ∧ first_index (image_names_ m) name k)
  ∧ (∀ i, GetImageId m name = Ok i → GetImageName m i = Ok name).
Proof.
  intros [Hlen Hmap]. unfold GetImageId.
  assert (∀ i, match image_name_to_id_ m !! name with
               | Some id => Ok id | None => Fatal end = Ok i
               ↔ image_name_to_id_ m !! name = Some i) as Hiff.
  { intros i. destruct (image_name_to_id_ m !! name); split; congruence. }
  split; [|split].
  - destruct (image_name_to_id_ m !! name) as [id|] eqn:E.
    + apply Hmap in E as (i & _ & Hi & _). split; [|done].
      intros Hnot. destruct Hnot. by eapply list_elem_of_lookup_2.
    + split; [done|]. intros _ Hin.
      apply first_index_exists in Hin as [i Hi].
      assert (image_name_to_id_ m !! name = Some (Z.of_nat i)) as E'
        by (apply Hmap; by exists i).
      congruence.
  - intros i. by rewrite Hiff, Hmap.
  - intros i. rewrite Hiff, Hmap. intros (k & -> & Hk & _).
    pose proof (lookup_lt_Some _ _ _ Hk).
    unfold GetImageName, int_lt_size, vector_at.
    destruct (Z.leb_spec 0 (Z.of_nat k)); [|lia]. cbn.
    destruct (Z.ltb_spec (Z.of_nat k) (Z.of_nat (length (image_names_ m)))); [|lia].
    cbn. by rewrite Nat2Z.id, Hk.
Qed.

(** ** What a reader returns *)

Lemma length_resize {A : Type} (n : nat) (d : A) (v : list A) :
  length (resize n d v) = n.
Proof. unfold resize. rewrite length_app, length_take, length_replicate. lia. Qed.

(** The legacy reader, on any token stream: the rounds of its loops. *)
Lemma ReadFromPMVS_inv env path m0 m :
  ReadFromPMVS env path m0 = Ok m →
  ∃ num_images num_points s m1 s1 pts s2,
    read_images env path num_images 0 m0 s = Ok (m1, s1)
    ∧ read_points (length (images m1)) num_points s1 = Ok (pts, s2)
    ∧ m = finish_load pts m1.
Proof.
  unfold ReadFromPMVS.
  destruct (open_bundle env _) as [[header body]|]; [|done].
  destruct (read_bundle env path m0 body) as [[m' s']| | |] eqn:E; try done.
  cbn. intros [= <-]. unfold read_bundle in E.
  reader_step E. reader_step E.
  destruct (_ <? 0); [done|]. reader_step E.
  destruct (_ <? 0); [done|]. reader_step E.
  injection E as <- <-. by repeat eexists.
Qed.

Lemma read_images_inv env path count image_id m s m' s' :
  read_images env path count image_id m s = Ok (m', s') →
  image_id = Z.of_nat (length (image_names_ m)) →
  names_first m →
  names_first m'
  ∧ length (images m') = (length (images m) + count)%nat
  ∧ image_names_ m'
    = image_names_ m
      ++ ((λ k, image_name_of_id (image_id + Z.of_nat k)) <$> seq 0 count).
Proof.
  revert image_id m s. induction count as [|count IH]; intros image_id m s H Hid Hok.
  - injection H as <- <-. split; [done|]. split; [lia|]. by rewrite app_nil_r.
  - cbn [read_images] in H. reader_step H.
    match goal with E : read_image _ _ _ _ _ = Ok _ |- _ =>
      apply read_image_Ok_inv in E as [im ->] end.
    apply IH in H as (Hok' & Hlen & Hnames).
    + split; [done|]. split; [simpl in Hlen; rewrite length_app in Hlen; simpl in Hlen; lia|].
      rewrite Hnames. simpl. rewrite <- app_assoc. f_equal. simpl.
      rewrite Z.add_0_r. f_equal. rewrite <- fmap_S_seq, <- list_fmap_compose.
      apply list_fmap_ext. intros _ k _. simpl. f_equal. lia.
    + simpl. rewrite length_app. simpl. lia.
    + subst image_id. by apply names_first_push.
Qed.

Lemma read_track_entry_inv n s image_idx s' :
  read_track_entry n s = Ok (image_idx, s') → 0 ≤ image_idx < Z.of_nat n.
Proof.
  unfold read_track_entry. intros H.
  reader_step H. reader_step H. reader_step H. reader_step H.
  destruct (int_lt_size _ n) eqn:E; [|done]. injection H as <- <-.
  unfold int_lt_size in E. apply andb_prop in E as [E1 E2].
  apply Z.leb_le in E1. apply Z.ltb_lt in E2. lia.
Qed.

Lemma read_track_inv n len s track s' :
  read_track n len s = Ok (track, s') →
  length track = len ∧ Forall (λ image_id, 0 ≤ image_id < Z.of_nat n) track.
Proof.
  revert s track. induction len as [|len IH]; intros s track H.
  - by injection H as <- <-.
  - cbn [read_track] in H. reader_step H. reader_step H. injection H as <- <-.
    match goal with E : read_track_entry _ _ = Ok _ |- _ =>
      apply read_track_entry_inv in E end.
    match goal with E : read_track _ _ _ = Ok _ |- _ =>
      apply IH in E as [<- ?] end.
    split; [done|]. by constructor.
Qed.

Lemma read_point_inv n s point s' :
  read_point n s = Ok (point, s') →
  Forall (λ image_id, 0 ≤ image_id < Z.of_nat n) (point_track point).
Proof.
  unfold read_point. intros H.
  do 7 reader_step H. destruct (_ <? 0); [done|]. reader_step H.
  injection H as <- <-. simpl.
  match goal with E : read_track _ _ _ = Ok _ |- _ =>
    by apply read_track_inv in E as [_ ?] end.
Qed.

Lemma read_points_inv n count s pts s' :
  read_points n count s = Ok (pts, s') →
  length pts = count
  ∧ Forall (λ point, Forall (λ image_id, 0 ≤ image_id < Z.of_nat n)
                            (point_track point)) pts.
Proof.
  revert s pts. induction count as [|count IH]; intros s pts H.
  - by injection H as <- <-.
  - cbn [read_points] in H. reader_step H. reader_step H. injection H as <- <-.
    match goal with E : read_point _ _ = Ok _ |- _ => apply read_point_inv in E end.
    match goal with E : read_points _ _ _ = Ok _ |- _ =>
      apply IH in E as [<- ?] end.
    split; [done|]. by constructor.
Qed.

(** The canonical reader: the rounds of its image loop. *)
Lemma load_reg_images_inv path rec ids i m image_id_map m' image_id_map' :
  load_reg_images path rec ids i (m, image_id_map) = Ok (m', image_id_map') →
  points m' = points m
  ∧ (∃ imgs, images m' = images m ++ imgs
             ∧ Forall2 (registered_image path rec) ids imgs)
  ∧ image_names_ m' = image_names_ m ++ names_of_ids rec ids
  ∧ length (names_of_ids rec ids) = length ids
  ∧ (∀ image_id v,
       image_id_map' !! image_id = Some v
       ↔ image_id_map !! image_id = Some v
         ∨ (image_id_map !! image_id = None
            ∧ ∃ k, v = Z.of_nat (i + k) ∧ first_index ids image_id k)).
Proof.
  revert i m image_id_map. induction ids as [|id ids IH];
    intros i m image_id_map H.
  - injection H as <- <-. split; [done|].
    split; [exists []; by rewrite app_nil_r|].
    split; [by rewrite app_nil_r|]. split; [done|].
    intros image_id v. split; [by left|]. intros [?|(_ & k & _ & Hk & _)]; [done|].
    by rewrite lookup_nil in Hk.
  - cbn [load_reg_images] in H.
    destruct (load_reg_image path rec (m, image_id_map) i id)
      as [[m1 map1]| | |] eqn:E1; try done.
    apply load_reg_image_inv in E1 as (image & camera & Him & Hcam & Hpin & -> & ->).
    cbn in H.
    apply IH in H as (Hpts & (imgs & Himgs & Hreg) & Hnames & Hnlen & Hmap).
    simpl in Hpts, Himgs, Hnames.
    split; [done|]. split; [|split; [|split]].
    + eexists (_ :: imgs). rewrite Himgs, <- app_assoc. split; [done|].
      constructor; [|done]. by exists image, camera.
    + rewrite Hnames, <- app_assoc. f_equal. unfold names_of_ids.
      cbn [omap list_omap]. by rewrite Him.
    + unfold names_of_ids in *. cbn [omap list_omap]. rewrite Him. simpl.
      by rewrite Hnlen.
    + intros image_id v. rewrite Hmap, lookup_emplace.
      destruct (decide (id = image_id)) as [<-|Hne].
      * destruct (image_id_map !! id) as [v0|] eqn:E0; simpl.
        -- split; (intros [[= <-]|[? _]]; [by left|done]).
        -- split.
           ++ intros [[= <-]|[? _]]; [|done]. right. split; [done|].
              exists 0%nat. split; [f_equal; lia|]. split; [done|]. lia.
           ++ intros [?|(_ & k & -> & Hk)]; [done|]. left.
              assert (k = 0%nat) as ->; [|repeat f_equal; lia].
              eapply first_index_unique; [exact Hk|]. split; [done|]. lia.
      * split.
        -- intros [?|(Hnone & k & -> & Hk & Hleast)]; [by left|].
           right. split; [done|]. exists (S k). split; [f_equal; lia|].
           split; [done|]. intros [|j] Hj; simpl; [congruence|].
           apply Hleast. lia.
        -- intros [?|(Hnone & k & -> & Hk & Hleast)]; [by left|].
           right. split; [done|]. destruct k as [|k]; [simpl in Hk; congruence|].
           exists k. split; [f_equal; lia|]. split; [done|].
           intros j Hj. apply (Hleast (S j)). lia.
Qed.

(** With at most 2^31 frames the name table of the canonical reader maps
    a name to the first frame that bears it. *)
Lemma load_reg_images_names_first path rec ids i m image_id_map m' image_id_map' :
  load_reg_images path rec ids i (m, image_id_map) = Ok (m', image_id_map') →
  i = length (image_names_ m) →
  Z.of_nat (i + length ids) ≤ 2 ^ 31 →
  names_first m → names_first m'.
Proof.
  revert i m image_id_map. induction ids as [|id ids IH];
    intros i m image_id_map H Hi Hsmall Hok.
  - by injection H as <- <-.
  - cbn [load_reg_images] in H.
    destruct (load_reg_image path rec (m, image_id_map) i id)
      as [[m1 map1]| | |] eqn:E1; try done.
    apply load_reg_image_inv in E1 as (image & camera & _ & _ & _ & -> & ->).
    cbn in H. simpl in Hsmall. rewrite int_of_size_t_small in H by lia.
    eapply IH; [exact H| | |].
    + simpl. rewrite length_app. simpl. lia.
    + lia.
    + subst i. by apply names_first_push.
Qed.

Lemma map_track_inv (image_id_map : gmap Z Z) (track t : list Z) :
  map_track image_id_map track = Ok t →
  Forall2 (λ image_id idx, ∃ v, image_id_map !! image_id = Some v
                                ∧ idx = int_of_size_t v) track t.
Proof.
  revert t. induction track as [|image_id track IH]; intros t H.
  - injection H as <-. constructor.
  - cbn [map_track] in H. destruct (image_id_map !! image_id) as [v|] eqn:E; [|done].
    destruct (map_track image_id_map track) as [rest| | |]; try done.
    cbn in H. injection H as <-. constructor; [by exists v|by apply IH].
Qed.

Lemma load_points3D_inv (image_id_map : gmap Z Z) (ps : list Point3D)
    (acc pts : list Point) :
  load_points3D image_id_map ps acc = Ok pts →
  ∃ new, pts = acc ++ new
    ∧ Forall2 (λ p point,
                 point_x point = point3D_X p ∧ point_y point = point3D_Y p
                 ∧ point_z point = point3D_Z p
                 ∧ map_track image_id_map (point3D_Track p) = Ok (point_track point))
              ps new.
Proof.
  revert acc. induction ps as [|p ps IH]; intros acc H.
  - injection H as <-. exists []. by rewrite app_nil_r.
  - cbn [load_points3D] in H. unfold load_point3D in H.
    destruct (map_track image_id_map (point3D_Track p)) as [track| | |] eqn:E;
      try done.
    cbn in H. apply IH in H as (new & -> & Hnew).
    eexists (_ :: new). rewrite <- app_assoc. split; [done|].
    constructor; [|done]. by rewrite E.
Qed.

(** The canonical reader on a model without frames. *)
Lemma ReadFromCOLMAP_inv env path m :
  ReadFromCOLMAP env path empty_Model = Ok m →
  ∃ rec m1 image_id_map pts,
    read_reconstruction env (JoinPaths path "sparse") = Ok rec
    ∧ load_reg_images path rec (RegImageIds rec) 0 (empty_Model, ∅)
      = Ok (m1, image_id_map)
    ∧ load_points3D image_id_map (Points3D rec) [] = Ok pts
    ∧ m = finish_load pts m1.
Proof.
  unfold ReadFromCOLMAP.
  destruct (read_reconstruction env _) as [rec| | |]; try done. cbn.
  destruct (load_reg_images path rec (RegImageIds rec) 0 (empty_Model, ∅))
    as [[m1 map1]| | |] eqn:E; try done.
  cbn. destruct (load_points3D map1 (Points3D rec) (points m1)) as [pts| | |] eqn:Ep;
    try done.
  cbn. intros [= <-]. exists rec, m1, map1, pts. split; [done|]. split; [done|].
  split; [|done].
  apply load_reg_images_inv in E as (Hp & _). by rewrite Hp in Ep.
Qed.

Lemma Read_inv env path format m0 m :
  Read env path format m0 = Ok m →
  (format = "COLMAP" ∧ ReadFromCOLMAP env path m0 = Ok m)
  ∨ (format = "PMVS" ∧ ReadFromPMVS env path m0 = Ok m).
Proof.
  unfold Read. destruct (decide (format = "COLMAP")); [by left|].
  destruct (decide (format = "PMVS")); [by right|done].
Qed.

Lemma Read_names_first env path format m :
  Read env path format empty_Model = Ok m →
  Z.of_nat (length (images m)) ≤ 2 ^ 31 →
  names_first m.
Proof.
  intros H Hsmall. apply Read_inv in H as [[_ H]|[_ H]].
  - apply ReadFromCOLMAP_inv in H as (rec & m1 & map1 & pts & _ & E & _ & ->).
    apply names_first_finish_load. simpl in Hsmall.
    pose proof E as E'.
    apply load_reg_images_inv in E' as (_ & (imgs & Himgs & Hreg) & _).
    apply Forall2_length in Hreg. rewrite Himgs in Hsmall. simpl in Hsmall.
    eapply load_reg_images_names_first;
      [exact E|done|simpl; lia|apply names_first_empty].
  - apply ReadFromPMVS_inv in H as (n & k & s & m1 & s1 & pts & s2 & E & _ & ->).
    apply names_first_finish_load.
    by apply read_images_inv in E as [? _]; [|done|apply names_first_empty].
Qed.

(** X2: in a loaded model of at most 2^31 frames, [GetImageId] returns the
    first frame that bears the name and aborts when no frame does; the
    name of the frame it returns is the name that was asked for. *)
Theorem GetImageId_first_index (env : Env) (path format : string) (m : Model)
    (name : string) :
  Read env path format empty_Model = Ok m →
  Z.of_nat (length (images m)) ≤ 2 ^ 31 →
  (name ∉ image_names_ m ↔ GetImageId m name = Fatal)
  ∧ (∀ i, GetImageId m name = Ok i
          ↔ ∃ k, i = Z.of_nat k ∧ first_index (image_names_ m) name k)
  ∧ (∀ i, GetImageId m name = Ok i → GetImageName m i = Ok name).
Proof.
  intros H Hsmall. apply names_first_lookups. by eapply Read_names_first.
Qed.

Lemma GetImageId_first_index_witness :
  (("a.jpg" : string) ∉ image_names_ example_colmap_model
   ↔ GetImageId example_colmap_model "a.jpg" = Fatal)
  ∧ (∀ i, GetImageId example_colmap_model "a.jpg" = Ok i
          ↔ ∃ k, i = Z.of_nat k
                 ∧ first_index (image_names_ example_colmap_model) "a.jpg" k)
  ∧ (∀ i, GetImageId example_colmap_model "a.jpg" = Ok i
          → GetImageName example_colmap_model i = Ok "a.jpg").
Proof.
  apply (GetImageId_first_index example_dir "root" "COLMAP").
  - vm_compute. reflexivity.
  - vm_compute. discriminate.
Defined.

(** X3: after either reader the three per-frame containers have one slot
    per frame, whatever the model held before. *)
Theorem Read_slots (env : Env) (path format : string) (m0 m : Model) :
  Read env path format m0 = Ok m →
  length (depth_maps m) = length (images m)
  ∧ length (normal_maps m) = length (images m)
  ∧ length (consistency_graph m) = length (images m).
Proof.
  intros H.
  assert (∃ pts m1, m = finish_load pts m1) as (pts & m1 & ->).
  { apply Read_inv in H as [[_ H]|[_ H]].
    - unfold ReadFromCOLMAP in H.
      destruct (read_reconstruction env _) as [rec| | |]; try done. cbn in H.
      destruct (load_reg_images _ _ _ _ _) as [st| | |]; try done. cbn in H.
      destruct (load_points3D _ _ _) as [pts| | |]; try done. cbn in H.
      injection H as <-. by eexists _, _.
    - apply ReadFromPMVS_inv in H as (? & ? & ? & m1 & ? & pts & ? & _ & _ & ->).
      by eexists _, _. }
  simpl. by rewrite !length_resize.
Qed.

Lemma Read_slots_witness :
  length (depth_maps example_pmvs_model) = length (images example_pmvs_model)
  ∧ length (normal_maps example_pmvs_model) = length (images example_pmvs_model)
  ∧ length (consistency_graph example_pmvs_model)
    = length (images example_pmvs_model).
Proof.
  apply (Read_slots example_dir "root" "PMVS" empty_Model).
  vm_compute. reflexivity.
Defined.

(** X4: a model that a reader returns (at most 2^31 frames) has valid
    tracks, so that both passes over it return, with one entry per
    frame. *)
Theorem Read_valid_tracks (env : Env) (path format : string) (m : Model) :
  Read env path format empty_Model = Ok m →
  Z.of_nat (length (images m)) ≤ 2 ^ 31 →
  valid_tracks m
  ∧ ∃ shared_points depth_ranges,
      ComputeSharedPoints m = Ok shared_points
      ∧ ComputeDepthRanges m = Ok depth_ranges
      ∧ length shared_points = length (images m)
      ∧ length depth_ranges = length (images m).
Proof.
  intros H Hsmall.
  assert (valid_tracks m) as Hv.
  { apply Read_inv in H as [[_ H]|[_ H]].
    - apply ReadFromCOLMAP_inv in H as (rec & m1 & map1 & pts & _ & E & Ep & ->).
      unfold valid_tracks. simpl in *.
      apply load_reg_images_inv in E as (_ & (imgs & Himgs & Hreg) & _ & _ & Hmap).
      apply Forall2_length in Hreg. simpl in Himgs. subst imgs.
      apply load_points3D_inv in Ep as (new & -> & Hnew). simpl.
      apply Forall_forall. intros point Hpoint.
      apply list_elem_of_lookup in Hpoint as [j Hj].
      destruct (Forall2_lookup_r _ _ _ _ _ Hnew Hj) as (p & _ & _ & _ & _ & Htrack).
      apply map_track_inv in Htrack.
      apply Forall_forall. intros idx Hidx.
      apply list_elem_of_lookup in Hidx as [t Ht].
      destruct (Forall2_lookup_r _ _ _ _ _ Htrack Ht) as (id & _ & v & Hv & ->).
      apply Hmap in Hv as [Hv|(_ & k & -> & Hk & _)];
        [by rewrite lookup_empty in Hv|].
      apply lookup_lt_Some in Hk. rewrite int_of_size_t_small; lia.
    - apply ReadFromPMVS_inv in H as (n & k & s & m1 & s1 & pts & s2 & _ & E & ->).
      by apply read_points_inv in E as [_ ?]. }
  split; [done|].
  destruct (ComputeSharedPoints_spec m Hv) as (sp & E1 & [Hl1 _] & _).
  destruct (ComputeDepthRanges_spec m Hv) as (ranges & E2 & Hl2 & _).
  exists (wrap_table sp), ranges. by rewrite length_wrap_table.
Qed.

Lemma Read_valid_tracks_witness :
  valid_tracks example_colmap_model
  ∧ ∃ shared_points depth_ranges,
      ComputeSharedPoints example_colmap_model = Ok shared_points
      ∧ ComputeDepthRanges example_colmap_model = Ok depth_ranges
      ∧ length shared_points = length (images example_colmap_model)
      ∧ length depth_ranges = length (images example_colmap_model).
Proof.
  apply (Read_valid_tracks example_dir "root" "COLMAP").
  - vm_compute. reflexivity.
  - vm_compute. discriminate.
Defined.

(** ** The legacy reader *)

(** X5: the legacy reader names frame [i] by its index printed with
    [%08d.jpg], on any input it accepts. *)
Theorem ReadFromPMVS_frame_names (env : Env) (path : string) (m : Model) (i : Z) :
  ReadFromPMVS env path empty_Model = Ok m →
  0 ≤ i < Z.of_nat (length (images m)) →
  GetImageName m i = Ok (image_name_of_id i)
  ∧ GetImageId m (image_name_of_id i) = Ok i
  ∧ image_name_of_id 7 = "00000007.jpg"
  ∧ image_name_of_id 123456789 = "123456789.jpg".
Proof.
  intros H Hi.
  apply ReadFromPMVS_inv in H as (n & k & s & m1 & s1 & pts & s2 & E & _ & ->).
  apply read_images_inv in E as (Hfirst & Hlen & Hnames);
    [|done|apply names_first_empty].
  simpl in *.
  assert (image_names_ m1 !! Z.to_nat i = Some (image_name_of_id i)) as Hname.
  { rewrite Hnames, list_lookup_fmap, lookup_seq_lt by lia. simpl.
    f_equal. f_equal. lia. }
  assert (GetImageName (finish_load pts m1) i = Ok (image_name_of_id i)) as Hget.
  { unfold GetImageName, int_lt_size, vector_at. simpl.
    destruct Hfirst as [Hl _]. rewrite Hl.
    destruct (Z.leb_spec 0 i); [|lia]. cbn.
    destruct (Z.ltb_spec i (Z.of_nat (length (images m1)))); [|lia].
    cbn. by rewrite Hname. }
  split; [done|]. split; [|by vm_compute].
  destruct (names_first_lookups (finish_load pts m1) (image_name_of_id i))
    as (_ & Hidx & _); [done|].
  apply Hidx. exists (Z.to_nat i). split; [lia|]. split; [done|].
  intros j Hj. simpl. rewrite Hnames, list_lookup_fmap, lookup_seq_lt by lia.
  simpl. intros [= Heq]. apply image_name_of_id_inj in Heq; lia.
Qed.

Lemma ReadFromPMVS_frame_names_witness :
  GetImageName example_pmvs_model 1 = Ok (image_name_of_id 1)
  ∧ GetImageId example_pmvs_model (image_name_of_id 1) = Ok 1
  ∧ image_name_of_id 7 = "00000007.jpg"
  ∧ image_name_of_id 123456789 = "123456789.jpg".
Proof.
  apply (ReadFromPMVS_frame_names example_dir "root").
  - vm_compute. reflexivity.
  - vm_compute. split; [discriminate|reflexivity].
Defined.

Lemma images_of_cameras_missing env path (cs : list BundleCamera) image_id m i c :
  cs !! i = Some c →
  image_of_camera env path (image_id + Z.of_nat i) c = None →
  images_of_cameras env path image_id cs m = None.
Proof.
  revert image_id m i. induction cs as [|c0 cs IH]; intros image_id m i Hi Hnone.
  - by rewrite lookup_nil in Hi.
  - cbn [images_of_cameras]. destruct i as [|i]; simpl in Hi.
    + injection Hi as ->. rewrite Z.add_0_r in Hnone. by rewrite Hnone.
    + destruct (image_of_camera env path image_id c0); [|done].
      apply (IH _ _ i); [done|].
      replace (image_id + 1 + Z.of_nat i) with (image_id + Z.of_nat (S i)) by lia.
      done.
Qed.

(** X6: on a bundle that follows the grammar the legacy reader aborts when
    the bitmap of one of the frames cannot be read. *)
Theorem ReadFromPMVS_missing_bitmap (env : Env) (path : string) (b : Bundle)
    (m : Model) (i : nat) :
  holds_bundle env path b → bundle_wf b = true →
  (i < length (bundle_cameras b))%nat →
  read_bitmap env (JoinPaths (JoinPaths path "visualize")
                     (image_name_of_id (Z.of_nat i))) = None →
  ReadFromPMVS env path m = Fatal.
Proof.
  intros Hb Hwf Hi Hnone. rewrite (ReadFromPMVS_bundle env path m b Hb Hwf).
  destruct (lookup_lt_is_Some_2 (bundle_cameras b) i Hi) as [c Hc].
  rewrite (images_of_cameras_missing env path _ 0 m i c Hc); [done|].
  unfold image_of_camera. rewrite Z.add_0_l. cbv zeta. by rewrite Hnone.
Qed.

Lemma ReadFromPMVS_missing_bitmap_witness :
  ReadFromPMVS (example_env_no_bitmap (example_bundle F32.zero 1)) "root" empty_Model
  = Fatal.
Proof.
  apply (ReadFromPMVS_missing_bitmap _ _ (example_bundle F32.zero 1) _ 1).
  - by eexists.
  - vm_compute. reflexivity.
  - simpl. lia.
  - reflexivity.
Defined.

(** X7: on a bundle that follows the grammar, the frames the legacy reader
    returns are one per camera block: the bitmap of frame [i] is
    [path/visualize/<name of i>], and its calibration has the focal
    length of the block twice on the diagonal and half the width and
    half the height of the bitmap as principal point. *)
Theorem ReadFromPMVS_intrinsics (env : Env) (path : string) (b : Bundle)
    (m : Model) (i : nat) (c : BundleCamera) :
  holds_bundle env path b → bundle_wf b = true →
  ReadFromPMVS env path empty_Model = Ok m →
  bundle_cameras b !! i = Some c →
  ∃ im width height,
    images m !! i = Some im
    ∧ image_path im
      = JoinPaths (JoinPaths path "visualize") (image_name_of_id (Z.of_nat i))
    ∧ read_bitmap env (image_path im) = Some (width, height)
    ∧ image_K im
      = [cam_focal c; F32.zero; F32.div (F32.of_Z width) F32.two;
         F32.zero; cam_focal c; F32.div (F32.of_Z height) F32.two;
         F32.zero; F32.zero; F32.one].
Proof.
  intros Hb Hwf Hread Hc. rewrite (ReadFromPMVS_bundle env path _ b Hb Hwf) in Hread.
  destruct (images_of_cameras env path 0 (bundle_cameras b) empty_Model)
    as [m1|] eqn:E; [|done].
  destruct (mapM _ _) as [pts|]; [|done]. injection Hread as <-.
  apply images_of_cameras_images in E as (_ & _ & Hall).
  destruct (Hall i c Hc) as (im & Him & Hof). simpl in Him.
  unfold image_of_camera in Hof. rewrite Z.add_0_l in Hof.
  destruct (read_bitmap env _) as [[width height]|] eqn:Ebmp; [|done].
  destruct (_ && _); [|done]. injection Hof as <-.
  eexists _, width, height. split; [exact Him|].
  cbn [image_path image_K]. by rewrite Ebmp.
Qed.

Lemma ReadFromPMVS_intrinsics_witness :
  ∃ im width height,
    images example_pmvs_model !! 1%nat = Some im
    ∧ image_path im
      = JoinPaths (JoinPaths "root" "visualize") (image_name_of_id (Z.of_nat 1))
    ∧ read_bitmap example_dir (image_path im) = Some (width, height)
    ∧ image_K im
      = [cam_focal (example_camera F32.zero); F32.zero;
         F32.div (F32.of_Z width) F32.two;
         F32.zero; cam_focal (example_camera F32.zero);
         F32.div (F32.of_Z height) F32.two;
         F32.zero; F32.zero; F32.one].
Proof.
  apply (ReadFromPMVS_intrinsics example_dir "root" (example_bundle F32.zero 1)).
  - by eexists.
  - vm_compute. reflexivity.
  - vm_compute. reflexivity.
  - reflexivity.
Defined.

(** X8: on a bundle that follows the grammar, the points the legacy reader
    returns are those of the bundle, in order: the coordinates are kept,
    the track lists the frame of every view, and the colour, the feature
    index and the image position of a view are dropped. *)
Theorem ReadFromPMVS_points (env : Env) (path : string) (b : Bundle) (m : Model) :
  holds_bundle env path b → bundle_wf b = true →
  ReadFromPMVS env path empty_Model = Ok m →
  length (images m) = length (bundle_cameras b)
  ∧ Forall2 (λ p point,
               point = {| point_x := bp_x p; point_y := bp_y p; point_z := bp_z p;
                          point_track := view_image <$> bp_views p |})
            (bundle_points b) (points m).
Proof.
  intros Hb Hwf Hread. rewrite (ReadFromPMVS_bundle env path _ b Hb Hwf) in Hread.
  destruct (images_of_cameras env path 0 (bundle_cameras b) empty_Model)
    as [m1|] eqn:E; [|done].
  destruct (mapM _ _) as [pts|] eqn:Ep; [|done]. injection Hread as <-.
  apply images_of_cameras_images in E as (Hlen & _). simpl in *.
  split; [done|]. apply mapM_Some in Ep.
  eapply Forall2_impl; [exact Ep|]. intros p point Hp.
  unfold point_of_bundle, track_of_views in Hp.
  destruct (forallb _ _); [|done]. by injection Hp as <-.
Qed.

Lemma ReadFromPMVS_points_witness :
  length (images example_pmvs_model)
  = length (bundle_cameras (example_bundle F32.zero 1))
  ∧ Forall2 (λ p point,
               point = {| point_x := bp_x p; point_y := bp_y p; point_z := bp_z p;
                          point_track := view_image <$> bp_views p |})
            (bundle_points (example_bundle F32.zero 1))
            (points example_pmvs_model).
Proof.
  apply (ReadFromPMVS_points example_dir "root").
  - by eexists.
  - vm_compute. reflexivity.
  - vm_compute. reflexivity.
Defined.

(** ** The canonical reader *)

Lemma names_of_ids_present (rec : Reconstruction) (ids : list Z) :
  Forall (λ image_id, is_Some (rec_Images rec !! image_id)) ids →
  Forall2 (λ image_id name,
             ∃ image, rec_Images rec !! image_id = Some image
                      ∧ name = rimage_Name image)
          ids (names_of_ids rec ids).
Proof.
  induction 1 as [|id ids [image Him] _ IH]; [constructor|].
  unfold names_of_ids in *. cbn [omap list_omap]. rewrite Him. simpl.
  constructor; [by exists image|done].
Qed.

Lemma registered_images_present (path : string) (rec : Reconstruction)
    (ids : list Z) (imgs : list Image) :
  Forall2 (registered_image path rec) ids imgs →
  Forall (λ image_id, is_Some (rec_Images rec !! image_id)) ids.
Proof.
  induction 1 as [|id im ids imgs (image & _ & Him & _) _ IH]; constructor;
    [by exists image|done].
Qed.

(** X9: the frames the canonical reader returns are the registered images
    in the order of their registration, each with the calibration of its
    pinhole camera, its pose, the path [path/images/<name>] and the name
    the reconstruction gives it. *)
Theorem ReadFromCOLMAP_images (env : Env) (path : string) (rec : Reconstruction)
    (m : Model) :
  read_reconstruction env (JoinPaths path "sparse") = Ok rec →
  ReadFromCOLMAP env path empty_Model = Ok m →
  Forall2 (registered_image path rec) (RegImageIds rec) (images m)
  ∧ image_names_ m = names_of_ids rec (RegImageIds rec)
  ∧ ∀ k image_id, RegImageIds rec !! k = Some image_id →
      ∃ image, rec_Images rec !! image_id = Some image
               ∧ GetImageName m (Z.of_nat k) = Ok (rimage_Name image).
Proof.
  intros Hrec H.
  apply ReadFromCOLMAP_inv in H as (rec' & m1 & map1 & pts & Hrec' & E & _ & ->).
  rewrite Hrec in Hrec'. injection Hrec' as <-.
  apply load_reg_images_inv in E as (_ & (imgs & Himgs & Hreg) & Hnames & Hnlen & _).
  simpl in *. subst imgs. split; [done|]. split; [done|].
  intros k image_id Hk.
  pose proof (names_of_ids_present rec _ (registered_images_present _ _ _ _ Hreg))
    as Hall.
  destruct (Forall2_lookup_l _ _ _ _ _ Hall Hk) as (name & Hname & image & Him & ->).
  exists image. split; [done|].
  pose proof (lookup_lt_Some _ _ _ Hname) as Hlt.
  unfold GetImageName, int_lt_size, vector_at. simpl. rewrite Hnames.
  destruct (Z.leb_spec 0 (Z.of_nat k)); [|lia]. cbn.
  destruct (Z.ltb_spec (Z.of_nat k)
              (Z.of_nat (length (names_of_ids rec (RegImageIds rec))))); [|lia].
  cbn. by rewrite Nat2Z.id, Hname.
Qed.

Lemma ReadFromCOLMAP_images_witness :
  Forall2 (registered_image "root" (example_reconstruction "a.jpg" "b.jpg" 20))
          (RegImageIds (example_reconstruction "a.jpg" "b.jpg" 20))
          (images example_colmap_model)
  ∧ image_names_ example_colmap_model
    = names_of_ids (example_reconstruction "a.jpg" "b.jpg" 20)
        (RegImageIds (example_reconstruction "a.jpg" "b.jpg" 20))
  ∧ ∀ k image_id,
      RegImageIds (example_reconstruction "a.jpg" "b.jpg" 20) !! k = Some image_id →
      ∃ image,
        rec_Images (example_reconstruction "a.jpg" "b.jpg" 20) !! image_id
        = Some image
        ∧ GetImageName example_colmap_model (Z.of_nat k) = Ok (rimage_Name image).
Proof.
  apply (ReadFromCOLMAP_images example_dir "root").
  - reflexivity.
  - vm_compute. reflexivity.
Defined.

Lemma load_reg_images_not_pinhole path rec ids i st :
  Forall (λ image_id,
            ∃ image camera, rec_Images rec !! image_id = Some image
                            ∧ rec_Cameras rec !! rimage_CameraId image = Some camera)
         ids →
  Exists (λ image_id,
            ∃ image camera, rec_Images rec !! image_id = Some image
                            ∧ rec_Cameras rec !! rimage_CameraId image = Some camera
                            ∧ camera_ModelId camera ≠ PinholeCameraModel_model_id)
         ids →
  load_reg_images path rec ids i st = Fatal.
Proof.
  intros Hall Hex. revert i st Hall.
  induction Hex as [id ids (image & camera & Him & Hcam & Hne)|id ids _ IH];
    intros i [m map0] Hall.
  - cbn [load_reg_images]. unfold load_reg_image. rewrite Him, Hcam.
    destruct (Z.eqb_spec (camera_ModelId camera) PinholeCameraModel_model_id); done.
  - apply Forall_cons in Hall as [(image & camera & Him & Hcam) Hall].
    cbn [load_reg_images]. unfold load_reg_image. rewrite Him, Hcam.
    destruct (negb _); [done|]. cbn. by apply IH.
Qed.

(** X10: the canonical reader aborts when the camera of a registered image is
    not a pinhole camera (every registered image and its camera being in
    the reconstruction). *)
Theorem ReadFromCOLMAP_not_pinhole (env : Env) (path : string)
    (rec : Reconstruction) (m : Model) (image_id : Z) (image : RecImage)
    (camera : Camera) :
  read_reconstruction env (JoinPaths path "sparse") = Ok rec →
  Forall (λ image_id,
            ∃ image camera, rec_Images rec !! image_id = Some image
                            ∧ rec_Cameras rec !! rimage_CameraId image = Some camera)
         (RegImageIds rec) →
  image_id ∈ RegImageIds rec →
  rec_Images rec !! image_id = Some image →
  rec_Cameras rec !! rimage_CameraId image = Some camera →
  camera_ModelId camera ≠ PinholeCameraModel_model_id →
  ReadFromCOLMAP env path m = Fatal ∧ Read env path "COLMAP" m = Fatal.
Proof.
  intros Hrec Hall Hin Him Hcam Hne.
  assert (ReadFromCOLMAP env path m = Fatal) as H; [|by rewrite Read_COLMAP].
  unfold ReadFromCOLMAP. rewrite Hrec. cbn.
  rewrite load_reg_images_not_pinhole; [done|done|].
  apply Exists_exists. exists image_id. split; [done|]. by exists image, camera.
Qed.

Lemma ReadFromCOLMAP_not_pinhole_witness :
  ReadFromCOLMAP (example_env (example_bundle F32.zero 1) example_reconstruction_radial)
    "root" empty_Model = Fatal
  ∧ Read (example_env (example_bundle F32.zero 1) example_reconstruction_radial)
      "root" "COLMAP" empty_Model = Fatal.
Proof.
  apply (ReadFromCOLMAP_not_pinhole _ _ example_reconstruction_radial _ 20
           {| rimage_Name := "b.jpg"; rimage_CameraId := 2;
              rimage_R := identity3;
              rimage_T := [F32.zero; F32.zero; F32.zero] |}
           {| camera_ModelId := 2; camera_K := identity3 |}).
  - reflexivity.
  - repeat constructor; eexists _, _; split; vm_compute; reflexivity.
  - simpl. set_solver.
  - vm_compute. reflexivity.
  - vm_compute. reflexivity.
  - vm_compute. discriminate.
Defined.

(** X11: the canonical reader keeps the points in order with their
    coordinates and rewrites every track entry from the id of an image
    to the index of the frame made of that image, the first one when
    the id is registered more than once (at most 2^31 frames). *)
Theorem ReadFromCOLMAP_tracks (env : Env) (path : string) (rec : Reconstruction)
    (m : Model) :
  read_reconstruction env (JoinPaths path "sparse") = Ok rec →
  ReadFromCOLMAP env path empty_Model = Ok m →
  Z.of_nat (length (images m)) ≤ 2 ^ 31 →
  Forall2 (λ p point,
             point_x point = point3D_X p ∧ point_y point = point3D_Y p
             ∧ point_z point = point3D_Z p
             ∧ Forall2 (λ image_id idx,
                          ∃ k im, idx = Z.of_nat k
                                  ∧ first_index (RegImageIds rec) image_id k
                                  ∧ images m !! k = Some im
                                  ∧ registered_image path rec image_id im)
                       (point3D_Track p) (point_track point))
          (Points3D rec) (points m).
Proof.
  intros Hrec H Hsmall.
  apply ReadFromCOLMAP_inv in H as (rec' & m1 & map1 & pts & Hrec' & E & Ep & ->).
  rewrite Hrec in Hrec'. injection Hrec' as <-.
  apply load_reg_images_inv in E as (_ & (imgs & Himgs & Hreg) & _ & _ & Hmap).
  simpl in *. subst imgs.
  apply load_points3D_inv in Ep as (new & -> & Hnew). simpl.
  eapply Forall2_impl; [exact Hnew|].
  intros p point (Hx & Hy & Hz & Htrack). split; [done|]. split; [done|].
  split; [done|]. apply map_track_inv in Htrack.
  eapply Forall2_impl; [exact Htrack|].
  intros image_id idx (v & Hv & ->).
  apply Hmap in Hv as [Hv|(_ & k & -> & Hk)]; [by rewrite lookup_empty in Hv|].
  pose proof Hk as [Hk0 _]. pose proof (lookup_lt_Some _ _ _ Hk0) as Hlt.
  pose proof (Forall2_length _ _ _ Hreg) as Hlen.
  destruct (Forall2_lookup_l _ _ _ _ _ Hreg Hk0) as (im & Him & Hregk).
  exists k, im. rewrite int_of_size_t_small by lia. simpl. done.
Qed.

Lemma ReadFromCOLMAP_tracks_witness :
  Forall2 (λ p point,
             point_x point = point3D_X p ∧ point_y point = point3D_Y p
             ∧ point_z point = point3D_Z p
             ∧ Forall2 (λ image_id idx,
                          ∃ k im,
                            idx = Z.of_nat k
                            ∧ first_index
                                (RegImageIds (example_reconstruction "a.jpg" "b.jpg" 20))
                                image_id k
                            ∧ images example_colmap_model !! k = Some im
                            ∧ registered_image "root"
                                (example_reconstruction "a.jpg" "b.jpg" 20)
                                image_id im)
                       (point3D_Track p) (point_track point))
          (Points3D (example_reconstruction "a.jpg" "b.jpg" 20))
          (points example_colmap_model).
Proof.
  apply (ReadFromCOLMAP_tracks example_dir "root").
  - reflexivity.
  - vm_compute. reflexivity.
  - vm_compute. discriminate.
Defined.

(** ** A point behind the cameras *)

Lemma frame_depths_add_point (p : Point) (m : Model) (f : nat) :
  frame_depths (add_point p m) f
  = frame_depths m f ++ (point_track p ≫= entry_depths (images m) f p).
Proof.
  unfold frame_depths. simpl. rewrite bind_app. f_equal. simpl.
  by rewrite app_nil_r.
Qed.

(** X19: a point that has no positive depth for any of the frames of its
    track changes no range: points behind the cameras are ignored. *)
Theorem ComputeDepthRanges_behind_camera (m : Model) (p : Point) :
  valid_tracks (add_point p m) →
  (∀ f image, Z.of_nat f ∈ point_track p → images m !! f = Some image →
     F32.ltb F32.zero (depth_of image p) = false) →
  ComputeDepthRanges (add_point p m) = ComputeDepthRanges m.
Proof.
  intros Hv Hbehind. pose proof (valid_tracks_add_point p m Hv) as [Hv0 _].
  destruct (ComputeDepthRanges_spec m Hv0) as (ranges & E & Hl & Hr).
  destruct (ComputeDepthRanges_spec _ Hv) as (ranges' & E' & Hl' & Hr').
  rewrite E, E'. f_equal. simpl in Hl', Hr'. apply list_eq. intros f.
  destruct (decide (f < length (images m))%nat) as [Hf|Hf].
  - rewrite Hr, Hr', frame_depths_add_point by done.
    assert (point_track p ≫= entry_depths (images m) f p = []) as ->;
      [|by rewrite app_nil_r].
    induction (point_track p) as [|image_id track IH]; [done|].
    rewrite bind_cons, IH.
    + rewrite app_nil_r. unfold entry_depths.
      destruct (decide (image_id = Z.of_nat f)) as [->|]; [|done].
      destruct (images m !! f) as [image|] eqn:Ei; [|done].
      rewrite (Hbehind f image); [done|by left|done].
    + intros f' image Hin. apply Hbehind. by right.
  - rewrite !(proj2 (lookup_ge_None _ _)) by lia. done.
Qed.

Lemma ComputeDepthRanges_behind_camera_witness :
  ComputeDepthRanges (add_point (axis_point (F32.of_Z (-3)) [0])
                        (axis_model [F32.two]))
  = ComputeDepthRanges (axis_model [F32.two]).
Proof.
  apply ComputeDepthRanges_behind_camera.
  - unfold valid_tracks. simpl. repeat constructor; lia.
  - intros f image Hin Him. simpl in Hin. apply list_elem_of_singleton in Hin.
    assert (f = 0%nat) as -> by lia. simpl in Him. injection Him as <-.
    vm_compute. reflexivity.
Defined.

(** ** The file names of the legacy reader *)

Lemma string_of_uint_length (d : Decimal.uint) :
  String.length (NilEmpty.string_of_uint d) = Decimal.nb_digits d.
Proof. induction d; simpl; by rewrite ?IHd. Qed.

(** X21: the name of frame [image_id] is made of its decimal digits, at
    least eight of them, followed by [.jpg]; the digits read back as the
    index. *)
Theorem image_name_of_id_digits (image_id : Z) :
  0 ≤ image_id →
  ∃ digits,
    image_name_of_id image_id = NilEmpty.string_of_uint digits +:+ ".jpg"
    ∧ NilEmpty.uint_of_string (NilEmpty.string_of_uint digits) = Some digits
    ∧ Z.of_N (N.of_uint digits) = image_id
    ∧ (8 ≤ Decimal.nb_digits digits)%nat
    ∧ String.length (image_name_of_id image_id) = (Decimal.nb_digits digits + 4)%nat.
Proof.
  intros Hid. unfold image_name_of_id, format_08d.
  destruct (Z.ltb_spec image_id 0); [lia|].
  exists (pad_zeros 8 (N.to_uint (Z.to_N image_id))).
  split; [done|]. split; [apply NilEmpty.usu|]. split; [|split].
  - rewrite of_uint_pad_zeros, Unsigned.of_to. lia.
  - unfold pad_zeros. rewrite DecimalFacts.nb_digits_iter_D0. lia.
  - rewrite string_length_app, string_of_uint_length. done.
Qed.

Lemma image_name_of_id_digits_witness :
  ∃ digits,
    image_name_of_id 42 = NilEmpty.string_of_uint digits +:+ ".jpg"
    ∧ NilEmpty.uint_of_string (NilEmpty.string_of_uint digits) = Some digits
    ∧ Z.of_N (N.of_uint digits) = 42
    ∧ (8 ≤ Decimal.nb_digits digits)%nat
    ∧ String.length (image_name_of_id 42) = (Decimal.nb_digits digits + 4)%nat.
Proof. apply image_name_of_id_digits. lia. Defined.

(** ** What the legacy reader does not look at *)

Lemma images_of_cameras_ext env env' path image_id (cs : list BundleCamera) m :
  (∀ p, read_bitmap env' p = read_bitmap env p) →
  images_of_cameras env' path image_id cs m
  = images_of_cameras env path image_id cs m.
Proof.
  intros Hbmp. revert image_id m. induction cs as [|c cs IH]; intros image_id m;
    [done|].
  cbn [images_of_cameras]. unfold image_of_camera. rewrite Hbmp.
  destruct (read_bitmap env _) as [[w h]|]; [|done].
  destruct (_ && _); [|done]. apply IH.
Qed.

Lemma ReadFromPMVS_bundle_rest env path m (b : Bundle) header rest :
  open_bundle env (JoinPaths path "bundle.rd.out")
  = Some (header, bundle_tokens b ++ rest) →
  bundle_wf b = true →
  ReadFromPMVS env path m
  = match images_of_cameras env path 0 (bundle_cameras b) m with
    | None => Fatal
    | Some m' =>
        match mapM (point_of_bundle (length (images m'))) (bundle_points b) with
        | None => Fatal
        | Some pts => Ok (finish_load pts m')
        end
    end.
Proof.
  intros Hopen Hwf. unfold bundle_wf in Hwf.
  apply andb_prop in Hwf as [Hwf Hps]. apply andb_prop in Hwf as [Hwf Hcs].
  apply andb_prop in Hwf as [Hnc Hnp].
  unfold ReadFromPMVS. rewrite Hopen. unfold read_bundle, bundle_tokens.
  rewrite <- !app_comm_cons, <- app_assoc.
  rewrite !bind_read_int by done.
  destruct (Z.ltb_spec (Z.of_nat (length (bundle_cameras b))) 0); [lia|].
  cbv beta iota. rewrite ?Nat2Z.id.
  pose proof (read_images_tokens env path (bundle_cameras b) 0 m
                ((bundle_points b ≫= point_tokens) ++ rest) Hcs) as E.
  destruct (images_of_cameras env path 0 (bundle_cameras b) m) as [m'|].
  2:{ by rewrite (bind_Fatal _ _ _ E). }
  rewrite (bind_Ok _ _ _ _ _ E).
  destruct (Z.ltb_spec (Z.of_nat (length (bundle_points b))) 0); [lia|].
  cbv beta iota. rewrite ?Nat2Z.id.
  pose proof (read_points_tokens (length (images m')) (bundle_points b) rest Hps) as E'.
  destruct (mapM _ (bundle_points b)) as [pts|].
  - by rewrite (bind_Ok _ _ _ _ _ E').
  - by rewrite (bind_Fatal _ _ _ E').
Qed.

(** X22: the legacy reader looks neither at the header line of the bundle
    file nor at what follows the last point: two directories with the
    same bitmaps whose bundle files differ only there give the same
    result. *)
Theorem ReadFromPMVS_header_and_rest (env env' : Env) (path : string) (m : Model)
    (b : Bundle) (header : string) (rest : list token) :
  holds_bundle env path b → bundle_wf b = true →
  open_bundle env' (JoinPaths path "bundle.rd.out")
  = Some (header, bundle_tokens b ++ rest) →
  (∀ p, read_bitmap env' p = read_bitmap env p) →
  ReadFromPMVS env' path m = ReadFromPMVS env path m.
Proof.
  intros Hb Hwf Hopen Hbmp.
  rewrite (ReadFromPMVS_bundle env path m b Hb Hwf).
  rewrite (ReadFromPMVS_bundle_rest env' path m b header rest Hopen Hwf).
  by rewrite (images_of_cameras_ext env env').
Qed.

Lemma ReadFromPMVS_header_and_rest_witness :
  ReadFromPMVS
    {| open_bundle := λ _, Some ("no header",
                                 bundle_tokens (example_bundle F32.zero 1)
                                 ++ [TInt 7; TReal F32.one]);
       read_bitmap := read_bitmap example_dir;
       read_reconstruction := read_reconstruction example_dir |}
    "root" empty_Model
  = ReadFromPMVS example_dir "root" empty_Model.
Proof.
  apply (ReadFromPMVS_header_and_rest example_dir _ "root" empty_Model
           (example_bundle F32.zero 1) "no header" [TInt 7; TReal F32.one]).
  - by eexists.
  - vm_compute. reflexivity.
  - reflexivity.
  - reflexivity.
Defined.

(** X23: adding a point changes the ranges of the frames of its track
    only: the range of every other frame stays what it was, and the
    number of ranges stays the number of frames. *)
Theorem ComputeDepthRanges_other_frames (m : Model) (p : Point) :
  valid_tracks (add_point p m) →
  ∃ ranges ranges',
    ComputeDepthRanges m = Ok ranges
    ∧ ComputeDepthRanges (add_point p m) = Ok ranges'
    ∧ length ranges' = length ranges
    ∧ ∀ f, Z.of_nat f ∉ point_track p → ranges' !! f = ranges !! f.
Proof.
  intros Hv. pose proof (valid_tracks_add_point p m Hv) as [Hv0 _].
  destruct (ComputeDepthRanges_spec m Hv0) as (ranges & E & Hl & Hr).
  destruct (ComputeDepthRanges_spec _ Hv) as (ranges' & E' & Hl' & Hr').
  exists ranges, ranges'. split; [done|]. split; [done|]. simpl in Hl', Hr'.
  split; [lia|]. intros f Hf.
  destruct (decide (f < length (images m))%nat) as [Hlt|Hge].
  - rewrite Hr, Hr', frame_depths_add_point by done.
    assert (point_track p ≫= entry_depths (images m) f p = []) as ->;
      [|by rewrite app_nil_r].
    induction (point_track p) as [|image_id track IH]; [done|].
    rewrite bind_cons, IH by set_solver. rewrite app_nil_r.
    unfold entry_depths. rewrite decide_False; [done|]. set_solver.
  - rewrite !(proj2 (lookup_ge_None _ _)) by lia. done.
Qed.

Lemma ComputeDepthRanges_other_frames_witness :
  valid_tracks (add_point (axis_point F32.two [1]) (frames_only 2))
  ∧ ∃ ranges ranges',
      ComputeDepthRanges (frames_only 2) = Ok ranges
      ∧ ComputeDepthRanges (add_point (axis_point F32.two [1]) (frames_only 2))
        = Ok ranges'
      ∧ length ranges' = length ranges
      ∧ ∀ f, Z.of_nat f ∉ point_track (axis_point F32.two [1]) →
             ranges' !! f = ranges !! f.
Proof.
  assert (H : valid_tracks (add_point (axis_point F32.two [1]) (frames_only 2))).
  { unfold valid_tracks. simpl. repeat constructor; lia. }
  split; [exact H|].
  exact (ComputeDepthRanges_other_frames (frames_only 2) (axis_point F32.two [1]) H).
Defined.

(** ** The sign convention of the legacy reader *)

Lemma binary_round_aux_opp (s : bool) (m e : Z) (l : location) :
  binary_round_aux 24 128 (negb s) m e l = SFopp (binary_round_aux 24 128 s m e l).
Proof.
  unfold binary_round_aux.
  destruct (shr_fexp 24 128 m e l) as [mrs' e'].
  destruct (shr_fexp 24 128 _ e' loc_Exact) as [mrs'' e''].
  destruct (shr_m mrs''); [done| |done]. by destruct (_ <=? _).
Qed.

Lemma binary_round_opp (s : bool) (m : positive) (e : Z) :
  binary_round 24 128 (negb s) m e = SFopp (binary_round 24 128 s m e).
Proof.
  unfold binary_round. destruct (shl_align m e _) as [mz ez].
  apply binary_round_aux_opp.
Qed.

Lemma opp_involutive (x : float) : SFopp (SFopp x) = x.
Proof. by destruct x as [[|]|[|]| |[|]]. Qed.

Lemma mul_opp_l (x y : float) : F32.mul (F32.opp x) y = F32.opp (F32.mul x y).
Proof.
  destruct x as [sx|sx| |sx mx ex], y as [sy|sy| |sy my ey]; try done;
    try (by destruct sx, sy).
  unfold F32.mul, F32.opp, SFmul, SFopp. fold (SFopp).
  replace (xorb (negb sx) sy) with (negb (xorb sx sy)) by (by destruct sx, sy).
  apply binary_round_aux_opp.
Qed.

Lemma same_but_zero_sign_trans (x y z : float) :
  same_but_zero_sign x y → same_but_zero_sign y z → same_but_zero_sign x z.
Proof.
  intros [->|[Hx Hy]] [->|[Hy' Hz]]; [by left|by right|by right|by right].
Qed.

Lemma add_opp (x y : float) :
  same_but_zero_sign (F32.add (F32.opp x) (F32.opp y)) (F32.opp (F32.add x y)).
Proof.
  destruct x as [sx|sx| |sx mx ex], y as [sy|sy| |sy my ey];
    try (by left); try (destruct sx, sy; by (left + right)).
  change (F32.opp (S754_finite sx mx ex)) with (S754_finite (negb sx) mx ex).
  change (F32.opp (S754_finite sy my ey)) with (S754_finite (negb sy) my ey).
  unfold F32.add, F32.opp, SFadd.
  set (a := Zpos (shl_align mx ex (Z.min ex ey)).1).
  set (b := Zpos (shl_align my ey (Z.min ex ey)).1).
  assert (cond_Zopp (negb sx) a + cond_Zopp (negb sy) b
          = - (cond_Zopp sx a + cond_Zopp sy b)) as -> by (destruct sx, sy; simpl; lia).
  destruct (cond_Zopp sx a + cond_Zopp sy b) as [|p|p];
    unfold binary_normalize; cbn [Z.opp]; cbv beta iota.
  - by right.
  - left. apply (binary_round_opp false).
  - left. change (Z.opp (Zneg p)) with (Zpos p). cbv beta iota.
    rewrite <- (opp_involutive (binary_round _ _ false p _)).
    f_equal. symmetry. apply (binary_round_opp false).
Qed.

Lemma add_same_but_zero_sign (a a' b b' : float) :
  same_but_zero_sign a a' → same_but_zero_sign b b' →
  same_but_zero_sign (F32.add a b) (F32.add a' b').
Proof.
  intros [->|[Ha Ha']] [->|[Hb Hb']]; [by left| | |].
  - destruct b as [sb| | |], b' as [sb'| | |]; try done.
    destruct a' as [sa|sa| |sa ma ea]; try (by left).
    destruct sa, sb, sb'; by right.
  - destruct a as [sa| | |], a' as [sa'| | |]; try done.
    destruct b' as [sb|sb| |sb mb eb]; try (by left).
    destruct sa, sa', sb; by right.
  - destruct a as [sa| | |], a' as [sa'| | |]; try done.
    destruct b as [sb| | |], b' as [sb'| | |]; try done.
    destruct sa, sa', sb, sb'; by right.
Qed.

Lemma ltb_zero_same (d d' : float) :
  same_but_zero_sign d d' → F32.ltb F32.zero d = F32.ltb F32.zero d'.
Proof.
  intros [->|[Hd Hd']]; [done|].
  destruct d as [s| | |], d' as [s'| | |]; done.
Qed.

Lemma ltb_zero_opp (d : float) : F32.ltb F32.zero (F32.opp d) = F32.ltb d F32.zero.
Proof. by destruct d as [[|]|[|]| |[|]]. Qed.

(** The depth for a frame whose third rotation row and third translation
    component are the negated values [r6, r7, r8, t2] is, but for the
    sign of a zero, the negated depth for the values themselves. *)
Lemma depth_of_negated (im : Image) (point : Point) (r6 r7 r8 t2 : float) :
  image_R im !!! 6%nat = F32.opp r6 → image_R im !!! 7%nat = F32.opp r7 →
  image_R im !!! 8%nat = F32.opp r8 → image_T im !!! 2%nat = F32.opp t2 →
  same_but_zero_sign
    (depth_of im point)
    (F32.opp (F32.add (dot3 r6 r7 r8 (point_x point) (point_y point) (point_z point))
                t2)).
Proof.
  unfold depth_of, dot3. intros -> -> -> ->. rewrite !mul_opp_l.
  eapply same_but_zero_sign_trans; [|apply add_opp].
  apply add_same_but_zero_sign; [|by left].
  eapply same_but_zero_sign_trans; [|apply add_opp].
  apply add_same_but_zero_sign; [by left|]. apply add_opp.
Qed.

(** X20: the legacy reader turns the convention of the bundle file, in which
    a camera looks down the negative z axis, into that of the model: a
    point has a positive depth for a loaded frame exactly when the depth
    computed from the third row and the third translation component of
    the file is negative. *)
Theorem ReadFromPMVS_depth_sign (env : Env) (path : string) (b : Bundle)
    (m : Model) (i : nat) (c : BundleCamera) (point : Point)
    (r0 r1 r2 r3 r4 r5 r6 r7 r8 t0 t1 t2 : float) :
  holds_bundle env path b → bundle_wf b = true →
  ReadFromPMVS env path empty_Model = Ok m →
  bundle_cameras b !! i = Some c →
  cam_R c = [r0; r1; r2; r3; r4; r5; r6; r7; r8] →
  cam_T c = [t0; t1; t2] →
  ∃ im, images m !! i = Some im
    ∧ F32.ltb F32.zero (depth_of im point)
      = F32.ltb (F32.add (dot3 r6 r7 r8 (point_x point) (point_y point)
                               (point_z point)) t2)
                F32.zero.
Proof.
  intros Hb Hwf Hread Hc HR HT.
  rewrite (ReadFromPMVS_bundle env path _ b Hb Hwf) in Hread.
  destruct (images_of_cameras env path 0 (bundle_cameras b) empty_Model)
    as [m1|] eqn:E; [|done].
  destruct (mapM _ _) as [pts|]; [|done]. injection Hread as <-.
  apply images_of_cameras_images in E as (_ & _ & Hall).
  destruct (Hall i c Hc) as (im & Him & Hof). simpl in Him.
  unfold image_of_camera in Hof.
  destruct (read_bitmap env _) as [[width height]|]; [|done].
  destruct (_ && _); [|done]. injection Hof as <-.
  eexists. split; [exact Him|].
  rewrite <- ltb_zero_opp. apply ltb_zero_same.
  apply depth_of_negated; cbn [image_R image_T]; by rewrite ?HR, ?HT.
Qed.

Lemma ReadFromPMVS_depth_sign_witness :
  ∃ im, images example_pmvs_model !! 1%nat = Some im
    ∧ F32.ltb F32.zero (depth_of im (axis_point (F32.of_Z (-5)) [1]))
      = F32.ltb (F32.add (dot3 F32.zero F32.zero F32.one
                               F32.zero F32.zero (F32.of_Z (-5)))
                         (F32.of_Z 3))
                F32.zero.
Proof.
  apply (ReadFromPMVS_depth_sign example_dir "root" (example_bundle F32.zero 1)
           example_pmvs_model 1 (example_camera F32.zero)
           (axis_point (F32.of_Z (-5)) [1])
           F32.one F32.zero F32.zero F32.zero F32.one F32.zero
           F32.zero F32.zero F32.one (F32.of_Z 1) (F32.of_Z 2) (F32.of_Z 3)).
  - by eexists.
  - vm_compute. reflexivity.
  - vm_compute. reflexivity.
  - reflexivity.
  - reflexivity.
  - reflexivity.
Defined.
